(** * A shallow embedding of the recursive-descent calculator of [calc.cpp]

    The C++ class [Parser] owns an immutable [string expr] and a mutable
    cursor [size_t pos].  Its member functions are embedded here as
    functions over an explicit cursor; C++ exceptions become a tagged
    outcome; [double] is the kernel's binary64 type; the two library
    functions the parser calls, [std::stod] and [pow], are respectively
    modelled by correct rounding and taken as a parameter. *)

From Stdlib Require Import ZArith String Ascii List Bool Arith Lia.
From Stdlib Require Import DecimalString.
From Stdlib Require Import PrimFloat SpecFloat FloatOps.
Import ListNotations.

Local Open Scope nat_scope.
Local Open Scope string_scope.

(** ** <cctype>, in the default "C" locale *)

Definition isspace (c : ascii) : bool :=
  let n := nat_of_ascii c in ((n =? 32) || ((9 <=? n) && (n <=? 13)))%nat.

Definition isdigit (c : ascii) : bool :=
  let n := nat_of_ascii c in ((48 <=? n) && (n <=? 57))%nat.

(** ** Exceptions

    One constructor per [throw] site of [calc.cpp], plus the two
    exceptions [std::stod] may raise.  A constructor carries an offset
    exactly when the message built at the [throw] site contains
    [to_string(pos)]; [what] rebuilds that message. *)

Inductive exception : Type :=
| TrailingInput (offset : nat)
| DivisionByZero
| ModuloByZero
| UnmatchedParenthesis
| ExpectedNumber (offset : nat)
| StodInvalidArgument
| StodOutOfRange.

Definition to_string (n : nat) : string :=
  NilZero.string_of_uint (Nat.to_uint n).

Definition what (e : exception) : string :=
  match e with
  | TrailingInput p => "Unexpected trailing input at pos " ++ to_string p
  | DivisionByZero => "Division by zero"
  | ModuloByZero => "Modulo by zero"
  | UnmatchedParenthesis => "Missing ')'"
  | ExpectedNumber p => "Expected number at pos " ++ to_string p
  | StodInvalidArgument => "stod"
  | StodOutOfRange => "stod"
  end.

(** The offset an exception reports, when its message has one. *)
Definition reported_offset (e : exception) : option nat :=
  match e with
  | TrailingInput p | ExpectedNumber p => Some p
  | _ => None
  end.

(** ** Outcomes

    [Undefined] stands for a C++ execution with undefined behaviour (a
    [double] to [long long] conversion out of range, or [LLONG_MIN % -1]);
    [OutOfFuel] is the model running out of recursion budget, which
    [fuel_suffices] below shows never happens in [evaluate]. *)

Inductive outcome (A : Type) : Type :=
| Ok (a : A)
| Throw (e : exception)
| Undefined
| OutOfFuel.

Arguments Ok {A} a.
Arguments Throw {A} e.
Arguments Undefined {A}.
Arguments OutOfFuel {A}.

(** ** [double] and [long long] *)

Definition LLONG_MIN : Z := (- 2 ^ 63)%Z.
Definition LLONG_MAX : Z := (2 ^ 63 - 1)%Z.

(** [static_cast<long long>(x)]: truncation toward zero; [None] where the
    truncated value is not representable (or [x] is infinite or NaN) and
    the conversion is undefined. *)
Definition to_long_long (x : float) : option Z :=
  match Prim2SF x with
  | S754_zero _ => Some 0%Z
  | S754_finite s m e =>
      let t := Z.shiftl (Zpos m) e in
      let z := if s then (- t)%Z else t in
      if (LLONG_MIN <=? z)%Z && (z <=? LLONG_MAX)%Z then Some z else None
  | S754_infinity _ | S754_nan => None
  end.

(** The conversion as the specification words it, to compare with
    [to_long_long]: the value [± m * 2^e] of a finite double with its
    fractional part discarded, whatever its size. *)
Definition truncate (x : float) : option Z :=
  match Prim2SF x with
  | S754_zero _ => Some 0%Z
  | S754_finite s m e =>
      Some (Z.quot ((if s then Zneg m else Zpos m) * 2 ^ Z.max 0 e)
                   (2 ^ Z.max 0 (- e)))
  | S754_infinity _ | S754_nan => None
  end.

(** [static_cast<double>(z)] for a [long long] [z], rounding to nearest. *)
Definition of_long_long (z : Z) : float :=
  SF2Prim (binary_normalize prec emax z 0 false).

(** ** [std::stod]

    [parseNumber] only ever passes [stod] text made of decimal digits,
    ['.'], an exponent marker and a sign, which does not start with a
    sign ([stod_argument] below), so only the decimal form of [strtod]'s
    subject sequence is modelled: digits, an optional radix point and
    more digits, an optional exponent; the longest such prefix is
    converted, rounding to nearest, ties to even.  No digit in the
    mantissa means no conversion ([std::invalid_argument]).  [ERANGE]
    ([std::out_of_range]) is raised on overflow and, as the GNU C library
    does where tininess is detected after rounding (x86-64), on underflow:
    an inexact result whose value, rounded to 53 bits with no bound on
    the exponent, is still below the normal range. *)

Definition digit_value (c : ascii) : Z := Z.of_nat (nat_of_ascii c - 48).

(** Reads a run of digits: accumulated value, number of digits, rest. *)
Fixpoint read_digits (s : string) (acc : Z) (count : nat) : Z * nat * string :=
  match s with
  | String c s' =>
      if isdigit c then read_digits s' (10 * acc + digit_value c)%Z (S count)
      else (acc, count, s)
  | EmptyString => (acc, count, s)
  end.

(** The exponent part, [0] when absent or malformed. *)
Definition read_exponent (s : string) : Z :=
  match s with
  | String c s' =>
      if (c =? "e")%char || (c =? "E")%char then
        let '(neg, s'') :=
          match s' with
          | String "+" t => (false, t)
          | String "-" t => (true, t)
          | _ => (false, s')
          end in
        let '(e, n, _) := read_digits s'' 0%Z 0 in
        if (n =? 0)%nat then 0%Z else if neg then (- e)%Z else e
      else 0%Z
  | EmptyString => 0%Z
  end.

(** [m * 10^e] rounded to binary64. *)
Definition round_decimal (m : Z) (e : Z) : spec_float :=
  match m with
  | Zpos p =>
      if (0 <=? e)%Z then
        SFdiv prec emax (S754_finite false (p * Z.to_pos (10 ^ e)) 0)
                        (S754_finite false 1 0)
      else
        SFdiv prec emax (S754_finite false p 0)
                        (S754_finite false (Z.to_pos (10 ^ (- e))) 0)
  | _ => S754_zero false
  end.

(** Whether [m * 10^e], rounded to 53 bits in a format whose exponent
    range is wide enough not to matter, is below [DBL_MIN = 2^-1022]. *)
Definition tiny (m e : Z) : bool :=
  let wide := (2 * emax)%Z in
  match m with
  | Zpos p =>
      let r :=
        if (0 <=? e)%Z then
          SFdiv prec wide (S754_finite false (p * Z.to_pos (10 ^ e)) 0)
                          (S754_finite false 1 0)
        else
          SFdiv prec wide (S754_finite false p 0)
                          (S754_finite false (Z.to_pos (10 ^ (- e))) 0) in
      match r with
      | S754_finite _ m' e' => (e' + Zpos (digits2_pos m') <=? 2 - emax)%Z
      | S754_zero _ => true
      | S754_infinity _ | S754_nan => false
      end
  | _ => false
  end.

(** Whether the finite float [m2 * 2^e2] is exactly [m * 10^e]. *)
Definition exactly (m e : Z) (m2 : positive) (e2 : Z) : bool :=
  let scale b k := if (0 <=? k)%Z then (b ^ k)%Z else 1%Z in
  (m * scale 10 e * scale 2 (- e2) =? Zpos m2 * scale 2 e2 * scale 10 (- e))%Z.

Definition stod (str : string) : outcome float :=
  let '(m1, n1, rest) := read_digits str 0%Z 0 in
  let '(m, n2, rest) :=
    match rest with
    | String "." t => read_digits t m1 0
    | _ => (m1, 0, rest)
    end in
  if (n1 + n2 =? 0)%nat then Throw StodInvalidArgument
  else
    let e := (read_exponent rest - Z.of_nat n2)%Z in
    let r := round_decimal m e in
    match r with
    | S754_infinity _ | S754_nan => Throw StodOutOfRange
    | S754_zero _ => if (m =? 0)%Z then Ok (SF2Prim r) else Throw StodOutOfRange
    | S754_finite _ m2 e2 =>
        if tiny m e && negb (exactly m e m2 e2)
        then Throw StodOutOfRange
        else Ok (SF2Prim r)
    end.

(** ** The cursor

    [pos] is the member [size_t pos].  [journal] is ghost state: every
    assignment to [pos] is recorded, most recent first, tagged with the
    kind of statement that made it ([++pos] or [pos++], the assignment
    [pos = start + i] of [matchStr], and the assignment [pos = save] of
    [parseNumber]). *)

Inductive write : Type :=
| Increment (p : nat)
| Assign (p : nat)
| Rollback (p : nat).

(** The offset a write gives the cursor. *)
Definition target (w : write) : nat :=
  match w with
  | Increment p | Assign p | Rollback p => p
  end.

Record cursor : Type := { pos : nat; journal : list write }.

Definition fresh : cursor := {| pos := 0; journal := [] |}.

Definition increment (c : cursor) : cursor :=
  {| pos := S (pos c); journal := Increment (S (pos c)) :: journal c |}.

Definition assign (p : nat) (c : cursor) : cursor :=
  {| pos := p; journal := Assign p :: journal c |}.

Definition rollback (save : nat) (c : cursor) : cursor :=
  {| pos := save; journal := Rollback save :: journal c |}.

(** A member function returning [A]: it reads and updates the cursor and
    ends in an outcome. *)
Definition M (A : Type) : Type := cursor -> outcome A * cursor.

Definition ret {A} (a : A) : M A := fun c => (Ok a, c).

Definition throw {A} (e : exception) : M A := fun c => (Throw e, c).

Definition undefined {A} : M A := fun c => (Undefined, c).

Definition out_of_fuel {A} : M A := fun c => (OutOfFuel, c).

Definition bind {A B} (m : M A) (k : A -> M B) : M B :=
  fun c =>
    match m c with
    | (Ok a, c') => k a c'
    | (Throw e, c') => (Throw e, c')
    | (Undefined, c') => (Undefined, c')
    | (OutOfFuel, c') => (OutOfFuel, c')
    end.

Declare Scope parser_scope.
Delimit Scope parser_scope with parser.
Notation "x <- m ;; k" := (bind m (fun x => k))
  (at level 61, m at next level, right associativity) : parser_scope.

Section Parser.

(** [pow] of <cmath>. *)
Variable pow : float -> float -> float.

(** The member [expr]. *)
Variable expr : string.

Local Open Scope parser_scope.

Definition size : nat := String.length expr.

(** [expr[i]]; like [std::string], it yields NUL at [i = size]. *)
Definition at_ (i : nat) : ascii :=
  match String.get i expr with
  | Some ch => ch
  | None => Ascii.zero
  end.

(** *** Utilities *)

(** The loop of [skipSpaces]; [n] bounds the number of iterations. *)
Fixpoint skipSpaces_loop (n : nat) (c : cursor) : cursor :=
  match n with
  | S n' =>
      if (pos c <? size)%nat && isspace (at_ (pos c))
      then skipSpaces_loop n' (increment c)
      else c
  | O => c
  end.

Definition skipSpaces (c : cursor) : cursor :=
  skipSpaces_loop (size - pos c) c.

Definition match_ (ch : ascii) : M bool :=
  fun c =>
    let c := skipSpaces c in
    if (pos c <? size)%nat && (at_ (pos c) =? ch)%char
    then (Ok true, increment c)
    else (Ok false, c).

(** The loop of [matchStr] over the C string [s]: the final [i], and
    whether [s[i]] is then the terminator. *)
Fixpoint matchStr_loop (s : string) (start i : nat) : nat * bool :=
  match s with
  | String ch s' =>
      if (start + i <? size)%nat && (at_ (start + i) =? ch)%char
      then matchStr_loop s' start (S i)
      else (i, false)
  | EmptyString => (i, true)
  end.

Definition matchStr (s : string) : M bool :=
  fun c =>
    let c := skipSpaces c in
    let start := pos c in
    let '(i, finished) := matchStr_loop s start 0 in
    if finished then (Ok true, assign (start + i) c) else (Ok false, c).

Definition peek : M ascii :=
  fun c =>
    let c := skipSpaces c in
    (Ok (if (pos c <? size)%nat then at_ (pos c) else Ascii.zero), c).

Definition nextStartsFactor : M bool :=
  ch <- peek ;;
  ret ((ch =? "(")%char || isdigit ch || (ch =? ".")%char).

(** *** Numbers *)

(** The first loop of [parseNumber]: [seenDigit], [seenDot] and the
    cursor when it exits. *)
Fixpoint mantissa_loop (n : nat) (seenDigit seenDot : bool) (c : cursor)
  : bool * bool * cursor :=
  match n with
  | S n' =>
      if (pos c <? size)%nat then
        let ch := at_ (pos c) in
        if isdigit ch then mantissa_loop n' true seenDot (increment c)
        else if (ch =? ".")%char && negb seenDot
             then mantissa_loop n' seenDigit true (increment c)
             else (seenDigit, seenDot, c)
      else (seenDigit, seenDot, c)
  | O => (seenDigit, seenDot, c)
  end.

(** The loop over the digits of the exponent: [expDigits] and the
    cursor when it exits. *)
Fixpoint exponent_loop (n : nat) (expDigits : bool) (c : cursor)
  : bool * cursor :=
  match n with
  | S n' =>
      if (pos c <? size)%nat && isdigit (at_ (pos c))
      then exponent_loop n' true (increment c)
      else (expDigits, c)
  | O => (expDigits, c)
  end.

(** The [if] block of [parseNumber] for scientific notation. *)
Definition exponent_suffix (c : cursor) : cursor :=
  if (pos c <? size)%nat
     && ((at_ (pos c) =? "e")%char || (at_ (pos c) =? "E")%char)
  then
    let save := pos c in
    let c := increment c in
    let c :=
      if (pos c <? size)%nat
         && ((at_ (pos c) =? "+")%char || (at_ (pos c) =? "-")%char)
      then increment c else c in
    let '(expDigits, c) := exponent_loop (size - pos c) false c in
    if negb expDigits then rollback save c else c
  else c.

Definition parseNumber : M float :=
  fun c =>
    let c := skipSpaces c in
    let start := pos c in
    let '(seenDigit, seenDot, c) :=
      mantissa_loop (size - pos c) false false c in
    let c := exponent_suffix c in
    if negb seenDigit && negb (start <? pos c)%nat
    then (Throw (ExpectedNumber (pos c)), c)
    else (stod (substring start (pos c - start) expr), c).

(** *** Division and modulo, as [parseTerm] computes them *)

Definition divide (val d : float) : outcome float :=
  if (d =? 0)%float then Throw DivisionByZero else Ok (val / d)%float.

Definition modulo (val rhs : float) : outcome float :=
  match to_long_long val with
  | None => Undefined
  | Some a =>
      match to_long_long rhs with
      | None => Undefined
      | Some b =>
          if (b =? 0)%Z then Throw ModuloByZero
          else if (a =? LLONG_MIN)%Z && (b =? -1)%Z then Undefined
          else Ok (of_long_long (Z.rem a b))
      end
  end.

Definition lift {A} (o : outcome A) : M A := fun c => (o, c).

(** *** Grammar

    The four mutually recursive productions and the [while (true)]
    loops of [parseExpression] and [parseTerm]; every call and every
    loop iteration spends one unit of [fuel]. *)

Fixpoint parseExpression (fuel : nat) : M float :=
  match fuel with
  | S fuel' =>
      val <- parseTerm fuel' ;;
      parseExpression_loop fuel' val
  | O => out_of_fuel
  end

with parseExpression_loop (fuel : nat) (val : float) : M float :=
  match fuel with
  | S fuel' =>
      plus <- match_ "+" ;;
      if plus then
        t <- parseTerm fuel' ;;
        parseExpression_loop fuel' (val + t)%float
      else
        minus <- match_ "-" ;;
        if minus then
          t <- parseTerm fuel' ;;
          parseExpression_loop fuel' (val - t)%float
        else ret val
  | O => out_of_fuel
  end

with parseTerm (fuel : nat) : M float :=
  match fuel with
  | S fuel' =>
      val <- parsePower fuel' ;;
      parseTerm_loop fuel' val
  | O => out_of_fuel
  end

with parseTerm_loop (fuel : nat) (val : float) : M float :=
  match fuel with
  | S fuel' =>
      star <- match_ "*" ;;
      if star then
        r <- parsePower fuel' ;;
        parseTerm_loop fuel' (val * r)%float
      else
        slash <- match_ "/" ;;
        if slash then
          d <- parsePower fuel' ;;
          val' <- lift (divide val d) ;;
          parseTerm_loop fuel' val'
        else
          percent <- match_ "%" ;;
          if percent then
            rhs <- parsePower fuel' ;;
            val' <- lift (modulo val rhs) ;;
            parseTerm_loop fuel' val'
          else
            implicit <- nextStartsFactor ;;
            if implicit then
              r <- parsePower fuel' ;;
              parseTerm_loop fuel' (val * r)%float
            else ret val
  | O => out_of_fuel
  end

with parsePower (fuel : nat) : M float :=
  match fuel with
  | S fuel' =>
      base <- parseFactor fuel' ;;
      starstar <- matchStr "**" ;;
      caret <- (if starstar then ret true else match_ "^") ;;
      if caret then
        exp <- parsePower fuel' ;;
        ret (pow base exp)
      else ret base
  | O => out_of_fuel
  end

with parseFactor (fuel : nat) : M float :=
  match fuel with
  | S fuel' =>
      fun c =>
        (plus <- match_ "+" ;;
         if plus then parseFactor fuel'
         else
           minus <- match_ "-" ;;
           if minus then
             v <- parseFactor fuel' ;;
             ret (- v)%float
           else
             paren <- match_ "(" ;;
             if paren then
               v <- parseExpression fuel' ;;
               close <- match_ ")" ;;
               if close then ret v else throw UnmatchedParenthesis
             else parseNumber) (skipSpaces c)
  | O => out_of_fuel
  end.

(** [Parser::parse]. *)
Definition parse (fuel : nat) : M float :=
  v <- parseExpression fuel ;;
  fun c =>
    let c := skipSpaces c in
    if negb (pos c =? size)%nat then (Throw (TrailingInput (pos c)), c)
    else (Ok v, c).

End Parser.

(** The recursion budget [evaluate] gives [parse]: four units per
    character and four more. *)
Definition budget (text : string) : nat := 4 * String.length text + 4.

(** [Parser p(text); p.parse()]: the outcome, and the cursor it ends on. *)
Definition run (pow : float -> float -> float) (text : string)
  : outcome float * cursor :=
  parse pow text (budget text) fresh.

Definition evaluate (pow : float -> float -> float) (text : string)
  : outcome float :=
  fst (run pow text).

(** ** [main]

    The read-evaluate-print loop of [main], as a function from the
    lines [getline] reads, in order and until it fails, to the text
    written on [cout].  [show] is [operator<<] on a [double]; the result
    is [None] when an evaluation has undefined behaviour. *)

Definition nl : string := String "010" EmptyString.

Definition banner : string :=
  "=============================" ++ nl
  ++ "   C++ Calculator (PEMDAS)" ++ nl
  ++ "=============================" ++ nl ++ nl.

Definition prompt : string := "Enter expression (or Q to quit): ".

Definition goodbye : string := "Goodbye!" ++ nl.

(** The test [line == "q" || line == "Q"]. *)
Definition quits (line : string) : bool :=
  (line =? "q")%string || (line =? "Q")%string.

Section Main.

Variable pow : float -> float -> float.
Variable show : float -> string.

(** The [try] block and its handler: what one line makes [main] print. *)
Definition report (line : string) : option string :=
  match evaluate pow line with
  | Ok result => Some ("Result: " ++ show result ++ nl ++ nl)
  | Throw e => Some ("Error: " ++ what e ++ nl ++ nl)
  | Undefined | OutOfFuel => None
  end.

(** The [while (true)] loop. *)
Fixpoint main_loop (lines : list string) : option string :=
  match lines with
  | [] => Some prompt
  | line :: rest =>
      if quits line then Some prompt
      else
        match report line, main_loop rest with
        | Some out, Some more => Some (prompt ++ out ++ more)
        | _, _ => None
        end
  end.

Definition main (lines : list string) : option string :=
  match main_loop lines with
  | Some out => Some (banner ++ out ++ goodbye)
  | None => None
  end.

End Main.

(** ** The cursor discipline

    [trail expr c0 c]: the cursor [c] is reached from [c0] by assignments
    to [pos] that each keep it inside the text and move it forward,
    except a [Rollback], which takes it back by the one or two characters
    of an exponent marker (and its sign), onto the marker, and never
    before the point [c0] the trail started from. *)

Definition is_exponent_marker (ch : ascii) : bool :=
  ((ch =? "e") || (ch =? "E"))%char.

Inductive trail (expr : string) (c0 : cursor) : cursor -> Prop :=
| trail_start : trail expr c0 c0
| trail_increment c :
    trail expr c0 c -> pos c < size expr ->
    trail expr c0 (increment c)
| trail_assign c p :
    trail expr c0 c -> pos c <= p <= size expr ->
    trail expr c0 (assign p c)
| trail_rollback c save :
    trail expr c0 c ->
    pos c0 <= save -> save < pos c <= save + 2 ->
    is_exponent_marker (at_ expr save) = true ->
    trail expr c0 (rollback save c).

(** ** A sample [pow]

    The parser is parametric in <cmath>'s [pow]; this instance, exact
    repeated multiplication for exponents that are small natural numbers
    and NaN elsewhere, stands in for it where a concrete one is needed. *)

Fixpoint repeated_product (b : float) (n : nat) : float :=
  match n with
  | O => 1%float
  | S n' => (b * repeated_product b n')%float
  end.

Definition sample_pow (b e : float) : float :=
  match to_long_long e with
  | Some z =>
      if (0 <=? z)%Z && (z <? 64)%Z && (of_long_long z =? e)%float
      then repeated_product b (Z.to_nat z)
      else nan
  | None => nan
  end.

(** The characters a number literal is made of. *)
Definition literal_char (ch : ascii) : bool :=
  isdigit ch || (ch =? ".")%char || is_exponent_marker ch
  || (ch =? "+")%char || (ch =? "-")%char.

(** ** Predicates on member functions *)

(** A member function is [orderly] when, started inside the text, it
    leaves a trail, whatever its outcome. *)
Definition orderly (expr : string) {A} (m : M A) : Prop :=
  forall c, pos c <= size expr -> trail expr c (snd (m c)).

(** A member function [advances] when, started inside the text, it
    can only succeed further on in the text. *)
Definition advances (expr : string) {A} (m : M A) : Prop :=
  forall c a c', pos c <= size expr -> m c = (Ok a, c') -> pos c < pos c'.

(** [m] does not run out of fuel when started with at most [r]
    characters left. *)
Definition safe_at (expr : string) (r : nat) {A} (m : M A) : Prop :=
  forall c, pos c <= size expr -> size expr - pos c <= r ->
            fst (m c) <> OutOfFuel.

(** The loop condition of [skipSpaces]. *)
Definition on_space (expr : string) (c : cursor) : bool :=
  (pos c <? size expr)%nat && isspace (at_ expr (pos c)).

(** ** What a failure says about the text *)

(** The text has the character [ch] somewhere. *)
Definition contains (expr : string) (ch : ascii) : Prop :=
  exists p, p < size expr /\ at_ expr p = ch.

(** The characters on which [parseFactor] does not fall through to an
    empty number: a sign, an opening parenthesis, a digit, a point. *)
Definition opens_factor (ch : ascii) : bool :=
  ((ch =? "+") || (ch =? "-") || (ch =? "("))%char
  || isdigit ch || (ch =? ".")%char.

(** The characters after which the loop of [parseTerm] goes on. *)
Definition continues_term (ch : ascii) : bool :=
  ((ch =? "*") || (ch =? "/") || (ch =? "%") || (ch =? "("))%char
  || isdigit ch || (ch =? ".")%char.

(** What the grammar guarantees when it fails: [ExpectedNumber] reports
    the offset the cursor stopped on, where no factor can start; the
    [std::invalid_argument] of [stod] comes with a point or an exponent
    marker in the text; the other exceptions and undefined behaviour
    have their operator in the text; [TrailingInput] is not thrown by
    the grammar. *)
Definition explained (expr : string) {A} (o : outcome A) (c : cursor) : Prop :=
  match o with
  | Throw (ExpectedNumber p) =>
      p = pos c /\ p <= size expr
      /\ (p < size expr ->
          isspace (at_ expr p) = false /\ opens_factor (at_ expr p) = false)
  | Throw (TrailingInput _) => False
  | Throw DivisionByZero => contains expr "/"
  | Throw ModuloByZero => contains expr "%"
  | Throw UnmatchedParenthesis => contains expr "("
  | Undefined => contains expr "%"
  | Throw StodInvalidArgument =>
      exists p, p < size expr
                /\ (at_ expr p = "."%char
                    \/ is_exponent_marker (at_ expr p) = true)
  | Throw StodOutOfRange | Ok _ | OutOfFuel => True
  end.

(** The operator a failure is about: the one whose operand was zero or
    out of range, or the parenthesis left open. *)
Definition blamed {A} (o : outcome A) : option ascii :=
  match o with
  | Throw DivisionByZero => Some "/"%char
  | Throw ModuloByZero | Undefined => Some "%"%char
  | Throw UnmatchedParenthesis => Some "("%char
  | _ => None
  end.

Definition accounted (expr : string) {A} (m : M A) : Prop :=
  forall c, pos c <= size expr -> explained expr (fst (m c)) (snd (m c)).

(** Where a production leaves the cursor when it succeeds: past the
    spaces, and not on something it would have consumed. *)
Definition after_power (expr : string) (c : cursor) : Prop :=
  on_space expr c = false
  /\ (pos c < size expr -> at_ expr (pos c) <> "^"%char)
  /\ ~ (S (pos c) < size expr /\ at_ expr (pos c) = "*"%char
        /\ at_ expr (S (pos c)) = "*"%char).

Definition after_term (expr : string) (c : cursor) : Prop :=
  on_space expr c = false
  /\ (pos c < size expr ->
      at_ expr (pos c) <> "^"%char /\ continues_term (at_ expr (pos c)) = false).

Definition after_expression (expr : string) (c : cursor) : Prop :=
  on_space expr c = false
  /\ (pos c < size expr ->
      at_ expr (pos c) <> "^"%char
      /\ continues_term (at_ expr (pos c)) = false
      /\ at_ expr (pos c) <> "+"%char /\ at_ expr (pos c) <> "-"%char).

(** A text with no exponent operator: no ['^'] and no two ['*'] side by
    side. *)
Definition no_exponent (expr : string) : Prop :=
  forall p, at_ expr p <> "^"%char
            /\ (at_ expr p = "*"%char -> at_ expr (S p) <> "*"%char).

(** [m'] does whatever [m] does when [m] has fuel enough. *)
Definition extends {A} (m m' : M A) : Prop :=
  forall c, fst (m c) <> OutOfFuel -> m' c = m c.

(** ** Two texts read side by side

    [link p p'] relates an offset in the text [s] to an offset in the
    text [s'], and [closing p'] holds of the offsets of [s'] where a
    [')'] stands that [s] lacks.  Two cursors are [linked] when their
    offsets are, and [synced] when moreover the second is at the end of
    its text, or on such a [')'], if the first is at the end of its
    text.  Two outcomes are the [same_outcome] when they are the same
    but for the offsets they report, which are linked; they are
    [related] when they are the same outcome, or the first is a failure
    and [s'] has a [')'] that [s] lacks. *)

Section Links.

Variables s s' : string.
Variable link : nat -> nat -> Prop.
Variable closing : nat -> Prop.

Definition linked (c c' : cursor) : Prop := link (pos c) (pos c').

Definition synced (c c' : cursor) : Prop :=
  link (pos c) (pos c')
  /\ (size s <= pos c -> size s' <= pos c' \/ closing (pos c')).

Definition related_exception (e e' : exception) : Prop :=
  match e, e' with
  | TrailingInput p, TrailingInput p' => link p p' /\ p < size s
  | ExpectedNumber p, ExpectedNumber p' =>
      link p p' /\ (size s <= p -> size s' <= p' \/ closing p')
  | DivisionByZero, DivisionByZero
  | ModuloByZero, ModuloByZero
  | UnmatchedParenthesis, UnmatchedParenthesis
  | StodInvalidArgument, StodInvalidArgument
  | StodOutOfRange, StodOutOfRange => True
  | _, _ => False
  end.

Definition same_outcome {A} (o o' : outcome A) : Prop :=
  match o, o' with
  | Ok a, Ok a' => a = a'
  | Throw e, Throw e' => related_exception e e'
  | Undefined, Undefined | OutOfFuel, OutOfFuel => True
  | _, _ => False
  end.

Definition related {A} (o o' : outcome A) : Prop :=
  same_outcome o o'
  \/ ((exists p', closing p') /\ forall a, o <> Ok a).

(** [m'] from [c'] in [s'] does what [m] does from [c] in [s]. *)
Definition simulates_at {A} (m m' : M A) (c c' : cursor) : Prop :=
  related (fst (m c)) (fst (m' c'))
  /\ (forall a, fst (m c) = Ok a -> linked (snd (m c)) (snd (m' c'))).

(** [m'] on [s'] does what [m] does on [s], from linked cursors. *)
Definition simulates {A} (m m' : M A) : Prop :=
  forall c c', linked c c' ->
    related (fst (m c)) (fst (m' c'))
    /\ (forall a, fst (m c) = Ok a -> linked (snd (m c)) (snd (m' c'))).

(** From [c] and [c'] to [c1] and [c1'] by the same number of
    characters, the same in both texts. *)
Definition in_step (c c' c1 c1' : cursor) : Prop :=
  exists d, pos c1 = pos c + d /\ pos c1' = pos c' + d
            /\ forall i, i < d ->
                  pos c + i < size s /\ pos c' + i < size s'
                  /\ at_ s' (pos c' + i) = at_ s (pos c + i).

End Links.

(** The offsets of [text] and of [sp ++ text] that are the same place
    of [text]. *)
Definition leading_link (sp : string) (p p' : nat) : Prop :=
  p' = size sp + p.

(** No offset holds a [')'] that the other text lacks. *)
Definition no_closing (p' : nat) : Prop := False.

(** The offsets of [text] and of [text ++ sp] that are the same place
    of [text], the end of [text] being also every place of [sp] and
    the end of [text ++ sp]. *)
Definition trailing_link (text sp : string) (p p' : nat) : Prop :=
  (p' = p /\ p <= size text)
  \/ (p = size text /\ size text <= p' <= size text + size sp).

(** An evaluation with the offsets it reports moved [k] characters to
    the right. *)
Definition shift_outcome (k : nat) (o : outcome float) : outcome float :=
  match o with
  | Throw (TrailingInput p) => Throw (TrailingInput (k + p))
  | Throw (ExpectedNumber p) => Throw (ExpectedNumber (k + p))
  | _ => o
  end.

(** An evaluation with the end of the text, when it is what
    [ExpectedNumber] reports, moved from [len] to [len + k]. *)
Definition extend_outcome (len k : nat) (o : outcome float) : outcome float :=
  match o with
  | Throw (ExpectedNumber p) =>
      Throw (ExpectedNumber (if (p =? len)%nat then len + k else p))
  | _ => o
  end.

(** * Properties *)

(** ** The monad *)

Section Facts.

Variable pow : float -> float -> float.
Variable expr : string.

Local Open Scope parser_scope.

Lemma bind_Ok {A B} (m : M A) (k : A -> M B) c a c' :
  m c = (Ok a, c') -> bind m k c = k a c'.
Proof. unfold bind; intros ->; reflexivity. Qed.

(** ** Trails compose, move forward and stay inside the text *)

Lemma trail_forward c0 c : trail expr c0 c -> pos c0 <= pos c.
Proof.
  induction 1; simpl; lia.
Qed.

Lemma trail_inside c0 c :
  trail expr c0 c -> pos c0 <= size expr -> pos c <= size expr.
Proof.
  induction 1; simpl; intros; lia.
Qed.

Lemma trail_trans c0 c1 c2 :
  trail expr c0 c1 -> trail expr c1 c2 -> trail expr c0 c2.
Proof.
  intros H01 H12; induction H12.
  - assumption.
  - now apply trail_increment.
  - now apply trail_assign.
  - apply trail_rollback; try assumption.
    apply trail_forward in H01; lia.
Qed.

Lemma trail_step c : pos c < size expr -> trail expr c (increment c).
Proof. intros; apply trail_increment; [apply trail_start | assumption]. Qed.

Lemma orderly_ret {A} (a : A) : orderly expr (ret a).
Proof. intros c _; apply trail_start. Qed.

Lemma orderly_lift {A} (o : outcome A) : orderly expr (lift o).
Proof. intros c _; apply trail_start. Qed.

Lemma orderly_throw {A} e : orderly expr (@throw A e).
Proof. intros c _; apply trail_start. Qed.

Lemma orderly_out_of_fuel {A} : orderly expr (@out_of_fuel A).
Proof. intros c _; apply trail_start. Qed.

Lemma orderly_bind {A B} (m : M A) (k : A -> M B) :
  orderly expr m -> (forall a, orderly expr (k a)) -> orderly expr (bind m k).
Proof.
  intros Hm Hk c Hc; unfold bind.
  specialize (Hm c Hc).
  destruct (m c) as [[a | e | | ] c'] eqn:E; simpl in Hm; try exact Hm.
  eapply trail_trans; [exact Hm |].
  apply Hk; eapply trail_inside; eassumption.
Qed.

(** ** Utilities *)

Lemma skipSpaces_loop_trail n c : trail expr c (skipSpaces_loop expr n c).
Proof.
  revert c; induction n as [| n IH]; intros c; simpl.
  - apply trail_start.
  - destruct (pos c <? size expr)%nat eqn:Hlt; simpl; [| apply trail_start].
    destruct (isspace (at_ expr (pos c))); [| apply trail_start].
    apply Nat.ltb_lt in Hlt.
    eapply trail_trans; [apply trail_step; assumption | apply IH].
Qed.

Lemma skipSpaces_trail c : trail expr c (skipSpaces expr c).
Proof. apply skipSpaces_loop_trail. Qed.

Lemma orderly_skip_then {A} (m : M A) :
  orderly expr m -> orderly expr (fun c => m (skipSpaces expr c)).
Proof.
  intros Hm c Hc.
  eapply trail_trans; [apply skipSpaces_trail |].
  apply Hm; eapply trail_inside; [apply skipSpaces_trail | assumption].
Qed.

Lemma orderly_match ch : orderly expr (match_ expr ch).
Proof.
  intros c _; unfold match_.
  destruct (pos (skipSpaces expr c) <? size expr)%nat eqn:Hlt; simpl;
    [| apply skipSpaces_trail].
  destruct (at_ expr (pos (skipSpaces expr c)) =? ch)%char; simpl;
    [| apply skipSpaces_trail].
  apply trail_increment; [apply skipSpaces_trail | now apply Nat.ltb_lt].
Qed.

Lemma matchStr_loop_bounds s start i j finished :
  matchStr_loop expr s start i = (j, finished) ->
  i <= j /\ (i < j -> start + j <= size expr).
Proof.
  revert i; induction s as [| ch s IH]; simpl; intros i H.
  - inversion H; subst; lia.
  - destruct (start + i <? size expr)%nat eqn:Hlt; simpl in H.
    + destruct (at_ expr (start + i) =? ch)%char.
      * apply IH in H. apply Nat.ltb_lt in Hlt.
        destruct H as [H1 H2]. split; [lia |]. intros _.
        destruct (Nat.eq_dec (S i) j); [subst; lia | apply H2; lia].
      * inversion H; subst; lia.
    + inversion H; subst; lia.
Qed.

Lemma orderly_matchStr s : orderly expr (matchStr expr s).
Proof.
  intros c Hc; unfold matchStr.
  destruct (matchStr_loop expr s (pos (skipSpaces expr c)) 0)
    as [i finished] eqn:E.
  destruct finished; simpl; [| apply skipSpaces_trail].
  apply trail_assign; [apply skipSpaces_trail |].
  apply matchStr_loop_bounds in E.
  pose proof (trail_inside _ _ (skipSpaces_trail c) Hc).
  destruct i; lia.
Qed.

Lemma orderly_peek : orderly expr (peek expr).
Proof. intros c _; apply skipSpaces_trail. Qed.

Lemma orderly_nextStartsFactor : orderly expr (nextStartsFactor expr).
Proof.
  apply orderly_bind; [apply orderly_peek | intros; apply orderly_ret].
Qed.

End Facts.

(** ** [parseNumber] leaves a trail *)

Section NumberTrail.

Variable expr : string.

Lemma mantissa_loop_trail n seenDigit seenDot c :
  trail expr c (snd (mantissa_loop expr n seenDigit seenDot c)).
Proof.
  revert seenDigit seenDot c; induction n as [| n IH]; intros sd sdot c; simpl.
  - apply trail_start.
  - destruct (pos c <? size expr)%nat eqn:Hlt; [| apply trail_start].
    apply Nat.ltb_lt in Hlt.
    destruct (isdigit (at_ expr (pos c))).
    + eapply trail_trans; [apply trail_step; assumption | apply IH].
    + destruct ((at_ expr (pos c) =? ".")%char && negb sdot);
        [| apply trail_start].
      eapply trail_trans; [apply trail_step; assumption | apply IH].
Qed.

Lemma exponent_loop_trail n expDigits c :
  trail expr c (snd (exponent_loop expr n expDigits c)).
Proof.
  revert expDigits c; induction n as [| n IH]; intros ed c; simpl.
  - apply trail_start.
  - destruct (pos c <? size expr)%nat eqn:Hlt; simpl; [| apply trail_start].
    apply Nat.ltb_lt in Hlt.
    destruct (isdigit (at_ expr (pos c))); [| apply trail_start].
    eapply trail_trans; [apply trail_step; assumption | apply IH].
Qed.

(** The loop over exponent digits reports a digit only if it moved. *)
Lemma exponent_loop_still n expDigits c :
  fst (exponent_loop expr n expDigits c) = false ->
  snd (exponent_loop expr n expDigits c) = c.
Proof.
  revert expDigits c; induction n as [| n IH]; intros ed c; simpl.
  - reflexivity.
  - destruct ((pos c <? size expr)%nat && isdigit (at_ expr (pos c)));
      [| reflexivity].
    intros H. exfalso. revert H. clear.
    generalize (increment c) as c'. induction n as [| n IHn]; intros c'; simpl.
    + discriminate.
    + destruct ((pos c' <? size expr)%nat && isdigit (at_ expr (pos c')));
        [apply IHn | discriminate].
Qed.

Lemma exponent_suffix_trail c : trail expr c (exponent_suffix expr c).
Proof.
  unfold exponent_suffix.
  destruct (pos c <? size expr)%nat eqn:Hlt; simpl; [| apply trail_start].
  apply Nat.ltb_lt in Hlt.
  destruct (is_exponent_marker (at_ expr (pos c))) eqn:He;
    unfold is_exponent_marker in He; rewrite He; [| apply trail_start].
  match goal with
  | |- context [exponent_loop expr _ false ?c'] => set (c1 := c')
  end.
  assert (H1 : trail expr c c1 /\ pos c < pos c1 <= pos c + 2).
  { subst c1. simpl.
    destruct (S (pos c) <? size expr)%nat eqn:Hlt2; simpl.
    - apply Nat.ltb_lt in Hlt2.
      destruct ((at_ expr (S (pos c)) =? "+")%char
                || (at_ expr (S (pos c)) =? "-")%char); simpl.
      + split; [| lia].
        apply trail_increment; [now apply trail_step | exact Hlt2].
      + split; [now apply trail_step | lia].
    - split; [now apply trail_step | lia]. }
  destruct H1 as [Ht Hp].
  pose proof (exponent_loop_trail (size expr - pos c1) false c1) as Hloop.
  pose proof (exponent_loop_still (size expr - pos c1) false c1) as Hstill.
  destruct (exponent_loop expr (size expr - pos c1) false c1)
    as [expDigits c2]; simpl in *.
  destruct expDigits; simpl.
  - eapply trail_trans; eassumption.
  - rewrite (Hstill eq_refl).
    apply trail_rollback; try assumption; lia.
Qed.

Lemma orderly_parseNumber : orderly expr (parseNumber expr).
Proof.
  intros c _; unfold parseNumber.
  pose proof (mantissa_loop_trail
                (size expr - pos (skipSpaces expr c)) false false
                (skipSpaces expr c)) as Hm.
  destruct (mantissa_loop expr _ false false (skipSpaces expr c))
    as [[seenDigit seenDot] c1]; simpl in Hm.
  assert (Ht : trail expr c (exponent_suffix expr c1)).
  { eapply trail_trans; [apply skipSpaces_trail |].
    eapply trail_trans; [exact Hm | apply exponent_suffix_trail]. }
  destruct (negb seenDigit
            && negb (pos (skipSpaces expr c) <? pos (exponent_suffix expr c1))%nat);
    exact Ht.
Qed.

End NumberTrail.

(** ** The grammar leaves a trail *)

Section GrammarTrail.

Variable pow : float -> float -> float.
Variable expr : string.

Local Open Scope parser_scope.

Lemma parseExpression_S fuel :
  parseExpression pow expr (S fuel) =
  (val <- parseTerm pow expr fuel ;; parseExpression_loop pow expr fuel val).
Proof. reflexivity. Qed.

Lemma parseExpression_loop_S fuel val :
  parseExpression_loop pow expr (S fuel) val =
  (plus <- match_ expr "+" ;;
   if plus then
     t <- parseTerm pow expr fuel ;;
     parseExpression_loop pow expr fuel (val + t)%float
   else
     minus <- match_ expr "-" ;;
     if minus then
       t <- parseTerm pow expr fuel ;;
       parseExpression_loop pow expr fuel (val - t)%float
     else ret val).
Proof. reflexivity. Qed.

Lemma parseTerm_S fuel :
  parseTerm pow expr (S fuel) =
  (val <- parsePower pow expr fuel ;; parseTerm_loop pow expr fuel val).
Proof. reflexivity. Qed.

Lemma parseTerm_loop_S fuel val :
  parseTerm_loop pow expr (S fuel) val =
  (star <- match_ expr "*" ;;
   if star then
     r <- parsePower pow expr fuel ;;
     parseTerm_loop pow expr fuel (val * r)%float
   else
     slash <- match_ expr "/" ;;
     if slash then
       d <- parsePower pow expr fuel ;;
       val' <- lift (divide val d) ;;
       parseTerm_loop pow expr fuel val'
     else
       percent <- match_ expr "%" ;;
       if percent then
         rhs <- parsePower pow expr fuel ;;
         val' <- lift (modulo val rhs) ;;
         parseTerm_loop pow expr fuel val'
       else
         implicit <- nextStartsFactor expr ;;
         if implicit then
           r <- parsePower pow expr fuel ;;
           parseTerm_loop pow expr fuel (val * r)%float
         else ret val).
Proof. reflexivity. Qed.

Lemma parsePower_S fuel :
  parsePower pow expr (S fuel) =
  (base <- parseFactor pow expr fuel ;;
   starstar <- matchStr expr "**" ;;
   caret <- (if starstar then ret true else match_ expr "^") ;;
   if caret then
     exp <- parsePower pow expr fuel ;;
     ret (pow base exp)
   else ret base).
Proof. reflexivity. Qed.

Lemma parseFactor_S fuel c :
  parseFactor pow expr (S fuel) c =
  (plus <- match_ expr "+" ;;
   if plus then parseFactor pow expr fuel
   else
     minus <- match_ expr "-" ;;
     if minus then
       v <- parseFactor pow expr fuel ;;
       ret (- v)%float
     else
       paren <- match_ expr "(" ;;
       if paren then
         v <- parseExpression pow expr fuel ;;
         close <- match_ expr ")" ;;
         if close then ret v else throw UnmatchedParenthesis
       else parseNumber expr) (skipSpaces expr c).
Proof. reflexivity. Qed.

Ltac orderly_steps :=
  repeat first
    [ assumption
    | apply orderly_ret
    | apply orderly_throw
    | apply orderly_lift
    | apply orderly_match
    | apply orderly_matchStr
    | apply orderly_nextStartsFactor
    | apply orderly_parseNumber
    | apply orderly_bind
    | match goal with
      | |- forall _ : bool, _ => intros []
      | |- forall _ : float, _ => intro
      | |- orderly _ (if ?b then _ else _) => destruct b
      end ].

Lemma orderly_grammar fuel :
  orderly expr (parseExpression pow expr fuel)
  /\ (forall val, orderly expr (parseExpression_loop pow expr fuel val))
  /\ orderly expr (parseTerm pow expr fuel)
  /\ (forall val, orderly expr (parseTerm_loop pow expr fuel val))
  /\ orderly expr (parsePower pow expr fuel)
  /\ orderly expr (parseFactor pow expr fuel).
Proof.
  induction fuel as [| fuel (HE & HEL & HT & HTL & HP & HF)].
  - repeat split; intros; apply orderly_out_of_fuel.
  - repeat split; intros.
    + rewrite parseExpression_S; orderly_steps.
    + rewrite parseExpression_loop_S; orderly_steps; apply HEL.
    + rewrite parseTerm_S; orderly_steps.
    + rewrite parseTerm_loop_S; orderly_steps; apply HTL.
    + rewrite parsePower_S; orderly_steps.
    + intros c Hc. rewrite parseFactor_S.
      revert c Hc. apply orderly_skip_then. orderly_steps.
Qed.

Lemma orderly_parse fuel : orderly expr (parse pow expr fuel).
Proof.
  unfold parse. apply orderly_bind; [apply orderly_grammar |].
  intros v c _.
  destruct (negb (pos (skipSpaces expr c) =? size expr)%nat);
    apply skipSpaces_trail.
Qed.

End GrammarTrail.

(** ** Progress: a production that succeeds has consumed a character *)

Section Progress.

Variable pow : float -> float -> float.
Variable expr : string.

Local Open Scope parser_scope.

Lemma bind_Ok_inv {A B} (m : M A) (k : A -> M B) c b c' :
  bind m k c = (Ok b, c') ->
  exists a c1, m c = (Ok a, c1) /\ k a c1 = (Ok b, c').
Proof.
  unfold bind. destruct (m c) as [[a | e | | ] c1]; try discriminate.
  intros H; exists a, c1; split; [reflexivity | exact H].
Qed.

Lemma run_forward {A} (m : M A) c o c' :
  orderly expr m -> pos c <= size expr -> m c = (o, c') ->
  pos c <= pos c' <= size expr.
Proof.
  intros Hm Hc E. specialize (Hm c Hc). rewrite E in Hm; simpl in Hm.
  split; [eapply trail_forward | eapply trail_inside]; eassumption.
Qed.

Lemma advances_bind_left {A B} (m : M A) (k : A -> M B) :
  advances expr m -> orderly expr m -> (forall a, orderly expr (k a)) ->
  advances expr (bind m k).
Proof.
  intros Hm Om Hk c b c' Hc E.
  apply bind_Ok_inv in E. destruct E as (a & c1 & E1 & E2).
  pose proof (Hm _ _ _ Hc E1).
  pose proof (run_forward _ _ _ _ Om Hc E1).
  pose proof (run_forward _ _ _ _ (Hk a) (proj2 H0) E2). lia.
Qed.

Lemma match_inv ch c b c' :
  match_ expr ch c = (Ok b, c') ->
  (b = true /\ c' = increment (skipSpaces expr c)
   /\ pos (skipSpaces expr c) < size expr
   /\ at_ expr (pos (skipSpaces expr c)) = ch)
  \/ (b = false /\ c' = skipSpaces expr c).
Proof.
  unfold match_.
  destruct (pos (skipSpaces expr c) <? size expr)%nat eqn:Hlt; simpl.
  - destruct (at_ expr (pos (skipSpaces expr c)) =? ch)%char eqn:Hch;
      intros H; inversion H; subst; [left | right; auto].
    apply Nat.ltb_lt in Hlt. apply Ascii.eqb_eq in Hch. auto.
  - intros H; inversion H; subst; right; auto.
Qed.

Lemma advances_match_bind {B} ch (k : bool -> M B) :
  orderly expr (k true) -> advances expr (k false) ->
  advances expr (bind (match_ expr ch) k).
Proof.
  intros Ht Hf c b c' Hc E.
  apply bind_Ok_inv in E. destruct E as (a & c1 & E1 & E2).
  pose proof (trail_forward _ _ _ (skipSpaces_trail expr c)) as Hs.
  pose proof (trail_inside _ _ _ (skipSpaces_trail expr c) Hc) as Hi.
  apply match_inv in E1. destruct E1 as [(-> & -> & Hlt & _) | (-> & ->)].
  - assert (Hinc : pos (increment (skipSpaces expr c)) <= size expr)
      by (simpl; lia).
    pose proof (run_forward _ _ _ _ Ht Hinc E2). simpl in *. lia.
  - pose proof (Hf _ _ _ Hi E2). lia.
Qed.

Lemma advances_skip_then {A} (m : M A) :
  advances expr m -> advances expr (fun c => m (skipSpaces expr c)).
Proof.
  intros Hm c a c' Hc E.
  pose proof (trail_forward _ _ _ (skipSpaces_trail expr c)) as Hs.
  pose proof (trail_inside _ _ _ (skipSpaces_trail expr c) Hc) as Hi.
  pose proof (Hm _ _ _ Hi E). lia.
Qed.

(** [seenDigit] is set only by consuming a digit. *)
Lemma mantissa_loop_seen n seenDigit seenDot c :
  fst (fst (mantissa_loop expr n seenDigit seenDot c)) = true ->
  seenDigit = true
  \/ pos c < pos (snd (mantissa_loop expr n seenDigit seenDot c)).
Proof.
  revert seenDigit seenDot c; induction n as [| n IH]; intros sd sdot c; simpl.
  - auto.
  - destruct (pos c <? size expr)%nat; [| auto].
    destruct (isdigit (at_ expr (pos c))).
    + intros _. right.
      pose proof (trail_forward _ _ _
                    (mantissa_loop_trail expr n true sdot (increment c))).
      simpl in *. lia.
    + destruct ((at_ expr (pos c) =? ".")%char && negb sdot); [| auto].
      intros H. apply IH in H. destruct H as [H | H]; [auto | right].
      simpl in H. lia.
Qed.

Lemma advances_parseNumber : advances expr (parseNumber expr).
Proof.
  intros c v c' Hc. unfold parseNumber.
  pose proof (trail_forward _ _ _ (skipSpaces_trail expr c)) as Hs.
  set (c0 := skipSpaces expr c) in *.
  pose proof (mantissa_loop_trail expr (size expr - pos c0) false false c0)
    as Hm.
  pose proof (mantissa_loop_seen (size expr - pos c0) false false c0) as Hd.
  destruct (mantissa_loop expr (size expr - pos c0) false false c0)
    as [[seenDigit seenDot] c1]; simpl in Hm, Hd.
  apply trail_forward in Hm.
  pose proof (trail_forward _ _ _ (exponent_suffix_trail expr c1)) as He.
  destruct (pos c0 <? pos (exponent_suffix expr c1))%nat eqn:Hlt.
  - apply Nat.ltb_lt in Hlt.
    rewrite andb_false_r. intros H; inversion H; subst. lia.
  - destruct seenDigit; simpl; [| discriminate].
    intros H; inversion H; subst.
    destruct (Hd eq_refl); [discriminate | lia].
Qed.

Lemma advances_parseFactor fuel : advances expr (parseFactor pow expr fuel).
Proof.
  destruct fuel as [| fuel]; [intros c a c' _; discriminate |].
  destruct (orderly_grammar pow expr fuel) as (HE & _ & _ & _ & _ & HF).
  intros c a c' Hc. rewrite parseFactor_S. revert c a c' Hc.
  apply advances_skip_then.
  apply advances_match_bind; [exact HF |].
  apply advances_match_bind.
  { apply orderly_bind; [exact HF | intros; apply orderly_ret]. }
  apply advances_match_bind; [| apply advances_parseNumber].
  apply orderly_bind; [exact HE | intros v].
  apply orderly_bind; [apply orderly_match |].
  intros []; [apply orderly_ret | apply orderly_throw].
Qed.

Lemma advances_parsePower fuel : advances expr (parsePower pow expr fuel).
Proof.
  destruct fuel as [| fuel]; [intros c a c' _; discriminate |].
  destruct (orderly_grammar pow expr fuel) as (_ & _ & _ & _ & HP & HF).
  rewrite parsePower_S.
  apply advances_bind_left; [apply advances_parseFactor | exact HF |].
  intros base.
  apply orderly_bind; [apply orderly_matchStr | intros starstar].
  apply orderly_bind.
  { destruct starstar; [apply orderly_ret | apply orderly_match]. }
  intros []; [| apply orderly_ret].
  apply orderly_bind; [exact HP | intros; apply orderly_ret].
Qed.

Lemma advances_parseTerm fuel : advances expr (parseTerm pow expr fuel).
Proof.
  destruct fuel as [| fuel]; [intros c a c' _; discriminate |].
  destruct (orderly_grammar pow expr fuel) as (_ & _ & _ & HTL & HP & _).
  rewrite parseTerm_S.
  apply advances_bind_left; [apply advances_parsePower | exact HP | exact HTL].
Qed.

Lemma advances_parseExpression fuel :
  advances expr (parseExpression pow expr fuel).
Proof.
  destruct fuel as [| fuel]; [intros c a c' _; discriminate |].
  destruct (orderly_grammar pow expr fuel) as (_ & HEL & HT & _ & _ & _).
  rewrite parseExpression_S.
  apply advances_bind_left; [apply advances_parseTerm | exact HT | exact HEL].
Qed.

End Progress.

(** ** The recursion budget is never exhausted *)

Section Fuel.

Variable pow : float -> float -> float.
Variable expr : string.

Local Open Scope parser_scope.

Lemma safe_ret r {A} (a : A) : safe_at expr r (ret a).
Proof. intros c _ _; discriminate. Qed.

Lemma safe_throw r {A} e : safe_at expr r (@throw A e).
Proof. intros c _ _; discriminate. Qed.

Lemma safe_match r ch : safe_at expr r (match_ expr ch).
Proof.
  intros c _ _; unfold match_.
  destruct (_ && _); discriminate.
Qed.

Lemma safe_matchStr r s : safe_at expr r (matchStr expr s).
Proof.
  intros c _ _; unfold matchStr.
  destruct (matchStr_loop expr s _ 0) as [i []]; discriminate.
Qed.

Lemma safe_nextStartsFactor r : safe_at expr r (nextStartsFactor expr).
Proof. intros c _ _; discriminate. Qed.

Lemma divide_fuel val d : divide val d <> OutOfFuel.
Proof. unfold divide; destruct (d =? 0)%float; discriminate. Qed.

Lemma modulo_fuel val rhs : modulo val rhs <> OutOfFuel.
Proof.
  unfold modulo.
  destruct (to_long_long val) as [a |]; [| discriminate].
  destruct (to_long_long rhs) as [b |]; [| discriminate].
  destruct (b =? 0)%Z; [discriminate |].
  destruct ((a =? LLONG_MIN)%Z && (b =? -1)%Z); discriminate.
Qed.

Lemma stod_fuel str : stod str <> OutOfFuel.
Proof.
  unfold stod.
  destruct (read_digits str 0 0) as [[m1 n1] rest].
  destruct (match rest with
            | String "." t => read_digits t m1 0
            | _ => (m1, 0, rest)
            end) as [[m n2] rest'].
  destruct (n1 + n2 =? 0)%nat; [discriminate |].
  generalize (round_decimal m (read_exponent rest' - Z.of_nat n2)).
  intros [s | s | | s m2 e2]; try discriminate.
  - destruct (m =? 0)%Z; discriminate.
  - destruct (_ && _); discriminate.
Qed.

Lemma safe_parseNumber r : safe_at expr r (parseNumber expr).
Proof.
  intros c _ _; unfold parseNumber.
  destruct (mantissa_loop expr _ false false _) as [[sd sdot] c1].
  destruct (_ && _); [discriminate | apply stod_fuel].
Qed.

Lemma safe_bind r {A B} (m : M A) (k : A -> M B) :
  safe_at expr r m -> orderly expr m -> (forall a, safe_at expr r (k a)) ->
  safe_at expr r (bind m k).
Proof.
  intros Sm Om Sk c Hc Hr. unfold bind.
  specialize (Sm c Hc Hr).
  destruct (m c) as [[a | e | | ] c1] eqn:E; simpl in *;
    try discriminate; try congruence.
  pose proof (run_forward expr _ _ _ _ Om Hc E).
  apply Sk; lia.
Qed.

Lemma safe_bind_advances r {A B} (m : M A) (k : A -> M B) :
  safe_at expr r m -> orderly expr m -> advances expr m ->
  (forall r' a, r' < r -> safe_at expr r' (k a)) ->
  safe_at expr r (bind m k).
Proof.
  intros Sm Om Am Sk c Hc Hr. unfold bind.
  specialize (Sm c Hc Hr).
  destruct (m c) as [[a | e | | ] c1] eqn:E; simpl in *;
    try discriminate; try congruence.
  pose proof (run_forward expr _ _ _ _ Om Hc E).
  pose proof (Am _ _ _ Hc E).
  apply (Sk (size expr - pos c1)); lia.
Qed.

Lemma safe_match_bind r {B} ch (k : bool -> M B) :
  (forall r', r' < r -> safe_at expr r' (k true)) -> safe_at expr r (k false) ->
  safe_at expr r (bind (match_ expr ch) k).
Proof.
  intros St Sf c Hc Hr. unfold bind.
  pose proof (trail_forward _ _ _ (skipSpaces_trail expr c)) as Hs.
  pose proof (trail_inside _ _ _ (skipSpaces_trail expr c) Hc) as Hi.
  destruct (match_ expr ch c) as [[b | e | | ] c1] eqn:E;
    try (unfold match_ in E; destruct (_ && _) in E; discriminate).
  apply match_inv in E. destruct E as [(-> & -> & Hlt & _) | (-> & ->)].
  - apply (St (size expr - S (pos (skipSpaces expr c)))); simpl; lia.
  - apply Sf; lia.
Qed.

Lemma safe_skip_then r {A} (m : M A) :
  safe_at expr r m -> safe_at expr r (fun c => m (skipSpaces expr c)).
Proof.
  intros Sm c Hc Hr.
  pose proof (trail_forward _ _ _ (skipSpaces_trail expr c)) as Hs.
  pose proof (trail_inside _ _ _ (skipSpaces_trail expr c) Hc) as Hi.
  apply Sm; lia.
Qed.

Lemma safe_lift r {A} (o : outcome A) : o <> OutOfFuel -> safe_at expr r (lift o).
Proof. intros H c _ _; exact H. Qed.

Lemma safe_grammar fuel :
  forall r,
    (4 * r + 4 <= fuel -> safe_at expr r (parseExpression pow expr fuel))
    /\ (4 * r + 4 <= fuel ->
        forall val, safe_at expr r (parseExpression_loop pow expr fuel val))
    /\ (4 * r + 3 <= fuel -> safe_at expr r (parseTerm pow expr fuel))
    /\ (4 * r + 3 <= fuel ->
        forall val, safe_at expr r (parseTerm_loop pow expr fuel val))
    /\ (4 * r + 2 <= fuel -> safe_at expr r (parsePower pow expr fuel))
    /\ (4 * r + 1 <= fuel -> safe_at expr r (parseFactor pow expr fuel)).
Proof.
  induction fuel as [| fuel IH]; intros r.
  - repeat split; intros; lia.
  - destruct (orderly_grammar pow expr fuel)
      as (OE & OEL & OT & OTL & OP & OF).
    assert (SE : forall r', 4 * r' + 4 <= fuel ->
                            safe_at expr r' (parseExpression pow expr fuel))
      by (intros r'; apply (IH r')).
    assert (SEL : forall r', 4 * r' + 4 <= fuel -> forall val,
                    safe_at expr r' (parseExpression_loop pow expr fuel val))
      by (intros r'; apply (IH r')).
    assert (ST : forall r', 4 * r' + 3 <= fuel ->
                            safe_at expr r' (parseTerm pow expr fuel))
      by (intros r'; apply (IH r')).
    assert (STL : forall r', 4 * r' + 3 <= fuel -> forall val,
                    safe_at expr r' (parseTerm_loop pow expr fuel val))
      by (intros r'; apply (IH r')).
    assert (SP : forall r', 4 * r' + 2 <= fuel ->
                            safe_at expr r' (parsePower pow expr fuel))
      by (intros r'; apply (IH r')).
    assert (SF : forall r', 4 * r' + 1 <= fuel ->
                            safe_at expr r' (parseFactor pow expr fuel))
      by (intros r'; apply (IH r')).
    clear IH.
    repeat split; intros Hfuel.
    + rewrite parseExpression_S.
      apply safe_bind_advances;
        [apply ST; lia | exact OT | apply advances_parseTerm |].
      intros r' val Hr'. apply SEL; lia.
    + intros val. rewrite parseExpression_loop_S.
      apply safe_match_bind.
      { intros r' Hr'.
        apply safe_bind_advances;
          [apply ST; lia | exact OT | apply advances_parseTerm |].
        intros r'' t Hr''. apply SEL; lia. }
      apply safe_match_bind; [| apply safe_ret].
      intros r' Hr'.
      apply safe_bind_advances;
        [apply ST; lia | exact OT | apply advances_parseTerm |].
      intros r'' t Hr''. apply SEL; lia.
    + rewrite parseTerm_S.
      apply safe_bind_advances;
        [apply SP; lia | exact OP | apply advances_parsePower |].
      intros r' val Hr'. apply STL; lia.
    + intros val. rewrite parseTerm_loop_S.
      apply safe_match_bind.
      { intros r' Hr'.
        apply safe_bind_advances;
          [apply SP; lia | exact OP | apply advances_parsePower |].
        intros r'' t Hr''. apply STL; lia. }
      apply safe_match_bind.
      { intros r' Hr'.
        apply safe_bind_advances;
          [apply SP; lia | exact OP | apply advances_parsePower |].
        intros r'' d Hr''.
        apply safe_bind;
          [apply safe_lift, divide_fuel | apply orderly_lift |].
        intros val'. apply STL; lia. }
      apply safe_match_bind.
      { intros r' Hr'.
        apply safe_bind_advances;
          [apply SP; lia | exact OP | apply advances_parsePower |].
        intros r'' d Hr''.
        apply safe_bind;
          [apply safe_lift, modulo_fuel | apply orderly_lift |].
        intros val'. apply STL; lia. }
      apply safe_bind;
        [apply safe_nextStartsFactor | apply orderly_nextStartsFactor |].
      intros []; [| apply safe_ret].
      apply safe_bind_advances;
        [apply SP; lia | exact OP | apply advances_parsePower |].
      intros r'' t Hr''. apply STL; lia.
    + rewrite parsePower_S.
      apply safe_bind_advances;
        [apply SF; lia | exact OF | apply advances_parseFactor |].
      intros r' base Hr'.
      apply safe_bind; [apply safe_matchStr | apply orderly_matchStr |].
      intros starstar.
      apply safe_bind.
      { destruct starstar; [apply safe_ret | apply safe_match]. }
      { destruct starstar; [apply orderly_ret | apply orderly_match]. }
      intros []; [| apply safe_ret].
      apply safe_bind; [apply SP; lia | exact OP |].
      intros; apply safe_ret.
    + intros c Hc Hr. rewrite parseFactor_S. revert c Hc Hr.
      apply safe_skip_then.
      apply safe_match_bind; [intros r' Hr'; apply SF; lia |].
      apply safe_match_bind.
      { intros r' Hr'.
        apply safe_bind; [apply SF; lia | exact OF |].
        intros; apply safe_ret. }
      apply safe_match_bind; [| apply safe_parseNumber].
      intros r' Hr'.
      apply safe_bind; [apply SE; lia | exact OE |].
      intros v.
      apply safe_bind; [apply safe_match | apply orderly_match |].
      intros []; [apply safe_ret | apply safe_throw].
Qed.

End Fuel.

(** [evaluate] is total: its budget always suffices, on every text. *)
Theorem fuel_suffices pow text : evaluate pow text <> OutOfFuel.
Proof.
  unfold evaluate, run, parse, budget.
  assert (Hsafe : safe_at text (String.length text)
                    (parseExpression pow text (4 * String.length text + 4)))
    by (apply safe_grammar; lia).
  specialize (Hsafe fresh). unfold bind.
  destruct (parseExpression pow text _ fresh) as [[v | e | | ] c] eqn:E;
    cbn [fst]; try discriminate.
  - destruct (negb (pos (skipSpaces text c) =? size text)%nat); discriminate.
  - exfalso. apply Hsafe; cbn [pos fresh fst]; unfold size;
      [lia | lia | reflexivity].
Qed.

(** ** Tokens: what [match], [peek] and [nextStartsFactor] return *)

Section Tokens.

Variable expr : string.

Local Open Scope parser_scope.

Lemma skipSpaces_loop_exit n c :
  size expr - pos c <= n -> on_space expr (skipSpaces_loop expr n c) = false.
Proof.
  revert c; induction n as [| n IH]; intros c Hn; simpl.
  - unfold on_space. replace (pos c <? size expr)%nat with false; [reflexivity |].
    symmetry; apply Nat.ltb_ge; lia.
  - fold (on_space expr c). destruct (on_space expr c) eqn:E; [| exact E].
    apply IH. simpl. lia.
Qed.

(** [skipSpaces] stops on the end of the text or on a character that is
    not a space: its bound on the number of iterations is never what
    ends the loop. *)
Lemma skipSpaces_exit c : on_space expr (skipSpaces expr c) = false.
Proof. apply skipSpaces_loop_exit; lia. Qed.

Lemma skipSpaces_fixed c : on_space expr c = false -> skipSpaces expr c = c.
Proof.
  unfold skipSpaces, on_space. intros H.
  destruct (size expr - pos c); simpl; [reflexivity | now rewrite H].
Qed.

Lemma skipSpaces_idem c :
  skipSpaces expr (skipSpaces expr c) = skipSpaces expr c.
Proof. apply skipSpaces_fixed, skipSpaces_exit. Qed.

Lemma match_hit ch c :
  pos (skipSpaces expr c) < size expr ->
  at_ expr (pos (skipSpaces expr c)) = ch ->
  match_ expr ch c = (Ok true, increment (skipSpaces expr c)).
Proof.
  intros Hlt Hch; unfold match_.
  apply Nat.ltb_lt in Hlt; rewrite Hlt, Hch, Ascii.eqb_refl; reflexivity.
Qed.

Lemma match_miss ch c :
  at_ expr (pos (skipSpaces expr c)) <> ch ->
  match_ expr ch c = (Ok false, skipSpaces expr c).
Proof.
  intros Hch; unfold match_.
  apply Ascii.eqb_neq in Hch; rewrite Hch, andb_false_r; reflexivity.
Qed.

Lemma match_end ch c :
  size expr <= pos (skipSpaces expr c) ->
  match_ expr ch c = (Ok false, skipSpaces expr c).
Proof.
  intros Hge; unfold match_.
  apply Nat.ltb_ge in Hge; rewrite Hge; reflexivity.
Qed.

Lemma peek_inside c :
  pos (skipSpaces expr c) < size expr ->
  peek expr c = (Ok (at_ expr (pos (skipSpaces expr c))), skipSpaces expr c).
Proof.
  intros Hlt; unfold peek. apply Nat.ltb_lt in Hlt; rewrite Hlt; reflexivity.
Qed.

Lemma nextStartsFactor_inside c :
  pos (skipSpaces expr c) < size expr ->
  nextStartsFactor expr c =
  (Ok (let ch := at_ expr (pos (skipSpaces expr c)) in
       (ch =? "(")%char || isdigit ch || (ch =? ".")%char),
   skipSpaces expr c).
Proof.
  intros Hlt; unfold nextStartsFactor, bind. rewrite (peek_inside _ Hlt).
  reflexivity.
Qed.

(** A digit is none of the operator characters. *)
Lemma isdigit_not_operator ch :
  isdigit ch = true ->
  ch <> "*"%char /\ ch <> "/"%char /\ ch <> "%"%char
  /\ ch <> "+"%char /\ ch <> "-"%char.
Proof.
  intros H; repeat split; intros ->; discriminate H.
Qed.

End Tokens.

(** ** Unary operators and powers *)

Section Unary.

Variable pow : float -> float -> float.
Variable expr : string.

Local Open Scope parser_scope.

(** On a ['-'], [parseFactor] consumes it, parses the factor that
    follows and negates its value. *)
Lemma parseFactor_minus fuel c :
  pos (skipSpaces expr c) < size expr ->
  at_ expr (pos (skipSpaces expr c)) = "-"%char ->
  parseFactor pow expr (S fuel) c =
  (v <- parseFactor pow expr fuel ;; ret (- v)%float)
    (increment (skipSpaces expr c)).
Proof.
  intros Hlt Hch. rewrite parseFactor_S.
  rewrite (bind_Ok _ _ _ false (skipSpaces expr c)).
  2:{ rewrite <- (skipSpaces_idem expr c) at 2. apply match_miss.
      rewrite skipSpaces_idem, Hch. discriminate. }
  rewrite (bind_Ok _ _ _ true (increment (skipSpaces expr c))).
  2:{ rewrite <- (skipSpaces_idem expr c) at 2.
      apply match_hit; rewrite skipSpaces_idem; assumption. }
  reflexivity.
Qed.

End Unary.

(** C1. Unary minus is consumed inside the factor that is the base of a
    power.  On any text, when [parsePower] meets a ['-'] followed by a
    factor of value [v], what it then raises to the exponent is [- v];
    so, with a [pow] for which [pow(-2, 2)] is [4], [evaluate("-2^2")]
    is [4], the square of [-2], and not [-4]. *)
Theorem unary_minus_is_part_of_the_base
  (pow : float -> float -> float) (Hpow : pow (-2)%float 2%float = 4%float) :
  evaluate pow "-2^2" = Ok 4%float
  /\ evaluate pow "-2^2" <> Ok (-4)%float
  /\ forall expr fuel c v c1,
       pos (skipSpaces expr c) < size expr ->
       at_ expr (pos (skipSpaces expr c)) = "-"%char ->
       parseFactor pow expr fuel (increment (skipSpaces expr c)) = (Ok v, c1) ->
       parsePower pow expr (S (S fuel)) c =
       (starstar <- matchStr expr "**" ;;
        caret <- (if starstar then ret true else match_ expr "^") ;;
        if caret then
          exp <- parsePower pow expr (S fuel) ;;
          ret (pow (- v)%float exp)
        else ret (- v)%float)%parser c1.
Proof.
  assert (E : evaluate pow "-2^2" = Ok (pow (-2)%float 2%float))
    by (vm_compute; reflexivity).
  rewrite E, Hpow. split; [reflexivity | split].
  - intros H. apply (f_equal (fun o => match o with
                                       | Ok x => (0 <? x)%float
                                       | _ => false
                                       end)) in H.
    vm_compute in H. discriminate H.
  - intros expr fuel c v c1 Hlt Hch Hv.
    rewrite parsePower_S.
    rewrite (bind_Ok _ _ _ (- v)%float c1); [reflexivity |].
    rewrite parseFactor_minus by assumption.
    rewrite (bind_Ok _ _ _ v c1) by exact Hv. reflexivity.
Qed.

(** The hypothesis of C1 holds of the sample [pow]. *)
Lemma unary_minus_is_part_of_the_base_witness :
  evaluate sample_pow "-2^2" = Ok 4%float.
Proof.
  exact (proj1 (unary_minus_is_part_of_the_base sample_pow eq_refl)).
Defined.

(** ** The loop of [parseTerm] *)

Section Term.

Variable pow : float -> float -> float.
Variable expr : string.

Local Open Scope parser_scope.

(** [match] on a cursor that [skipSpaces] has already been through. *)
Lemma match_miss_here ch c :
  at_ expr (pos (skipSpaces expr c)) <> ch ->
  match_ expr ch (skipSpaces expr c) = (Ok false, skipSpaces expr c).
Proof.
  intros H. rewrite <- (skipSpaces_idem expr c) at 2.
  apply match_miss. now rewrite skipSpaces_idem.
Qed.

Lemma match_hit_here ch c :
  pos (skipSpaces expr c) < size expr ->
  at_ expr (pos (skipSpaces expr c)) = ch ->
  match_ expr ch (skipSpaces expr c) =
  (Ok true, increment (skipSpaces expr c)).
Proof.
  intros Hlt H. rewrite <- (skipSpaces_idem expr c) at 2.
  apply match_hit; now rewrite skipSpaces_idem.
Qed.

(** A character that opens a factor makes the loop multiply by the
    power that starts there. *)
Lemma parseTerm_loop_implicit fuel val c :
  let ch := at_ expr (pos (skipSpaces expr c)) in
  pos (skipSpaces expr c) < size expr ->
  ch = "("%char \/ isdigit ch = true \/ ch = "."%char ->
  parseTerm_loop pow expr (S fuel) val c =
  (r <- parsePower pow expr fuel ;;
   parseTerm_loop pow expr fuel (val * r)%float) (skipSpaces expr c).
Proof.
  intros ch Hlt Hch.
  assert (Hop : ch <> "*"%char /\ ch <> "/"%char /\ ch <> "%"%char).
  { destruct Hch as [-> | [Hd | ->]];
      [repeat split; discriminate
      | apply isdigit_not_operator in Hd; tauto
      | repeat split; discriminate]. }
  destruct Hop as (H1 & H2 & H3).
  rewrite parseTerm_loop_S.
  rewrite (bind_Ok _ _ _ false (skipSpaces expr c)) by now apply match_miss.
  rewrite (bind_Ok _ _ _ false (skipSpaces expr c))
    by now apply match_miss_here.
  rewrite (bind_Ok _ _ _ false (skipSpaces expr c))
    by now apply match_miss_here.
  rewrite (bind_Ok _ _ _ true (skipSpaces expr c)); [reflexivity |].
  rewrite <- (skipSpaces_idem expr c) at 2.
  rewrite nextStartsFactor_inside by now rewrite skipSpaces_idem.
  rewrite skipSpaces_idem. fold ch. cbv zeta.
  destruct Hch as [-> | [-> | ->]]; try reflexivity.
  now rewrite orb_true_r.
Qed.

(** A ['+'] or a ['-'] ends the loop, and leaves the sign unconsumed. *)
Lemma parseTerm_loop_additive fuel val c :
  let ch := at_ expr (pos (skipSpaces expr c)) in
  ch = "+"%char \/ ch = "-"%char ->
  parseTerm_loop pow expr (S fuel) val c = (Ok val, skipSpaces expr c).
Proof.
  intros ch Hch.
  assert (Hop : ch <> "*"%char /\ ch <> "/"%char /\ ch <> "%"%char)
    by (destruct Hch as [-> | ->]; repeat split; discriminate).
  destruct Hop as (H1 & H2 & H3).
  rewrite parseTerm_loop_S.
  rewrite (bind_Ok _ _ _ false (skipSpaces expr c)) by now apply match_miss.
  rewrite (bind_Ok _ _ _ false (skipSpaces expr c))
    by now apply match_miss_here.
  rewrite (bind_Ok _ _ _ false (skipSpaces expr c))
    by now apply match_miss_here.
  rewrite (bind_Ok _ _ _ false (skipSpaces expr c)); [reflexivity |].
  unfold nextStartsFactor, bind, peek, ret. rewrite skipSpaces_idem. fold ch.
  destruct (pos (skipSpaces expr c) <? size expr)%nat; [| reflexivity].
  destruct Hch as [-> | ->]; reflexivity.
Qed.

(** The loop of [parseExpression] then takes the sign as its operator. *)
Lemma parseExpression_loop_additive fuel val c :
  let ch := at_ expr (pos (skipSpaces expr c)) in
  pos (skipSpaces expr c) < size expr ->
  ch = "+"%char \/ ch = "-"%char ->
  parseExpression_loop pow expr (S fuel) val (skipSpaces expr c) =
  (t <- parseTerm pow expr fuel ;;
   parseExpression_loop pow expr fuel
     (if (ch =? "+")%char then val + t else val - t)%float)
    (increment (skipSpaces expr c)).
Proof.
  intros ch Hlt Hch. rewrite parseExpression_loop_S.
  destruct Hch as [H | H]; fold ch; rewrite H.
  - rewrite (bind_Ok _ _ _ true (increment (skipSpaces expr c)))
      by now apply match_hit_here.
    reflexivity.
  - rewrite (bind_Ok _ _ _ false (skipSpaces expr c))
      by (apply match_miss_here; fold ch; rewrite H; discriminate).
    rewrite (bind_Ok _ _ _ true (increment (skipSpaces expr c)))
      by now apply match_hit_here.
    reflexivity.
Qed.

End Term.

(** C2. Implicit multiplication.  In the loop of [parseTerm], when the
    next character after spaces is ['('], a digit or ['.'] (so none of
    ['*'], ['/'], ['%'] matched), the value is multiplied by the power
    parsed from there; when it is ['+'] or ['-'] the loop ends without
    consuming it and it becomes the additive operator of
    [parseExpression].  So [2(3+4)] is 14, [3.5(2)] is 7, [3 4] is 12,
    and [2 -3] is the subtraction [2 - 3]. *)
Theorem implicit_multiplication (pow : float -> float -> float) :
  evaluate pow "2(3+4)" = Ok 14%float
  /\ evaluate pow "3.5(2)" = Ok 7%float
  /\ evaluate pow "3 4" = Ok 12%float
  /\ evaluate pow "2 -3" = Ok (2 - 3)%float
  /\ (forall expr fuel val c,
        let ch := at_ expr (pos (skipSpaces expr c)) in
        pos (skipSpaces expr c) < size expr ->
        ch = "("%char \/ isdigit ch = true \/ ch = "."%char ->
        parseTerm_loop pow expr (S fuel) val c =
        (r <- parsePower pow expr fuel ;;
         parseTerm_loop pow expr fuel (val * r)%float)%parser
          (skipSpaces expr c))
  /\ (forall expr fuel fuel' val c,
        let ch := at_ expr (pos (skipSpaces expr c)) in
        pos (skipSpaces expr c) < size expr ->
        ch = "+"%char \/ ch = "-"%char ->
        parseTerm_loop pow expr (S fuel) val c = (Ok val, skipSpaces expr c)
        /\ parseExpression_loop pow expr (S fuel') val (skipSpaces expr c) =
           (t <- parseTerm pow expr fuel' ;;
            parseExpression_loop pow expr fuel'
              (if (ch =? "+")%char then val + t else val - t)%float)%parser
             (increment (skipSpaces expr c))).
Proof.
  split; [vm_compute; reflexivity |].
  split; [vm_compute; reflexivity |].
  split; [vm_compute; reflexivity |].
  split; [vm_compute; reflexivity |].
  split.
  - intros; now apply parseTerm_loop_implicit.
  - intros expr fuel fuel' val c ch Hlt Hch. split.
    + now apply parseTerm_loop_additive.
    + now apply parseExpression_loop_additive.
Qed.

(** ** Division and modulo *)

Section DivMod.

Variable pow : float -> float -> float.
Variable expr : string.

Local Open Scope parser_scope.

Lemma parseTerm_loop_slash fuel val c d c1 :
  pos (skipSpaces expr c) < size expr ->
  at_ expr (pos (skipSpaces expr c)) = "/"%char ->
  parsePower pow expr fuel (increment (skipSpaces expr c)) = (Ok d, c1) ->
  parseTerm_loop pow expr (S fuel) val c =
  (val' <- lift (divide val d) ;; parseTerm_loop pow expr fuel val') c1.
Proof.
  intros Hlt Hch Hd. rewrite parseTerm_loop_S.
  rewrite (bind_Ok _ _ _ false (skipSpaces expr c))
    by (apply match_miss; rewrite Hch; discriminate).
  rewrite (bind_Ok _ _ _ true (increment (skipSpaces expr c)))
    by now apply match_hit_here.
  rewrite (bind_Ok _ _ _ d c1) by exact Hd. reflexivity.
Qed.

Lemma parseTerm_loop_percent fuel val c rhs c1 :
  pos (skipSpaces expr c) < size expr ->
  at_ expr (pos (skipSpaces expr c)) = "%"%char ->
  parsePower pow expr fuel (increment (skipSpaces expr c)) = (Ok rhs, c1) ->
  parseTerm_loop pow expr (S fuel) val c =
  (val' <- lift (modulo val rhs) ;; parseTerm_loop pow expr fuel val') c1.
Proof.
  intros Hlt Hch Hd. rewrite parseTerm_loop_S.
  rewrite (bind_Ok _ _ _ false (skipSpaces expr c))
    by (apply match_miss; rewrite Hch; discriminate).
  rewrite (bind_Ok _ _ _ false (skipSpaces expr c))
    by (apply match_miss_here; rewrite Hch; discriminate).
  rewrite (bind_Ok _ _ _ true (increment (skipSpaces expr c)))
    by now apply match_hit_here.
  rewrite (bind_Ok _ _ _ rhs c1) by exact Hd. reflexivity.
Qed.

End DivMod.

(** The shift-and-negate of [to_long_long] is truncation toward zero. *)
Lemma shift_is_truncation (s : bool) (m : positive) (e : Z) :
  (if s then - Z.shiftl (Zpos m) e else Z.shiftl (Zpos m) e)%Z =
  Z.quot ((if s then Zneg m else Zpos m) * 2 ^ Z.max 0 e) (2 ^ Z.max 0 (- e)).
Proof.
  destruct (Z.le_gt_cases 0 e) as [He | He].
  - rewrite Z.shiftl_mul_pow2 by assumption.
    rewrite (Z.max_r 0 e), (Z.max_l 0 (- e)) by lia.
    rewrite Z.pow_0_r, Z.quot_1_r.
    destruct s; [| reflexivity].
    change (Zneg m) with (- Zpos m)%Z. lia.
  - rewrite Z.shiftl_div_pow2 by lia.
    rewrite (Z.max_l 0 e), (Z.max_r 0 (- e)) by lia.
    rewrite Z.pow_0_r, Z.mul_1_r.
    assert (Hp : (0 < 2 ^ (- e))%Z) by (apply Z.pow_pos_nonneg; lia).
    destruct s.
    + change (Zneg m) with (- Zpos m)%Z.
      rewrite Z.quot_opp_l by lia.
      rewrite Z.quot_div_nonneg by lia. reflexivity.
    + rewrite Z.quot_div_nonneg by lia. reflexivity.
Qed.

(** [to_long_long] is [truncate] where the result is a [long long]. *)
Lemma to_long_long_truncate x a :
  to_long_long x = Some a <->
  truncate x = Some a /\ (LLONG_MIN <= a <= LLONG_MAX)%Z.
Proof.
  unfold to_long_long, truncate.
  destruct (Prim2SF x) as [s | s | | s m e].
  - split; [intros H; inversion H; subst | intros [H _]; exact H].
    split; [reflexivity | unfold LLONG_MIN, LLONG_MAX; lia].
  - split; [discriminate | intros [H _]; discriminate].
  - split; [discriminate | intros [H _]; discriminate].
  - cbv zeta. rewrite shift_is_truncation.
    set (z := Z.quot _ _).
    destruct (LLONG_MIN <=? z)%Z eqn:H1; destruct (z <=? LLONG_MAX)%Z eqn:H2;
      simpl; split;
      try (intros H; inversion H; subst; split; [reflexivity | lia]);
      try (intros [H [H3 H4]]; inversion H; subst; try reflexivity; lia);
      try discriminate.
Qed.

Set Warnings "-inexact-float".

(** C3, as amended.  On operands whose truncations toward zero fit in a
    64-bit signed integer (and are not [LLONG_MIN] and [-1]), modulo
    takes the remainder of the truncated operands and returns it as a
    double, and it fails with [ModuloByZero] exactly when the truncated
    right operand is 0; this is what the loop of [parseTerm] computes on
    a ['%'].  So [5%3] is 2, [5.9 % 3.1] is 2 and [5%0] fails with
    [ModuloByZero]. *)
Theorem modulo_truncates_both_operands
  (pow : float -> float -> float) (val rhs : float) (a b : Z)
  (Ha : truncate val = Some a) (Hb : truncate rhs = Some b)
  (Hra : (LLONG_MIN <= a <= LLONG_MAX)%Z)
  (Hrb : (LLONG_MIN <= b <= LLONG_MAX)%Z)
  (Hdefined : ~ (a = LLONG_MIN /\ b = (-1)%Z)) :
  modulo val rhs =
    (if (b =? 0)%Z then Throw ModuloByZero
     else Ok (of_long_long (Z.rem a b)))
  /\ (modulo val rhs = Throw ModuloByZero <-> b = 0%Z)
  /\ (forall expr fuel c c1,
        pos (skipSpaces expr c) < size expr ->
        at_ expr (pos (skipSpaces expr c)) = "%"%char ->
        parsePower pow expr fuel (increment (skipSpaces expr c))
          = (Ok rhs, c1) ->
        parseTerm_loop pow expr (S fuel) val c =
        (if (b =? 0)%Z then (Throw ModuloByZero, c1)
         else parseTerm_loop pow expr fuel (of_long_long (Z.rem a b)) c1))
  /\ evaluate pow "5%3" = Ok 2%float
  /\ evaluate pow "5.9 % 3.1" = Ok 2%float
  /\ evaluate pow "5%0" = Throw ModuloByZero.
Proof.
  assert (Hm : modulo val rhs =
               (if (b =? 0)%Z then Throw ModuloByZero
                else Ok (of_long_long (Z.rem a b)))).
  { unfold modulo.
    rewrite (proj2 (to_long_long_truncate val a) (conj Ha Hra)).
    rewrite (proj2 (to_long_long_truncate rhs b) (conj Hb Hrb)).
    destruct (b =? 0)%Z; [reflexivity |].
    destruct (a =? LLONG_MIN)%Z eqn:E1; [| reflexivity].
    destruct (b =? -1)%Z eqn:E2; [| reflexivity].
    exfalso; apply Hdefined; split; [now apply Z.eqb_eq | now apply Z.eqb_eq]. }
  split; [exact Hm | split; [| split]].
  - rewrite Hm. destruct (b =? 0)%Z eqn:E.
    + apply Z.eqb_eq in E. tauto.
    + apply Z.eqb_neq in E. split; [discriminate | contradiction].
  - intros expr fuel c c1 Hlt Hch Hp.
    rewrite (parseTerm_loop_percent pow expr fuel val c rhs c1) by assumption.
    unfold bind, lift. rewrite Hm. destruct (b =? 0)%Z; reflexivity.
  - repeat split; vm_compute; reflexivity.
Qed.

(** The hypotheses of C3 hold of the operands of [5.9 % 3.1]. *)
Lemma modulo_truncates_both_operands_witness :
  modulo 5.9%float 3.1%float = Ok (of_long_long (Z.rem 5 3)).
Proof.
  refine (proj1 (modulo_truncates_both_operands
                   sample_pow 5.9%float 3.1%float 5%Z 3%Z
                   eq_refl eq_refl _ _ _)).
  - vm_compute; split; discriminate.
  - vm_compute; split; discriminate.
  - intros [H _]; discriminate H.
Defined.

(** C3 as stated fails on an operand that is too large for [long long]:
    the truncation of [1e30] exists, and has remainder 1 by 3, but the
    conversion the code performs is undefined there, so [1e30 % 3] has
    no defined result. *)
Lemma modulo_of_a_large_operand_is_undefined :
  (exists a, truncate 1e30%float = Some a /\ Z.rem a 3 = 1%Z)
  /\ truncate 3%float = Some 3%Z
  /\ to_long_long 1e30%float = None
  /\ modulo 1e30%float 3%float = Undefined
  /\ (forall pow, evaluate pow "1e30 % 3" = Undefined).
Proof.
  split; [eexists; split; vm_compute; reflexivity |].
  repeat split; vm_compute; reflexivity.
Qed.

(** C7. Division.  On a ['/'] followed by a power of value [d], the
    loop of [parseTerm] fails with [DivisionByZero] when [d == 0.0] and
    otherwise goes on with the quotient; the comparison is that of
    doubles, with no tolerance: it holds of both zeros and of nothing
    else.  So [1/0] fails with [DivisionByZero], as does [1/-0], while
    [1/1e-300] is a quotient. *)
Theorem division_fails_exactly_on_zero
  (pow : float -> float -> float) (expr : string) (fuel : nat)
  (val d : float) (c c1 : cursor)
  (Hinside : pos (skipSpaces expr c) < size expr)
  (Hslash : at_ expr (pos (skipSpaces expr c)) = "/"%char)
  (Hrhs : parsePower pow expr fuel (increment (skipSpaces expr c))
          = (Ok d, c1)) :
  parseTerm_loop pow expr (S fuel) val c =
    (if (d =? 0)%float then (Throw DivisionByZero, c1)
     else parseTerm_loop pow expr fuel (val / d)%float c1)
  /\ (divide val d = Throw DivisionByZero <-> (d =? 0)%float = true)
  /\ ((d =? 0)%float = false -> divide val d = Ok (val / d)%float)
  /\ evaluate pow "1/0" = Throw DivisionByZero
  /\ evaluate pow "1/-0" = Throw DivisionByZero
  /\ evaluate pow "1/1e-300" = Ok (1 / 1e-300)%float.
Proof.
  split; [| split; [| split]].
  - rewrite (parseTerm_loop_slash pow expr fuel val c d c1) by assumption.
    unfold bind, lift, divide. destruct (d =? 0)%float; reflexivity.
  - unfold divide. destruct (d =? 0)%float; split;
      try reflexivity; discriminate.
  - unfold divide. intros ->. reflexivity.
  - repeat split; vm_compute; reflexivity.
Qed.

(** The hypotheses of C7 hold in [1/0], once the [1] has been read. *)
Lemma division_fails_exactly_on_zero_witness :
  parseTerm_loop sample_pow "1/0" 3 1%float
    {| pos := 1; journal := [Increment 1] |}
  = (Throw DivisionByZero,
     {| pos := 3; journal := [Increment 3; Increment 2; Increment 1] |}).
Proof.
  refine (proj1 (division_fails_exactly_on_zero
                   sample_pow "1/0" 2 1%float 0%float
                   {| pos := 1; journal := [Increment 1] |}
                   {| pos := 3;
                      journal := [Increment 3; Increment 2; Increment 1] |}
                   _ eq_refl eq_refl)).
  vm_compute. lia.
Defined.

(** ** Parentheses *)

Section Parentheses.

Variable pow : float -> float -> float.
Variable expr : string.

Local Open Scope parser_scope.

Lemma parseFactor_paren fuel c :
  pos (skipSpaces expr c) < size expr ->
  at_ expr (pos (skipSpaces expr c)) = "("%char ->
  parseFactor pow expr (S fuel) c =
  (v <- parseExpression pow expr fuel ;;
   close <- match_ expr ")" ;;
   if close then ret v else throw UnmatchedParenthesis)
    (increment (skipSpaces expr c)).
Proof.
  intros Hlt Hch. rewrite parseFactor_S.
  rewrite (bind_Ok _ _ _ false (skipSpaces expr c))
    by (apply match_miss_here; rewrite Hch; discriminate).
  rewrite (bind_Ok _ _ _ false (skipSpaces expr c))
    by (apply match_miss_here; rewrite Hch; discriminate).
  rewrite (bind_Ok _ _ _ true (increment (skipSpaces expr c)))
    by now apply match_hit_here.
  reflexivity.
Qed.

End Parentheses.

(** C6, as amended.  When the expression after a ['('] has been parsed
    and the next character after spaces is not [')'] (or the text has
    ended), [parseFactor] fails with [UnmatchedParenthesis], the cursor
    standing where the [')'] was looked for.  The exception itself
    reports no offset: its message is [Missing ')'].  So [(1+2] fails
    with [UnmatchedParenthesis], the cursor at the end of the text. *)
Theorem unmatched_parenthesis
  (pow : float -> float -> float) (expr : string) (fuel : nat)
  (v : float) (c c1 : cursor)
  (Hinside : pos (skipSpaces expr c) < size expr)
  (Hopen : at_ expr (pos (skipSpaces expr c)) = "("%char)
  (Hinner : parseExpression pow expr fuel (increment (skipSpaces expr c))
            = (Ok v, c1))
  (Hclose : size expr <= pos (skipSpaces expr c1)
            \/ at_ expr (pos (skipSpaces expr c1)) <> ")"%char) :
  parseFactor pow expr (S fuel) c
    = (Throw UnmatchedParenthesis, skipSpaces expr c1)
  /\ reported_offset UnmatchedParenthesis = None
  /\ what UnmatchedParenthesis = "Missing ')'"
  /\ evaluate pow "(1+2" = Throw UnmatchedParenthesis
  /\ pos (snd (run pow "(1+2")) = String.length "(1+2".
Proof.
  split; [| repeat split; vm_compute; reflexivity].
  rewrite parseFactor_paren by assumption.
  rewrite (bind_Ok _ _ _ v c1) by exact Hinner.
  rewrite (bind_Ok _ _ _ false (skipSpaces expr c1)); [reflexivity |].
  destruct Hclose as [H | H]; [now apply match_end | now apply match_miss].
Qed.

(** The hypotheses of C6 hold in [(1+2]. *)
Lemma unmatched_parenthesis_witness :
  parseFactor sample_pow "(1+2" 9 fresh
  = (Throw UnmatchedParenthesis,
     {| pos := 4;
        journal := [Increment 4; Increment 3; Increment 2; Increment 1] |}).
Proof.
  refine (proj1 (unmatched_parenthesis
                   sample_pow "(1+2" 8 3%float fresh
                   {| pos := 4;
                      journal := [Increment 4; Increment 3;
                                  Increment 2; Increment 1] |}
                   _ eq_refl eq_refl _)).
  - vm_compute. lia.
  - left. vm_compute. lia.
Defined.

(** C6 as stated fails: the exception raised on [(1+2] carries no
    offset, where the claim has it carry that of the end of the text. *)
Lemma unmatched_parenthesis_reports_no_offset :
  exists e,
    (forall pow, evaluate pow "(1+2" = Throw e)
    /\ what e = "Missing ')'"
    /\ reported_offset e = None
    /\ reported_offset e <> Some (String.length "(1+2").
Proof.
  exists UnmatchedParenthesis. repeat split; try discriminate.
Qed.

(** ** Powers *)

Section Power.

Variable pow : float -> float -> float.
Variable expr : string.

Local Open Scope parser_scope.

(** [matchStr("**")] on two stars, and on anything else. *)
Lemma matchStr_starstar_hit c :
  S (pos (skipSpaces expr c)) < size expr ->
  at_ expr (pos (skipSpaces expr c)) = "*"%char ->
  at_ expr (S (pos (skipSpaces expr c))) = "*"%char ->
  matchStr expr "**" c =
  (Ok true, assign (pos (skipSpaces expr c) + 2) (skipSpaces expr c)).
Proof.
  intros Hlt H0 H1. unfold matchStr. simpl.
  rewrite Nat.add_0_r, Nat.add_1_r, H0, H1. simpl.
  replace (pos (skipSpaces expr c) <? size expr)%nat with true
    by (symmetry; apply Nat.ltb_lt; lia).
  replace (S (pos (skipSpaces expr c)) <? size expr)%nat with true
    by (symmetry; apply Nat.ltb_lt; lia).
  reflexivity.
Qed.

Lemma matchStr_starstar_miss c :
  at_ expr (pos (skipSpaces expr c)) <> "*"%char ->
  matchStr expr "**" c = (Ok false, skipSpaces expr c).
Proof.
  intros H0. unfold matchStr. simpl.
  rewrite Nat.add_0_r. apply Ascii.eqb_neq in H0. rewrite H0, andb_false_r.
  reflexivity.
Qed.

(** After its base, [parsePower] takes ['^'] as the exponent operator
    and parses the exponent with [parsePower] itself. *)
Lemma parsePower_caret fuel c base c1 :
  parseFactor pow expr fuel c = (Ok base, c1) ->
  pos (skipSpaces expr c1) < size expr ->
  at_ expr (pos (skipSpaces expr c1)) = "^"%char ->
  parsePower pow expr (S fuel) c =
  (exp <- parsePower pow expr fuel ;; ret (pow base exp))
    (increment (skipSpaces expr c1)).
Proof.
  intros Hb Hlt Hch. rewrite parsePower_S.
  rewrite (bind_Ok _ _ _ base c1) by exact Hb.
  rewrite (bind_Ok _ _ _ false (skipSpaces expr c1))
    by (apply matchStr_starstar_miss; rewrite Hch; discriminate).
  rewrite (bind_Ok _ _ _ true (increment (skipSpaces expr c1)))
    by now apply match_hit_here.
  reflexivity.
Qed.

(** It takes ["**"] in the same way, and tries it first. *)
Lemma parsePower_starstar fuel c base c1 :
  parseFactor pow expr fuel c = (Ok base, c1) ->
  S (pos (skipSpaces expr c1)) < size expr ->
  at_ expr (pos (skipSpaces expr c1)) = "*"%char ->
  at_ expr (S (pos (skipSpaces expr c1))) = "*"%char ->
  parsePower pow expr (S fuel) c =
  (exp <- parsePower pow expr fuel ;; ret (pow base exp))
    (assign (pos (skipSpaces expr c1) + 2) (skipSpaces expr c1)).
Proof.
  intros Hb Hlt H0 H1. rewrite parsePower_S.
  rewrite (bind_Ok _ _ _ base c1) by exact Hb.
  rewrite (bind_Ok _ _ _ true
             (assign (pos (skipSpaces expr c1) + 2) (skipSpaces expr c1)))
    by now apply matchStr_starstar_hit.
  reflexivity.
Qed.

End Power.

(** A power to the right of ['/'] or ['%'] is parsed whole before the
    division or the modulo is computed. *)
Lemma slash_takes_a_whole_power
  (pow : float -> float -> float) (H32 : pow 3%float 2%float = 9%float) :
  evaluate pow "2/3^2" = Ok (2 / pow 3 2)%float.
Proof.
  pose (c1 := {| pos := 1; journal := [Increment 1] |}).
  pose (c5 := {| pos := 5;
                 journal := [Increment 5; Increment 4; Increment 3;
                             Increment 2; Increment 1] |}).
  assert (Hterm : parseTerm pow "2/3^2" 23 fresh = (Ok (2 / 9)%float, c5)).
  { rewrite parseTerm_S.
    rewrite (bind_Ok _ _ fresh 2%float c1) by (vm_compute; reflexivity).
    rewrite (parseTerm_loop_slash pow "2/3^2" 21 2%float c1
               (pow 3 2)%float c5);
      [| vm_compute; lia | vm_compute; reflexivity | vm_compute; reflexivity].
    rewrite H32. vm_compute. reflexivity. }
  rewrite H32. unfold evaluate, run, parse.
  change (budget "2/3^2") with 24.
  rewrite (bind_Ok _ _ fresh (2 / 9)%float c5); [vm_compute; reflexivity |].
  rewrite parseExpression_S.
  rewrite (bind_Ok _ _ fresh (2 / 9)%float c5) by exact Hterm.
  vm_compute. reflexivity.
Qed.

Lemma percent_takes_a_whole_power
  (pow : float -> float -> float) (H32 : pow 3%float 2%float = 9%float) :
  evaluate pow "8%3^2" = Ok 8%float.
Proof.
  pose (c1 := {| pos := 1; journal := [Increment 1] |}).
  pose (c5 := {| pos := 5;
                 journal := [Increment 5; Increment 4; Increment 3;
                             Increment 2; Increment 1] |}).
  assert (Hterm : parseTerm pow "8%3^2" 23 fresh = (Ok 8%float, c5)).
  { rewrite parseTerm_S.
    rewrite (bind_Ok _ _ fresh 8%float c1) by (vm_compute; reflexivity).
    rewrite (parseTerm_loop_percent pow "8%3^2" 21 8%float c1
               (pow 3 2)%float c5);
      [| vm_compute; lia | vm_compute; reflexivity | vm_compute; reflexivity].
    rewrite H32. vm_compute. reflexivity. }
  unfold evaluate, run, parse.
  change (budget "8%3^2") with 24.
  rewrite (bind_Ok _ _ fresh 8%float c5); [vm_compute; reflexivity |].
  rewrite parseExpression_S.
  rewrite (bind_Ok _ _ fresh 8%float c5) by exact Hterm.
  vm_compute. reflexivity.
Qed.

(** C8. Exponentiation.  After its base, [parsePower] takes ["**"],
    tried first as two characters, or else ['^'], and in both cases
    parses the exponent by calling itself, so that a chain groups to the
    right; being called by [parseTerm] for each operand, it binds
    tighter than ['*'], ['/'] and ['%'].  With a [pow] for which
    [pow(3, 2)] is 9 and [pow(2, 9)] is 512, [2^3^2] and [2**3**2] are
    both 512. *)
Theorem exponentiation_is_right_associative
  (pow : float -> float -> float)
  (H32 : pow 3%float 2%float = 9%float)
  (H29 : pow 2%float 9%float = 512%float) :
  evaluate pow "2^3^2" = Ok 512%float
  /\ evaluate pow "2**3**2" = Ok 512%float
  /\ evaluate pow "2^3^2" = Ok (pow 2 (pow 3 2))%float
  /\ evaluate pow "2**3**2" = Ok (pow 2 (pow 3 2))%float
  /\ evaluate pow "2^3**2" = Ok (pow 2 (pow 3 2))%float
  /\ evaluate pow "2*3^2" = Ok (2 * pow 3 2)%float
  /\ evaluate pow "3^2*2" = Ok (pow 3 2 * 2)%float
  /\ evaluate pow "2/3^2" = Ok (2 / pow 3 2)%float
  /\ evaluate pow "8%3^2" = Ok 8%float
  /\ (forall expr fuel c base c1,
        parseFactor pow expr fuel c = (Ok base, c1) ->
        pos (skipSpaces expr c1) < size expr ->
        at_ expr (pos (skipSpaces expr c1)) = "^"%char ->
        parsePower pow expr (S fuel) c =
        (exp <- parsePower pow expr fuel ;; ret (pow base exp))%parser
          (increment (skipSpaces expr c1)))
  /\ (forall expr fuel c base c1,
        parseFactor pow expr fuel c = (Ok base, c1) ->
        S (pos (skipSpaces expr c1)) < size expr ->
        at_ expr (pos (skipSpaces expr c1)) = "*"%char ->
        at_ expr (S (pos (skipSpaces expr c1))) = "*"%char ->
        parsePower pow expr (S fuel) c =
        (exp <- parsePower pow expr fuel ;; ret (pow base exp))%parser
          (assign (pos (skipSpaces expr c1) + 2) (skipSpaces expr c1))).
Proof.
  assert (E1 : evaluate pow "2^3^2" = Ok (pow 2 (pow 3 2))%float)
    by (vm_compute; reflexivity).
  assert (E2 : evaluate pow "2**3**2" = Ok (pow 2 (pow 3 2))%float)
    by (vm_compute; reflexivity).
  assert (E3 : evaluate pow "2^3**2" = Ok (pow 2 (pow 3 2))%float)
    by (vm_compute; reflexivity).
  assert (E4 : evaluate pow "2*3^2" = Ok (2 * pow 3 2)%float)
    by (vm_compute; reflexivity).
  assert (E5 : evaluate pow "3^2*2" = Ok (pow 3 2 * 2)%float)
    by (vm_compute; reflexivity).
  pose proof (slash_takes_a_whole_power pow H32) as E6.
  pose proof (percent_takes_a_whole_power pow H32) as E7.
  rewrite E6. rewrite E1, E2, E3, E4, E5, E7, H32, H29.
  repeat split.
  - intros; now apply parsePower_caret.
  - intros; now apply parsePower_starstar.
Qed.

(** The hypotheses of C8 hold of the sample [pow]. *)
Lemma exponentiation_is_right_associative_witness :
  evaluate sample_pow "2^3^2" = Ok 512%float.
Proof.
  exact (proj1 (exponentiation_is_right_associative
                  sample_pow eq_refl eq_refl)).
Defined.

(** ** Number literals *)

Section Literals.

Variable expr : string.

(** The exponent block on a marker that no digit follows: the marker and
    the sign are stepped over, then the cursor is put back. *)
Lemma exponent_suffix_rollback c :
  let c1 := increment c in
  let c2 :=
    if (pos c1 <? size expr)%nat
       && ((at_ expr (pos c1) =? "+")%char || (at_ expr (pos c1) =? "-")%char)
    then increment c1 else c1 in
  pos c < size expr ->
  is_exponent_marker (at_ expr (pos c)) = true ->
  (pos c2 <? size expr)%nat && isdigit (at_ expr (pos c2)) = false ->
  exponent_suffix expr c = rollback (pos c) c2.
Proof.
  intros c1 c2 Hlt Hm Hd. unfold exponent_suffix.
  apply Nat.ltb_lt in Hlt. rewrite Hlt.
  unfold is_exponent_marker in Hm. rewrite Hm. cbn [andb].
  fold c1. fold c2.
  assert (E : exponent_loop expr (size expr - pos c2) false c2 = (false, c2)).
  { destruct (size expr - pos c2); simpl; [reflexivity |].
    rewrite Hd. reflexivity. }
  rewrite E. reflexivity.
Qed.

(** What [stod] throws. *)
Lemma stod_throws str e :
  stod str = Throw e -> e = StodInvalidArgument \/ e = StodOutOfRange.
Proof.
  unfold stod.
  destruct (read_digits str 0 0) as [[m1 n1] rest].
  destruct (match rest with
            | String "." t => read_digits t m1 0
            | _ => (m1, 0, rest)
            end) as [[m n2] rest'].
  destruct (n1 + n2 =? 0)%nat; [intros H; inversion H; auto |].
  generalize (round_decimal m (read_exponent rest' - Z.of_nat n2)).
  intros [s | s | | s m2 e2].
  - destruct (m =? 0)%Z; intros H; inversion H; auto.
  - intros H; inversion H; auto.
  - intros H; inversion H; auto.
  - destruct (_ && _); intros H; inversion H; auto.
Qed.

(** [parseNumber] throws [ExpectedNumber] exactly when it has consumed
    nothing after the spaces: [seenDigit] plays no part in the test. *)
Lemma expected_number_iff c p :
  fst (parseNumber expr c) = Throw (ExpectedNumber p) <->
  pos (snd (parseNumber expr c)) = pos (skipSpaces expr c)
  /\ p = pos (skipSpaces expr c).
Proof.
  unfold parseNumber.
  set (c0 := skipSpaces expr c).
  pose proof (mantissa_loop_trail expr (size expr - pos c0) false false c0)
    as Hm.
  pose proof (mantissa_loop_seen expr (size expr - pos c0) false false c0)
    as Hd.
  destruct (mantissa_loop expr (size expr - pos c0) false false c0)
    as [[seenDigit seenDot] c1]; simpl in Hm, Hd.
  apply trail_forward in Hm.
  pose proof (trail_forward _ _ _ (exponent_suffix_trail expr c1)) as He.
  destruct (pos c0 <? pos (exponent_suffix expr c1))%nat eqn:Hlt.
  - apply Nat.ltb_lt in Hlt. rewrite andb_false_r. cbn [fst snd]. split.
    + intros H. apply stod_throws in H. destruct H; discriminate.
    + intros [H _]. lia.
  - apply Nat.ltb_ge in Hlt.
    assert (seenDigit = false) as ->.
    { destruct seenDigit; [| reflexivity].
      destruct (Hd eq_refl); [discriminate | lia]. }
    cbn [negb andb fst snd]. split.
    + intros H. inversion H. split; lia.
    + intros [H1 H2]. rewrite H1, H2. reflexivity.
Qed.

(** The characters the mantissa loop consumes: digits and at most one
    ['.'], none if a ['.'] had been seen before. *)
Lemma mantissa_loop_chars n seenDigit seenDot c :
  let c' := snd (mantissa_loop expr n seenDigit seenDot c) in
  (seenDot = true ->
   forall i, pos c <= i < pos c' -> isdigit (at_ expr i) = true)
  /\ (forall i j, pos c <= i -> i < j -> j < pos c' ->
                  at_ expr i = "."%char -> at_ expr j = "."%char -> False).
Proof.
  revert seenDigit seenDot c.
  induction n as [| n IH]; intros sd sdot c; simpl.
  - split; intros; lia.
  - destruct (pos c <? size expr)%nat; [| simpl; split; intros; lia].
    destruct (isdigit (at_ expr (pos c))) eqn:Hdig.
    + destruct (IH true sdot (increment c)) as [IH1 IH2]. simpl in IH1, IH2.
      split.
      * intros Hs i Hi. destruct (Nat.eq_dec i (pos c)) as [-> | Hne];
          [exact Hdig | apply IH1; [exact Hs | lia]].
      * intros i j Hi Hij Hj Hci Hcj.
        destruct (Nat.eq_dec i (pos c)) as [-> | Hne].
        -- rewrite Hci in Hdig. discriminate.
        -- apply (IH2 i j); try assumption; lia.
    + destruct ((at_ expr (pos c) =? ".")%char && negb sdot) eqn:Hdot;
        [| simpl; split; intros; lia].
      apply andb_true_iff in Hdot. destruct Hdot as [_ Hs].
      destruct sdot; [discriminate |].
      destruct (IH sd true (increment c)) as [IH1 IH2]. simpl in IH1, IH2.
      split; [discriminate |].
      intros i j Hi Hij Hj Hci Hcj.
      assert (Hdj : isdigit (at_ expr j) = true)
        by (apply IH1; [reflexivity | lia]).
      rewrite Hcj in Hdj. discriminate.
Qed.

Lemma mantissa_loop_literal n seenDigit seenDot c i :
  pos c <= i < pos (snd (mantissa_loop expr n seenDigit seenDot c)) ->
  isdigit (at_ expr i) || (at_ expr i =? ".")%char = true.
Proof.
  revert seenDigit seenDot c.
  induction n as [| n IH]; intros sd sdot c; simpl; [lia |].
  destruct (pos c <? size expr)%nat; [| simpl; lia].
  destruct (isdigit (at_ expr (pos c))) eqn:Hdig.
  - intros Hi. destruct (Nat.eq_dec i (pos c)) as [-> | Hne].
    + rewrite Hdig. reflexivity.
    + apply (IH true sdot (increment c)). simpl. lia.
  - destruct ((at_ expr (pos c) =? ".")%char && negb sdot) eqn:Hdot;
      [| simpl; lia].
    apply andb_true_iff in Hdot. destruct Hdot as [Hdot _].
    intros Hi. destruct (Nat.eq_dec i (pos c)) as [-> | Hne].
    + rewrite Hdot. apply orb_true_r.
    + apply (IH sd true (increment c)). simpl. lia.
Qed.

Lemma exponent_loop_literal n expDigits c i :
  pos c <= i < pos (snd (exponent_loop expr n expDigits c)) ->
  isdigit (at_ expr i) = true.
Proof.
  revert expDigits c.
  induction n as [| n IH]; intros ed c; simpl; [lia |].
  destruct (pos c <? size expr)%nat; simpl; [| lia].
  destruct (isdigit (at_ expr (pos c))) eqn:Hdig; simpl; [| lia].
  intros Hi. destruct (Nat.eq_dec i (pos c)) as [-> | Hne].
  - exact Hdig.
  - apply (IH true (increment c)). simpl. lia.
Qed.

Lemma exponent_suffix_literal c i :
  pos c <= i < pos (exponent_suffix expr c) ->
  literal_char (at_ expr i) = true
  /\ (i = pos c -> is_exponent_marker (at_ expr i) = true).
Proof.
  unfold exponent_suffix.
  destruct (pos c <? size expr)%nat; simpl; [| lia].
  destruct (is_exponent_marker (at_ expr (pos c))) eqn:He;
    unfold is_exponent_marker in He; rewrite He; [| lia].
  match goal with
  | |- context [exponent_loop expr _ false ?c'] => set (c1 := c')
  end.
  pose proof (exponent_loop_literal (size expr - pos c1) false c1) as Hl.
  destruct (exponent_loop expr (size expr - pos c1) false c1)
    as [expDigits c2]; simpl in Hl.
  destruct expDigits; simpl; [| lia].
  intros Hi.
  destruct (Nat.eq_dec i (pos c)) as [-> | Hne].
  { split; [| intros _; exact He].
    unfold literal_char, is_exponent_marker. rewrite He.
    rewrite !orb_true_r. reflexivity. }
  split; [| intros; lia].
  destruct (Nat.lt_ge_cases i (pos c1)) as [Hlt | Hge].
  - assert (i = S (pos c) /\ pos c1 = S (S (pos c))) as [-> Hc1].
    { subst c1. simpl in *.
      destruct ((S (pos c) <? size expr)%nat
                && ((at_ expr (S (pos c)) =? "+")%char
                    || (at_ expr (S (pos c)) =? "-")%char));
        simpl in *; lia. }
    subst c1. simpl in Hc1.
    destruct ((S (pos c) <? size expr)%nat
              && ((at_ expr (S (pos c)) =? "+")%char
                  || (at_ expr (S (pos c)) =? "-")%char)) eqn:Hs;
      simpl in Hc1; [| lia].
    apply andb_true_iff in Hs. destruct Hs as [_ Hs].
    unfold literal_char.
    apply orb_true_iff in Hs. destruct Hs as [-> | ->];
      rewrite ?orb_true_r; reflexivity.
  - unfold literal_char. rewrite (Hl i) by lia. reflexivity.
Qed.

(** The text [parseNumber] passes to [stod] is made of the characters of
    a decimal literal and does not start with a sign: it is in the part
    of [strtod]'s input language that [stod] models. *)
Lemma stod_argument c i ch :
  let start := pos (skipSpaces expr c) in
  let stop := pos (snd (parseNumber expr c)) in
  String.get i (substring start (stop - start) expr) = Some ch ->
  literal_char ch = true
  /\ (i = 0 -> ch <> "+"%char /\ ch <> "-"%char).
Proof.
  intros start stop Hget.
  assert (Hi : i < stop - start).
  { destruct (Nat.lt_ge_cases i (stop - start)) as [H | H]; [exact H |].
    rewrite (substring_correct2 expr start (stop - start) i H) in Hget.
    discriminate. }
  rewrite (substring_correct1 expr start (stop - start) i Hi) in Hget.
  assert (Hat : at_ expr (i + start) = ch) by (unfold at_; now rewrite Hget).
  clear Hget. subst ch.
  revert Hi. subst stop start. unfold parseNumber.
  set (c0 := skipSpaces expr c).
  pose proof (mantissa_loop_literal (size expr - pos c0) false false c0)
    as Hm.
  pose proof (trail_forward _ _ _
                (mantissa_loop_trail expr (size expr - pos c0) false false c0))
    as Hf.
  destruct (mantissa_loop expr (size expr - pos c0) false false c0)
    as [[seenDigit seenDot] c1]; simpl in Hm, Hf.
  pose proof (exponent_suffix_literal c1) as He.
  assert (Hstop : pos (snd (if negb seenDigit
                               && negb (pos c0 <? pos (exponent_suffix expr c1))%nat
                            then (Throw (ExpectedNumber (pos (exponent_suffix expr c1))),
                                  exponent_suffix expr c1)
                            else (stod (substring (pos c0)
                                          (pos (exponent_suffix expr c1) - pos c0)
                                          expr),
                                  exponent_suffix expr c1)))
                  = pos (exponent_suffix expr c1))
    by (destruct (_ && _); reflexivity).
  rewrite Hstop. intros Hi.
  destruct (Nat.lt_ge_cases (i + pos c0) (pos c1)) as [Hlt | Hge].
  - specialize (Hm (i + pos c0) ltac:(lia)).
    split.
    + unfold literal_char.
      apply orb_true_iff in Hm. destruct Hm as [-> | ->];
        rewrite ?orb_true_r; reflexivity.
    + intros _. split; intros Hch; rewrite Hch in Hm; discriminate.
  - destruct (He (i + pos c0) ltac:(lia)) as [Hl Hfirst].
    split; [exact Hl |].
    intros ->. simpl in *.
    assert (Hmark : is_exponent_marker (at_ expr (pos c0)) = true)
      by (apply Hfirst; lia).
    split; intros Hch; rewrite Hch in Hmark; discriminate.
Qed.

End Literals.

(** [stod_argument] applies to the first character of the literal of
    [1e5]. *)
Lemma stod_argument_witness :
  literal_char "1" = true
  /\ (0 = 0 -> "1"%char <> "+"%char /\ "1"%char <> "-"%char).
Proof.
  exact (stod_argument "1e5" fresh 0 "1"%char eq_refl).
Defined.

(** C4. A malformed exponent is not consumed.  When the mantissa loop
    of [parseNumber] has consumed at least one character and stops on an
    ['e'] or ['E'] that no digit follows, not even after a sign, the
    cursor is put back on that marker and the number is [stod] of the
    mantissa alone.  So [parseNumber] reads [1e] as 1.0, leaving the
    cursor at offset 1, and [evaluate("1e")] fails with [TrailingInput]
    at offset 1, that of the ['e']. *)
Theorem malformed_exponent_is_not_consumed
  (pow : float -> float -> float) (expr : string) (c : cursor) :
  let c0 := skipSpaces expr c in
  let c1 := snd (mantissa_loop expr (size expr - pos c0) false false c0) in
  let c2 := increment c1 in
  let c3 :=
    if (pos c2 <? size expr)%nat
       && ((at_ expr (pos c2) =? "+")%char || (at_ expr (pos c2) =? "-")%char)
    then increment c2 else c2 in
  pos c0 < pos c1 ->
  pos c1 < size expr ->
  is_exponent_marker (at_ expr (pos c1)) = true ->
  (pos c3 <? size expr)%nat && isdigit (at_ expr (pos c3)) = false ->
  parseNumber expr c
    = (stod (substring (pos c0) (pos c1 - pos c0) expr), rollback (pos c1) c3)
  /\ pos (snd (parseNumber expr c)) = pos c1
  /\ parseNumber "1e" fresh
     = (Ok 1%float,
        {| pos := 1; journal := [Rollback 1; Increment 2; Increment 1] |})
  /\ evaluate pow "1e" = Throw (TrailingInput 1)
  /\ what (TrailingInput 1) = "Unexpected trailing input at pos 1"
  /\ evaluate pow "1e+" = Throw (TrailingInput 1)
  /\ evaluate pow "2.5E-" = Throw (TrailingInput 3).
Proof.
  intros c0 c1 c2 c3 Hmant Hlt Hmark Hdig.
  assert (E : parseNumber expr c
              = (stod (substring (pos c0) (pos c1 - pos c0) expr),
                 rollback (pos c1) c3)).
  { unfold parseNumber. fold c0.
    destruct (mantissa_loop expr (size expr - pos c0) false false c0)
      as [[seenDigit seenDot] c1'] eqn:Em.
    assert (Hc : c1' = c1) by (unfold c1; try rewrite Em; reflexivity).
    rewrite Hc.
    rewrite (exponent_suffix_rollback expr c1 Hlt Hmark Hdig).
    fold c2. fold c3. cbn [pos rollback].
    replace (pos c0 <? pos c1)%nat with true
      by (symmetry; apply Nat.ltb_lt; exact Hmant).
    rewrite andb_false_r. reflexivity. }
  split; [exact E | split; [rewrite E; reflexivity |]].
  repeat split; vm_compute; reflexivity.
Qed.

(** The hypotheses of C4 hold in [1e]. *)
Lemma malformed_exponent_is_not_consumed_witness :
  parseNumber "1e" fresh
  = (stod (substring 0 1 "1e"),
     {| pos := 1; journal := [Rollback 1; Increment 2; Increment 1] |}).
Proof.
  refine (proj1 (malformed_exponent_is_not_consumed
                   sample_pow "1e" fresh _ _ eq_refl eq_refl)).
  - vm_compute. lia.
  - vm_compute. lia.
Defined.

(** C5, on the code.  A lone ['.'] passes the test of [parseNumber],
    which sees that the cursor has moved, and reaches [stod], which
    cannot convert it: [evaluate(".")] fails with the
    [std::invalid_argument] of [stod], whose message is [stod] and
    carries no offset, and not with [ExpectedNumber] at offset 0.
    [ExpectedNumber] is thrown exactly when nothing was consumed. *)
Theorem lone_decimal_point_reaches_stod (pow : float -> float -> float) :
  evaluate pow "." = Throw StodInvalidArgument
  /\ what StodInvalidArgument = "stod"
  /\ reported_offset StodInvalidArgument = None
  /\ evaluate pow ".e5" = Throw StodInvalidArgument
  /\ evaluate pow "" = Throw (ExpectedNumber 0)
  /\ evaluate pow "e" = Throw (ExpectedNumber 0)
  /\ (forall expr c p,
        fst (parseNumber expr c) = Throw (ExpectedNumber p) <->
        pos (snd (parseNumber expr c)) = pos (skipSpaces expr c)
        /\ p = pos (skipSpaces expr c)).
Proof.
  split; [vm_compute; reflexivity |].
  split; [vm_compute; reflexivity |].
  split; [vm_compute; reflexivity |].
  split; [vm_compute; reflexivity |].
  split; [vm_compute; reflexivity |].
  split; [vm_compute; reflexivity |].
  intros expr c p. apply expected_number_iff.
Qed.

(** ** The cursor invariant *)

(** Along a trail, every offset written to the cursor is inside the
    text. *)
Lemma trail_targets expr c0 c :
  trail expr c0 c -> pos c0 <= size expr ->
  Forall (fun w => target w <= size expr) (journal c0) ->
  Forall (fun w => target w <= size expr) (journal c).
Proof.
  intros Ht Hc H0. induction Ht as [| c Ht IH Hlt | c p Ht IH Hp | c save Ht IH Hs Hp Hm].
  - exact H0.
  - simpl. constructor; [simpl; lia | exact IH].
  - simpl. constructor; [simpl; lia | exact IH].
  - simpl. constructor; [| exact IH].
    pose proof (trail_inside _ _ _ Ht Hc). simpl. lia.
Qed.

(** C9. The cursor invariant.  On every text, the cursor an evaluation
    ends on, whatever its outcome, has been reached from offset 0 by a
    trail: every write to [pos] recorded in the journal keeps it between
    0 and the length of the text, and none moves it back except the
    [pos = save] of [parseNumber], which puts it back on the exponent
    marker it had stepped over one or two characters earlier, and never
    before the offset at which the trail started.  Every member function
    of the parser, started inside the text, leaves such a trail from its
    own starting cursor, so that across any of them the offset does not
    decrease and stays inside the text. *)
Theorem cursor_stays_inside_and_moves_forward
  (pow : float -> float -> float) (text : string) :
  let c := snd (run pow text) in
  trail text fresh c
  /\ pos c <= String.length text
  /\ Forall (fun w => target w <= String.length text) (journal c)
  /\ (forall c0 c1, trail text c0 c1 ->
        pos c0 <= pos c1 /\ (pos c0 <= size text -> pos c1 <= size text))
  /\ (forall fuel c0, pos c0 <= size text ->
        trail text c0 (skipSpaces text c0)
        /\ (forall ch, trail text c0 (snd (match_ text ch c0)))
        /\ (forall s, trail text c0 (snd (matchStr text s c0)))
        /\ trail text c0 (snd (peek text c0))
        /\ trail text c0 (snd (nextStartsFactor text c0))
        /\ trail text c0 (snd (parseNumber text c0))
        /\ trail text c0 (snd (parseFactor pow text fuel c0))
        /\ trail text c0 (snd (parsePower pow text fuel c0))
        /\ (forall val, trail text c0 (snd (parseTerm_loop pow text fuel val c0)))
        /\ trail text c0 (snd (parseTerm pow text fuel c0))
        /\ (forall val,
              trail text c0 (snd (parseExpression_loop pow text fuel val c0)))
        /\ trail text c0 (snd (parseExpression pow text fuel c0))
        /\ trail text c0 (snd (parse pow text fuel c0)))
  /\ journal (snd (run pow "1e+"))
     = [Rollback 1; Increment 3; Increment 2; Increment 1].
Proof.
  intros c.
  assert (Ht : trail text fresh c)
    by (apply (orderly_parse pow text (budget text) fresh); simpl; lia).
  split; [exact Ht |].
  split; [apply (trail_inside _ _ _ Ht); simpl; lia |].
  split; [apply (trail_targets _ _ _ Ht); [simpl; lia | constructor] |].
  split; [intros c0 c1 H; split;
          [eapply trail_forward | eapply trail_inside]; eassumption |].
  split; [| vm_compute; reflexivity].
  intros fuel c0 Hc0.
  destruct (orderly_grammar pow text fuel) as (HE & HEL & HT & HTL & HP & HF).
  split; [apply skipSpaces_trail |].
  split; [intros ch; now apply orderly_match |].
  split; [intros s; now apply orderly_matchStr |].
  split; [now apply orderly_peek |].
  split; [now apply orderly_nextStartsFactor |].
  split; [now apply orderly_parseNumber |].
  split; [now apply HF |].
  split; [now apply HP |].
  split; [intros val; now apply HTL |].
  split; [now apply HT |].
  split; [intros val; now apply HEL |].
  split; [now apply HE |].
  now apply orderly_parse.
Qed.

(** C10. A number literal takes at most one decimal point.  Among the
    characters the mantissa loop consumes no two are ['.'], and once a
    ['.'] has been seen the loop stops on the next one; that ['.'] opens
    a factor, so the loop of [parseTerm] multiplies.  So [1.2.3] is the
    product of the literals [1.2] and [.3], and not a parse error: the
    first literal is converted to the double nearest to 1.2, which is
    [5404319552844595 * 2^-52], the second to the double nearest to 0.3,
    which is [5404319552844595 * 2^-54], and the result is their
    product in binary64, [6485183463413514 * 2^-54], the double
    nearest to 0.36. *)
Theorem number_takes_one_decimal_point (pow : float -> float -> float) :
  (stod "1.2" = Ok 1.2%float
   /\ stod ".3" = Ok 0.3%float
   /\ evaluate pow "1.2.3" = Ok (1.2 * 0.3)%float
   /\ evaluate pow "1.2.3" = Ok 0.36%float
   /\ Prim2SF 1.2 = S754_finite false 5404319552844595 (-52)
   /\ Prim2SF 0.3 = S754_finite false 5404319552844595 (-54)
   /\ Prim2SF (1.2 * 0.3) = S754_finite false 6485183463413514 (-54))
  /\ (forall expr n seenDigit seenDot c i j,
        pos c <= i -> i < j ->
        j < pos (snd (mantissa_loop expr n seenDigit seenDot c)) ->
        at_ expr i = "."%char -> at_ expr j = "."%char -> False)
  /\ (forall expr n seenDigit c,
        at_ expr (pos c) = "."%char ->
        mantissa_loop expr n seenDigit true c = (seenDigit, true, c))
  /\ parseNumber "1.2.3" fresh
     = (stod "1.2",
        {| pos := 3; journal := [Increment 3; Increment 2; Increment 1] |})
  /\ nextStartsFactor "1.2.3"
       {| pos := 3; journal := [Increment 3; Increment 2; Increment 1] |}
     = (Ok true,
        {| pos := 3; journal := [Increment 3; Increment 2; Increment 1] |})
  /\ parseNumber "1.2.3"
       {| pos := 3; journal := [Increment 3; Increment 2; Increment 1] |}
     = (stod ".3",
        {| pos := 5;
           journal := [Increment 5; Increment 4; Increment 3;
                       Increment 2; Increment 1] |}).
Proof.
  split.
  { split; [vm_compute; reflexivity |].
    split; [vm_compute; reflexivity |].
    split; [vm_compute; reflexivity |].
    split; [vm_compute; reflexivity |].
    split; [vm_compute; reflexivity |].
    split; vm_compute; reflexivity. }
  split.
  { intros expr n sd sdot c i j.
    apply (mantissa_loop_chars expr n sd sdot c). }
  split.
  { intros expr n sd c Hdot.
    destruct n as [| n]; simpl; [reflexivity |].
    destruct (pos c <? size expr)%nat; [| reflexivity].
    rewrite Hdot. reflexivity. }
  repeat split; vm_compute; reflexivity.
Qed.

(** Underflow in [stod]: [ERANGE] on an inexact result that is below
    the normal range even when rounded with no bound on the exponent.
    [2.2250738585072012e-308] is 0.37 units in the last place below
    [DBL_MIN = 2^-1022] and fails, although it rounds to [DBL_MIN];
    [2.22507385850720138e-308], 0.03 units below, and
    [2.2250738585072014e-308], above, are converted to [DBL_MIN]. *)
Lemma stod_underflow :
  stod "2.2250738585072012e-308" = Throw StodOutOfRange
  /\ stod "2.22507385850720138e-308" = Ok 0x1p-1022%float
  /\ stod "2.2250738585072014e-308" = Ok 0x1p-1022%float
  /\ stod "4.9e-324" = Throw StodOutOfRange
  /\ stod "1e-400" = Throw StodOutOfRange
  /\ stod "1e400" = Throw StodOutOfRange.
Proof. repeat split; vm_compute; reflexivity. Qed.

(** ** What failures mean *)

Section Failures.

Variable pow : float -> float -> float.
Variable expr : string.

Local Open Scope parser_scope.

(** [match] says why it missed. *)
Lemma match_cases ch c :
  (match_ expr ch c = (Ok true, increment (skipSpaces expr c))
   /\ pos (skipSpaces expr c) < size expr
   /\ at_ expr (pos (skipSpaces expr c)) = ch)
  \/ (match_ expr ch c = (Ok false, skipSpaces expr c)
      /\ (pos (skipSpaces expr c) < size expr ->
          at_ expr (pos (skipSpaces expr c)) <> ch)).
Proof.
  unfold match_.
  destruct (pos (skipSpaces expr c) <? size expr)%nat eqn:Hlt; simpl.
  - apply Nat.ltb_lt in Hlt.
    destruct (at_ expr (pos (skipSpaces expr c)) =? ch)%char eqn:Hch.
    + left. apply Ascii.eqb_eq in Hch. auto.
    + right. apply Ascii.eqb_neq in Hch. auto.
  - right. apply Nat.ltb_ge in Hlt. split; [reflexivity | lia].
Qed.

Lemma stod_defined str : stod str <> Undefined.
Proof.
  unfold stod.
  destruct (read_digits str 0 0) as [[m1 n1] rest].
  destruct (match rest with
            | String "." t => read_digits t m1 0
            | _ => (m1, 0, rest)
            end) as [[m n2] rest'].
  destruct (n1 + n2 =? 0)%nat; [discriminate |].
  generalize (round_decimal m (read_exponent rest' - Z.of_nat n2)).
  intros [s | s | | s m2 e2]; try discriminate.
  - destruct (m =? 0)%Z; discriminate.
  - destruct (_ && _); discriminate.
Qed.

Lemma accounted_ret {A} (a : A) : accounted expr (ret a).
Proof. intros c _; exact I. Qed.

Lemma accounted_bind {A B} (m : M A) (k : A -> M B) :
  accounted expr m -> orderly expr m -> (forall a, accounted expr (k a)) ->
  accounted expr (bind m k).
Proof.
  intros Hm Om Hk c Hc. unfold bind.
  specialize (Hm c Hc). pose proof (Om c Hc) as Ht.
  destruct (m c) as [[a | e | | ] c1]; simpl in *; try exact Hm.
  apply Hk. eapply trail_inside; eassumption.
Qed.

(** In the branch where a character matched, the text has it. *)
Lemma accounted_match_bind {B} ch (k : bool -> M B) :
  (contains expr ch -> accounted expr (k true)) ->
  accounted expr (k false) ->
  accounted expr (bind (match_ expr ch) k).
Proof.
  intros Ht Hf c Hc. unfold bind.
  pose proof (trail_inside _ _ _ (skipSpaces_trail expr c) Hc) as Hi.
  destruct (match_cases ch c) as [(-> & Hlt & Hch) | (-> & _)].
  - apply Ht; [exists (pos (skipSpaces expr c)); auto | simpl; lia].
  - apply Hf; exact Hi.
Qed.

Lemma accounted_divide val d :
  contains expr "/" -> accounted expr (lift (divide val d)).
Proof.
  intros H c _. unfold lift, divide; simpl.
  destruct (d =? 0)%float; [exact H | exact I].
Qed.

Lemma accounted_modulo val rhs :
  contains expr "%" -> accounted expr (lift (modulo val rhs)).
Proof.
  intros H c _. unfold lift, modulo; simpl.
  destruct (to_long_long val) as [a |]; [| exact H].
  destruct (to_long_long rhs) as [b |]; [| exact H].
  destruct (b =? 0)%Z; [exact H |].
  destruct ((a =? LLONG_MIN)%Z && (b =? -1)%Z); [exact H | exact I].
Qed.

(** A digit or a point under the cursor is consumed by [parseNumber]. *)
Lemma parseNumber_takes_mantissa c :
  on_space expr c = false -> pos c < size expr ->
  isdigit (at_ expr (pos c)) || (at_ expr (pos c) =? ".")%char = true ->
  pos c < pos (snd (parseNumber expr c)).
Proof.
  intros Hsp Hlt Hch. unfold parseNumber.
  rewrite (skipSpaces_fixed expr c Hsp).
  assert (Hadv : pos c < pos (snd (mantissa_loop expr (size expr - pos c)
                                     false false c))).
  { destruct (size expr - pos c) as [| n] eqn:En; [lia |]. simpl.
    replace (pos c <? size expr)%nat with true
      by (symmetry; now apply Nat.ltb_lt).
    destruct (isdigit (at_ expr (pos c))) eqn:Hd.
    - pose proof (trail_forward _ _ _
                    (mantissa_loop_trail expr n true false (increment c))).
      simpl in *. lia.
    - simpl in Hch. rewrite Hch. simpl.
      pose proof (trail_forward _ _ _
                    (mantissa_loop_trail expr n false true (increment c))).
      simpl in *. lia. }
  destruct (mantissa_loop expr (size expr - pos c) false false c)
    as [[seenDigit seenDot] c1]; simpl in Hadv.
  pose proof (trail_forward _ _ _ (exponent_suffix_trail expr c1)) as He.
  destruct (_ && _); simpl; lia.
Qed.

Lemma read_digits_count s acc n :
  n <= snd (fst (read_digits s acc n)).
Proof.
  revert acc n. induction s as [| ch s IH]; intros acc n; [simpl; lia |].
  cbn [read_digits]. destruct (isdigit ch); [| simpl; lia].
  eapply Nat.le_trans; [| apply IH]. lia.
Qed.

(** [stod] converts whatever starts with a digit. *)
Lemma stod_leading_digit ch s :
  isdigit ch = true -> stod (String ch s) <> Throw StodInvalidArgument.
Proof.
  intros Hd. unfold stod. cbn [read_digits]. rewrite Hd.
  match goal with
  | |- context [read_digits s ?a ?n] =>
      pose proof (read_digits_count s a n) as Hn;
      destruct (read_digits s a n) as [[m1 n1] rest]
  end.
  simpl in Hn.
  destruct (match rest with
            | String "." t => read_digits t m1 0
            | _ => (m1, 0, rest)
            end) as [[m n2] rest'].
  replace (n1 + n2 =? 0)%nat with false
    by (symmetry; apply Nat.eqb_neq; lia).
  generalize (round_decimal m (read_exponent rest' - Z.of_nat n2)).
  intros [s0 | s0 | | s0 m2 e2]; try discriminate.
  - destruct (m =? 0)%Z; discriminate.
  - destruct (_ && _); discriminate.
Qed.

Lemma substring_head s start len :
  start < String.length s ->
  substring start (S len) s
  = String (match String.get start s with
            | Some ch => ch
            | None => Ascii.zero
            end) (substring (S start) len s).
Proof.
  revert start. induction s as [| ch s IH]; intros start Hlt; simpl in Hlt;
    [lia |].
  destruct start as [| start]; simpl.
  - destruct s; reflexivity.
  - rewrite IH by lia. reflexivity.
Qed.

Lemma mantissa_loop_at_end n seenDigit seenDot c :
  size expr <= pos c ->
  snd (mantissa_loop expr n seenDigit seenDot c) = c.
Proof.
  intros H. destruct n as [| n]; simpl; [reflexivity |].
  replace (pos c <? size expr)%nat with false
    by (symmetry; now apply Nat.ltb_ge). reflexivity.
Qed.

Lemma exponent_suffix_at_end c :
  size expr <= pos c -> exponent_suffix expr c = c.
Proof.
  intros H. unfold exponent_suffix.
  replace (pos c <? size expr)%nat with false
    by (symmetry; now apply Nat.ltb_ge). reflexivity.
Qed.

(** When the [std::invalid_argument] of [stod] comes out of
    [parseNumber], the literal starts with a point or with an exponent
    marker. *)
Lemma parseNumber_invalid_argument c :
  fst (parseNumber expr c) = Throw StodInvalidArgument ->
  pos (skipSpaces expr c) < size expr
  /\ (at_ expr (pos (skipSpaces expr c)) = "."%char
      \/ is_exponent_marker (at_ expr (pos (skipSpaces expr c))) = true).
Proof.
  unfold parseNumber.
  set (c0 := skipSpaces expr c).
  pose proof (mantissa_loop_literal expr (size expr - pos c0) false false c0)
    as Hl.
  pose proof (mantissa_loop_seen expr (size expr - pos c0) false false c0)
    as Hd.
  pose proof (trail_forward _ _ _
                (mantissa_loop_trail expr (size expr - pos c0) false false c0))
    as Hf.
  pose proof (mantissa_loop_at_end (size expr - pos c0) false false c0)
    as Hin.
  destruct (mantissa_loop expr (size expr - pos c0) false false c0)
    as [[seenDigit seenDot] c1]; simpl in Hl, Hd, Hf, Hin.
  pose proof (exponent_suffix_literal expr c1) as He.
  pose proof (trail_forward _ _ _ (exponent_suffix_trail expr c1)) as Hf2.
  pose proof (exponent_suffix_at_end c1) as Hin2.
  set (c2 := exponent_suffix expr c1) in *.
  destruct (pos c0 <? pos c2)%nat eqn:Hlt.
  2:{ apply Nat.ltb_ge in Hlt.
      destruct seenDigit; simpl; [| discriminate].
      destruct (Hd eq_refl); [discriminate | lia]. }
  apply Nat.ltb_lt in Hlt. rewrite andb_false_r. cbn [fst].
  intros Hs.
  assert (Hsize : pos c0 < size expr).
  { destruct (Nat.lt_ge_cases (pos c0) (size expr)) as [H | H];
      [exact H | exfalso].
    specialize (Hin H). subst c1. specialize (Hin2 H).
    subst c2. rewrite Hin2 in Hlt. lia. }
  split; [exact Hsize |].
  destruct (pos c2 - pos c0) as [| len] eqn:El; [lia |].
  rewrite substring_head in Hs by exact Hsize.
  fold (at_ expr (pos c0)) in Hs.
  destruct (Nat.lt_ge_cases (pos c0) (pos c1)) as [Hm | Hm].
  - specialize (Hl (pos c0) ltac:(lia)).
    apply orb_true_iff in Hl. destruct Hl as [Hdig | Hdot].
    + exfalso. now apply (stod_leading_digit _ _ Hdig) in Hs.
    + left. now apply Ascii.eqb_eq.
  - right. apply (He (pos c0)); lia.
Qed.

(** [parseNumber], reached by [parseFactor] after its three misses. *)
Lemma accounted_parseNumber_after_misses c :
  pos c <= size expr ->
  on_space expr c = false ->
  (pos c < size expr ->
   at_ expr (pos c) <> "+"%char /\ at_ expr (pos c) <> "-"%char
   /\ at_ expr (pos c) <> "("%char) ->
  explained expr (fst (parseNumber expr c)) (snd (parseNumber expr c)).
Proof.
  intros Hc Hsp Hmiss.
  destruct (fst (parseNumber expr c)) as [v | e | | ] eqn:E; try exact I.
  - destruct e; try exact I;
      try (apply parseNumber_invalid_argument in E;
           exists (pos (skipSpaces expr c)); exact E).
    + (* TrailingInput: never *)
      exfalso. revert E. unfold parseNumber.
      destruct (mantissa_loop expr _ false false _) as [[sd sdot] c1].
      destruct (_ && _); simpl; [discriminate |].
      intros H. apply stod_throws in H. destruct H; discriminate.
    + exfalso. revert E. unfold parseNumber.
      destruct (mantissa_loop expr _ false false _) as [[sd sdot] c1].
      destruct (_ && _); simpl; [discriminate |].
      intros H. apply stod_throws in H. destruct H; discriminate.
    + exfalso. revert E. unfold parseNumber.
      destruct (mantissa_loop expr _ false false _) as [[sd sdot] c1].
      destruct (_ && _); simpl; [discriminate |].
      intros H. apply stod_throws in H. destruct H; discriminate.
    + exfalso. revert E. unfold parseNumber.
      destruct (mantissa_loop expr _ false false _) as [[sd sdot] c1].
      destruct (_ && _); simpl; [discriminate |].
      intros H. apply stod_throws in H. destruct H; discriminate.
    + apply expected_number_iff in E. destruct E as [Hpos ->].
      rewrite (skipSpaces_fixed expr c Hsp) in *.
      split; [symmetry; exact Hpos | split; [exact Hc |]].
      intros Hlt. split.
      * unfold on_space in Hsp. apply Nat.ltb_lt in Hlt.
        rewrite Hlt in Hsp. exact Hsp.
      * destruct (Hmiss Hlt) as (H1 & H2 & H3).
        unfold opens_factor.
        apply Ascii.eqb_neq in H1, H2, H3. rewrite H1, H2, H3. simpl.
        destruct (isdigit (at_ expr (pos c)) || (at_ expr (pos c) =? ".")%char)
          eqn:Hd; [| reflexivity].
        pose proof (parseNumber_takes_mantissa c Hsp Hlt Hd). lia.
  - exfalso. revert E. unfold parseNumber.
    destruct (mantissa_loop expr _ false false _) as [[sd sdot] c1].
    destruct (_ && _); simpl; [discriminate | apply stod_defined].
Qed.

Lemma accounted_grammar fuel :
  accounted expr (parseExpression pow expr fuel)
  /\ (forall val, accounted expr (parseExpression_loop pow expr fuel val))
  /\ accounted expr (parseTerm pow expr fuel)
  /\ (forall val, accounted expr (parseTerm_loop pow expr fuel val))
  /\ accounted expr (parsePower pow expr fuel)
  /\ accounted expr (parseFactor pow expr fuel).
Proof.
  induction fuel as [| fuel (HE & HEL & HT & HTL & HP & HF)].
  - repeat split; intros; intros c _; exact I.
  - destruct (orderly_grammar pow expr fuel)
      as (OE & OEL & OT & OTL & OP & OF).
    repeat split; intros.
    + rewrite parseExpression_S. now apply accounted_bind.
    + rewrite parseExpression_loop_S.
      apply accounted_match_bind; [intros _; now apply accounted_bind |].
      apply accounted_match_bind; [intros _; now apply accounted_bind |].
      apply accounted_ret.
    + rewrite parseTerm_S. now apply accounted_bind.
    + rewrite parseTerm_loop_S.
      apply accounted_match_bind; [intros _; now apply accounted_bind |].
      apply accounted_match_bind.
      { intros Hslash. apply accounted_bind; [exact HP | exact OP |].
        intros d. apply accounted_bind;
          [now apply accounted_divide | apply orderly_lift | exact HTL]. }
      apply accounted_match_bind.
      { intros Hpercent. apply accounted_bind; [exact HP | exact OP |].
        intros rhs. apply accounted_bind;
          [now apply accounted_modulo | apply orderly_lift | exact HTL]. }
      apply accounted_bind;
        [intros c _; exact I | apply orderly_nextStartsFactor |].
      intros []; [now apply accounted_bind | apply accounted_ret].
    + rewrite parsePower_S.
      apply accounted_bind; [exact HF | exact OF |]. intros base.
      apply accounted_bind;
        [intros c _; unfold matchStr;
         destruct (matchStr_loop expr "**" _ 0) as [i []]; exact I
        | apply orderly_matchStr |].
      intros starstar.
      apply accounted_bind.
      { destruct starstar; [apply accounted_ret |].
        intros c _. unfold match_. destruct (_ && _); exact I. }
      { destruct starstar; [apply orderly_ret | apply orderly_match]. }
      intros []; [| apply accounted_ret].
      apply accounted_bind; [exact HP | exact OP |].
      intros; apply accounted_ret.
    + intros c Hc. rewrite parseFactor_S.
      pose proof (trail_inside _ _ _ (skipSpaces_trail expr c) Hc) as Hi.
      pose proof (skipSpaces_exit expr c) as Hsp.
      set (c0 := skipSpaces expr c) in *.
      assert (Hfix : skipSpaces expr c0 = c0)
        by (apply skipSpaces_fixed; exact Hsp).
      destruct (match_cases "+" c0) as [(E & Hlt & _) | (E & Hplus)];
        rewrite Hfix in *; rewrite (bind_Ok _ _ _ _ _ E); clear E.
      { apply HF. simpl. lia. }
      destruct (match_cases "-" c0) as [(E & Hlt & _) | (E & Hminus)];
        rewrite Hfix in *; rewrite (bind_Ok _ _ _ _ _ E); clear E.
      { apply accounted_bind;
          [exact HF | exact OF | intros; apply accounted_ret | simpl; lia]. }
      destruct (match_cases "(" c0) as [(E & Hlt & Hch) | (E & Hparen)];
        rewrite Hfix in *; rewrite (bind_Ok _ _ _ _ _ E); clear E.
      { assert (Hin : contains expr "(") by (exists (pos c0); auto).
        apply accounted_bind; [exact HE | exact OE | | simpl; lia].
        intros v. apply accounted_bind.
        - intros c1 _. unfold match_. destruct (_ && _); exact I.
        - apply orderly_match.
        - intros []; [apply accounted_ret | intros c1 _; exact Hin]. }
      apply accounted_parseNumber_after_misses; [exact Hi | exact Hsp |].
      intros Hlt. auto.
Qed.

End Failures.

(** ** Where a successful production stops *)

Section Stops.

Variable pow : float -> float -> float.
Variable expr : string.

Local Open Scope parser_scope.

Lemma matchStr_starstar_cases c :
  (matchStr expr "**" c
   = (Ok true, assign (pos (skipSpaces expr c) + 2) (skipSpaces expr c))
   /\ S (pos (skipSpaces expr c)) < size expr)
  \/ (matchStr expr "**" c = (Ok false, skipSpaces expr c)
      /\ ~ (S (pos (skipSpaces expr c)) < size expr
            /\ at_ expr (pos (skipSpaces expr c)) = "*"%char
            /\ at_ expr (S (pos (skipSpaces expr c))) = "*"%char)).
Proof.
  unfold matchStr. simpl. rewrite Nat.add_0_r, Nat.add_1_r.
  set (c0 := skipSpaces expr c).
  destruct (pos c0 <? size expr)%nat eqn:H0; simpl.
  - destruct (at_ expr (pos c0) =? "*")%char eqn:E0.
    + destruct (S (pos c0) <? size expr)%nat eqn:H1; simpl.
      * destruct (at_ expr (S (pos c0)) =? "*")%char eqn:E1.
        -- left. apply Nat.ltb_lt in H1. auto.
        -- right. split; [reflexivity |]. intros (_ & _ & H).
           apply Ascii.eqb_neq in E1. contradiction.
      * right. split; [reflexivity |]. apply Nat.ltb_ge in H1. lia.
    + right. split; [reflexivity |]. intros (_ & H & _).
      apply Ascii.eqb_neq in E0. contradiction.
  - right. split; [reflexivity |]. apply Nat.ltb_ge in H0. lia.
Qed.

Ltac bind_inv H :=
  let a := fresh "a" in
  let c := fresh "c" in
  let E := fresh "E" in
  apply bind_Ok_inv in H; destruct H as (a & c & E & H).

Ltac bind_step H E := rewrite (bind_Ok _ _ _ _ _ E) in H; clear E.

Ltac ret_inv H := unfold ret in H; injection H as <- <-.

Lemma nextStartsFactor_eq c :
  nextStartsFactor expr c =
  (Ok (let ch := if (pos (skipSpaces expr c) <? size expr)%nat
                 then at_ expr (pos (skipSpaces expr c)) else Ascii.zero in
       (ch =? "(")%char || isdigit ch || (ch =? ".")%char),
   skipSpaces expr c).
Proof. reflexivity. Qed.

Lemma stops_parsePower fuel c v c' :
  parsePower pow expr fuel c = (Ok v, c') -> after_power expr c'.
Proof.
  revert c v c'. induction fuel as [| fuel IH]; intros c v c' H;
    [discriminate |].
  rewrite parsePower_S in H. bind_inv H.
  destruct (matchStr_starstar_cases c0) as [(Es & _) | (Es & Hstars)];
    bind_step H Es.
  - unfold ret at 1 in H. unfold bind at 1 in H.
    bind_inv H. ret_inv H. eapply IH; eassumption.
  - destruct (match_cases expr "^" (skipSpaces expr c0))
      as [(Em & _) | (Em & Hcaret)]; bind_step H Em.
    + bind_inv H. ret_inv H. eapply IH; eassumption.
    + ret_inv H. rewrite skipSpaces_idem in *.
      split; [apply skipSpaces_exit | split; assumption].
Qed.

Lemma stops_parseTerm_loop fuel val c v c' :
  after_power expr c ->
  parseTerm_loop pow expr fuel val c = (Ok v, c') -> after_term expr c'.
Proof.
  revert val c v c'. induction fuel as [| fuel IH]; intros val c v c' Hc H;
    [discriminate |].
  destruct Hc as (Hsp & Hcaret & _).
  assert (Hfix : skipSpaces expr c = c) by now apply skipSpaces_fixed.
  rewrite parseTerm_loop_S in H.
  destruct (match_cases expr "*" c) as [(Em & _) | (Em & Hstar)];
    bind_step H Em.
  { bind_inv H. eapply IH; [| eassumption].
    eapply stops_parsePower; eassumption. }
  rewrite Hfix in *.
  destruct (match_cases expr "/" c) as [(Em & _) | (Em & Hslash)];
    bind_step H Em.
  { bind_inv H. bind_inv H. eapply IH; [| eassumption].
    unfold lift in E0. injection E0 as _ <-.
    eapply stops_parsePower; eassumption. }
  rewrite Hfix in *.
  destruct (match_cases expr "%" c) as [(Em & _) | (Em & Hpercent)];
    bind_step H Em.
  { bind_inv H. bind_inv H. eapply IH; [| eassumption].
    unfold lift in E0. injection E0 as _ <-.
    eapply stops_parsePower; eassumption. }
  rewrite Hfix in *.
  pose proof (nextStartsFactor_eq c) as En. rewrite Hfix in En.
  bind_step H En. cbv zeta in H.
  destruct (pos c <? size expr)%nat eqn:Hlt.
  - apply Nat.ltb_lt in Hlt.
    destruct ((at_ expr (pos c) =? "(")%char || isdigit (at_ expr (pos c))
              || (at_ expr (pos c) =? ".")%char) eqn:Hs.
    + bind_inv H. eapply IH; [| eassumption].
      eapply stops_parsePower; eassumption.
    + ret_inv H. split; [exact Hsp |]. intros _.
      split; [auto |]. unfold continues_term.
      specialize (Hstar Hlt). specialize (Hslash Hlt).
      specialize (Hpercent Hlt).
      apply Ascii.eqb_neq in Hstar, Hslash, Hpercent.
      rewrite Hstar, Hslash, Hpercent. simpl. exact Hs.
  - simpl in H. ret_inv H. apply Nat.ltb_ge in Hlt.
    split; [exact Hsp |]. intros; lia.
Qed.

Lemma stops_parseTerm fuel c v c' :
  parseTerm pow expr fuel c = (Ok v, c') -> after_term expr c'.
Proof.
  destruct fuel as [| fuel]; [discriminate |].
  rewrite parseTerm_S. intros H. bind_inv H.
  eapply stops_parseTerm_loop; [| eassumption].
  eapply stops_parsePower; eassumption.
Qed.

Lemma stops_parseExpression_loop fuel val c v c' :
  after_term expr c ->
  parseExpression_loop pow expr fuel val c = (Ok v, c') ->
  after_expression expr c'.
Proof.
  revert val c v c'. induction fuel as [| fuel IH]; intros val c v c' Hc H;
    [discriminate |].
  destruct Hc as (Hsp & Hterm).
  assert (Hfix : skipSpaces expr c = c) by now apply skipSpaces_fixed.
  rewrite parseExpression_loop_S in H.
  destruct (match_cases expr "+" c) as [(Em & _) | (Em & Hplus)];
    bind_step H Em.
  { bind_inv H. eapply IH; [| eassumption].
    eapply stops_parseTerm; eassumption. }
  rewrite Hfix in *.
  destruct (match_cases expr "-" c) as [(Em & _) | (Em & Hminus)];
    bind_step H Em.
  { bind_inv H. eapply IH; [| eassumption].
    eapply stops_parseTerm; eassumption. }
  rewrite Hfix in *. ret_inv H.
  split; [exact Hsp |]. intros Hlt.
  destruct (Hterm Hlt). auto.
Qed.

Lemma stops_parseExpression fuel c v c' :
  parseExpression pow expr fuel c = (Ok v, c') -> after_expression expr c'.
Proof.
  destruct fuel as [| fuel]; [discriminate |].
  rewrite parseExpression_S. intros H. bind_inv H.
  eapply stops_parseExpression_loop; [| eassumption].
  eapply stops_parseTerm; eassumption.
Qed.

End Stops.

(** ** What the errors of an evaluation mean *)

(** The grammar, run by [parse] from offset 0. *)
Lemma run_cases pow text :
  let r := parseExpression pow text (budget text) fresh in
  explained text (fst r) (snd r)
  /\ ((exists v, r = (Ok v, snd r) /\ after_expression text (snd r)
                 /\ 0 < pos (snd r) <= size text
                 /\ run pow text
                    = (if negb (pos (snd r) =? size text)%nat
                       then Throw (TrailingInput (pos (snd r))) else Ok v,
                       snd r))
      \/ ((forall v, fst r <> Ok v) /\ run pow text = r)).
Proof.
  intros r.
  assert (Hfresh : pos fresh <= size text) by (simpl; lia).
  split.
  { apply (proj1 (accounted_grammar pow text (budget text))). exact Hfresh. }
  unfold run, parse, bind. fold r.
  destruct r as [[v | e | | ] c] eqn:Er; simpl.
  - left. exists v.
    pose proof (stops_parseExpression pow text _ _ _ _ Er) as Hstop.
    pose proof (advances_parseExpression pow text _ _ _ _ Hfresh Er) as Hadv.
    pose proof (run_forward text _ _ _ _
                  (proj1 (orderly_grammar pow text (budget text))) Hfresh Er)
      as Hin.
    destruct Hstop as [Hsp Hch].
    rewrite (skipSpaces_fixed text c Hsp).
    assert (Hstop : after_expression text c) by (split; assumption).
    split; [reflexivity |]. split; [exact Hstop |].
    split; [simpl in *; lia |].
    destruct (negb (pos c =? size text)%nat); reflexivity.
  - right. split; [discriminate | reflexivity].
  - right. split; [discriminate | reflexivity].
  - right. split; [discriminate | reflexivity].
Qed.

(** A [TrailingInput] error reports the offset the cursor stopped on,
    which is inside the text and past its first character, and the
    character there is one no production could have consumed: not a
    space, an operator, an opening parenthesis, a digit or a point. *)
Theorem trailing_input_cannot_continue
  (pow : float -> float -> float) (text : string) (p : nat) (c : cursor)
  (H : run pow text = (Throw (TrailingInput p), c)) :
  p = pos c
  /\ 0 < p < String.length text
  /\ isspace (at_ text p) = false
  /\ at_ text p <> "^"%char
  /\ continues_term (at_ text p) = false
  /\ at_ text p <> "+"%char
  /\ at_ text p <> "-"%char.
Proof.
  destruct (run_cases pow text) as [Hexp [(v & Er & Hstop & Hpos & Hrun)
                                        | (Hno & Hrun)]].
  - rewrite Hrun in H.
    set (c1 := snd (parseExpression pow text (budget text) fresh)) in *.
    destruct (pos c1 =? size text)%nat eqn:Hend; simpl in H;
      [discriminate |].
    injection H as <- <-.
    apply Nat.eqb_neq in Hend.
    assert (Hlt : pos c1 < size text) by lia.
    destruct Hstop as (Hsp & Hch). destruct (Hch Hlt) as (H1 & H2 & H3 & H4).
    unfold on_space in Hsp.
    replace (pos c1 <? size text)%nat with true in Hsp
      by (symmetry; now apply Nat.ltb_lt).
    unfold size in Hlt.
    split; [reflexivity |]. split; [lia |].
    split; [exact Hsp |]. auto.
  - rewrite Hrun in H.
    destruct (parseExpression pow text (budget text) fresh) as [o c1].
    injection H as -> ->. simpl in Hexp. contradiction.
Qed.

(** [2)] stops on the closing parenthesis. *)
Lemma trailing_input_cannot_continue_witness :
  1 = 1 /\ 0 < 1 < String.length "2)"
  /\ isspace (at_ "2)" 1) = false
  /\ at_ "2)" 1 <> "^"%char
  /\ continues_term (at_ "2)" 1) = false
  /\ at_ "2)" 1 <> "+"%char
  /\ at_ "2)" 1 <> "-"%char.
Proof.
  exact (trailing_input_cannot_continue
           sample_pow "2)" 1 {| pos := 1; journal := [Increment 1] |}
           eq_refl).
Defined.

(** An [ExpectedNumber] error reports the offset the cursor stopped on:
    the end of the text, or a character that is neither a space nor one
    a factor can start with. *)
Theorem expected_number_points_at_no_factor
  (pow : float -> float -> float) (text : string) (p : nat) (c : cursor)
  (H : run pow text = (Throw (ExpectedNumber p), c)) :
  p = pos c
  /\ p <= String.length text
  /\ (p < String.length text ->
      isspace (at_ text p) = false /\ opens_factor (at_ text p) = false).
Proof.
  destruct (run_cases pow text) as [Hexp [(v & Er & Hstop & Hpos & Hrun)
                                        | (Hno & Hrun)]].
  - rewrite Hrun in H.
    destruct (negb _) in H; discriminate.
  - rewrite Hrun in H.
    destruct (parseExpression pow text (budget text) fresh) as [o c1].
    injection H as -> ->. simpl in Hexp. exact Hexp.
Qed.

(** [3 + ] lacks its right operand. *)
Lemma expected_number_points_at_no_factor_witness :
  4 = 4 /\ 4 <= String.length "3 + "
  /\ (4 < String.length "3 + " ->
      isspace (at_ "3 + " 4) = false /\ opens_factor (at_ "3 + " 4) = false).
Proof.
  exact (expected_number_points_at_no_factor
           sample_pow "3 + " 4
           {| pos := 4;
              journal := [Increment 4; Increment 3; Increment 2;
                          Increment 1] |}
           eq_refl).
Defined.

(** A division by zero, a modulo by zero, an undefined modulo and a
    missing closing parenthesis happen only on a text that has the
    operator concerned: ['/'], ['%'] or ['(']. *)
Theorem failure_has_its_operator_in_the_text
  (pow : float -> float -> float) (text : string) (ch : ascii)
  (H : blamed (evaluate pow text) = Some ch) :
  contains text ch.
Proof.
  unfold evaluate in H.
  destruct (run_cases pow text) as [Hexp [(v & Er & Hstop & Hpos & Hrun)
                                        | (Hno & Hrun)]].
  - rewrite Hrun in H. simpl in H. destruct (negb _) in H; discriminate.
  - rewrite Hrun in H.
    destruct (parseExpression pow text (budget text) fresh) as [o c1].
    simpl in H, Hexp.
    destruct o as [v | e | | ]; try discriminate.
    + destruct e; simpl in H; try discriminate;
        injection H as <-; exact Hexp.
    + injection H as <-. exact Hexp.
Qed.

(** [1/0] has its ['/']. *)
Lemma failure_has_its_operator_in_the_text_witness : contains "1/0" "/".
Proof.
  exact (failure_has_its_operator_in_the_text sample_pow "1/0" "/" eq_refl).
Defined.

(** ** Texts with no factor, and texts that are one literal *)

Section Ends.

Variable pow : float -> float -> float.
Variable expr : string.

Local Open Scope parser_scope.

Lemma mantissa_loop_still n seenDigit seenDot c :
  (pos c < size expr ->
   isdigit (at_ expr (pos c)) = false /\ at_ expr (pos c) <> "."%char) ->
  mantissa_loop expr n seenDigit seenDot c = (seenDigit, seenDot, c).
Proof.
  intros H. destruct n as [| n]; simpl; [reflexivity |].
  destruct (pos c <? size expr)%nat eqn:Hlt; [| reflexivity].
  apply Nat.ltb_lt in Hlt. destruct (H Hlt) as [Hd Hp].
  apply Ascii.eqb_neq in Hp. rewrite Hd, Hp. reflexivity.
Qed.

Lemma exponent_suffix_still c :
  (pos c < size expr -> is_exponent_marker (at_ expr (pos c)) = false) ->
  exponent_suffix expr c = c.
Proof.
  intros H. unfold exponent_suffix.
  destruct (pos c <? size expr)%nat eqn:Hlt; [| reflexivity].
  apply Nat.ltb_lt in Hlt. specialize (H Hlt).
  unfold is_exponent_marker in H. rewrite H. reflexivity.
Qed.

Lemma opens_factor_false ch :
  opens_factor ch = false ->
  ch <> "+"%char /\ ch <> "-"%char /\ ch <> "("%char
  /\ isdigit ch = false /\ ch <> "."%char.
Proof.
  unfold opens_factor. intros H.
  apply orb_false_iff in H. destruct H as [H Hdot].
  apply orb_false_iff in H. destruct H as [H Hdig].
  apply orb_false_iff in H. destruct H as [H Hparen].
  apply orb_false_iff in H. destruct H as [Hplus Hminus].
  repeat split; try assumption; now apply Ascii.eqb_neq.
Qed.

(** [parseFactor] on a character that opens no factor. *)
Lemma parseFactor_no_factor fuel c :
  (pos (skipSpaces expr c) < size expr ->
   opens_factor (at_ expr (pos (skipSpaces expr c))) = false
   /\ is_exponent_marker (at_ expr (pos (skipSpaces expr c))) = false) ->
  parseFactor pow expr (S fuel) c
  = (Throw (ExpectedNumber (pos (skipSpaces expr c))), skipSpaces expr c).
Proof.
  intros H. rewrite parseFactor_S.
  set (c0 := skipSpaces expr c) in *.
  pose proof (skipSpaces_exit expr c) as Hsp. fold c0 in Hsp.
  assert (Hfix : skipSpaces expr c0 = c0) by now apply skipSpaces_fixed.
  destruct (match_cases expr "+" c0) as [(E & Hlt & Hch) | (E & _)];
    rewrite Hfix in *.
  { destruct (H Hlt) as [Ho _]. apply opens_factor_false in Ho. tauto. }
  rewrite (bind_Ok _ _ _ _ _ E); clear E.
  destruct (match_cases expr "-" c0) as [(E & Hlt & Hch) | (E & _)];
    rewrite Hfix in *.
  { destruct (H Hlt) as [Ho _]. apply opens_factor_false in Ho. tauto. }
  rewrite (bind_Ok _ _ _ _ _ E); clear E.
  destruct (match_cases expr "(" c0) as [(E & Hlt & Hch) | (E & _)];
    rewrite Hfix in *.
  { destruct (H Hlt) as [Ho _]. apply opens_factor_false in Ho. tauto. }
  rewrite (bind_Ok _ _ _ _ _ E); clear E.
  unfold parseNumber. rewrite Hfix.
  rewrite mantissa_loop_still.
  2:{ intros Hlt. destruct (H Hlt) as [Ho _].
      apply opens_factor_false in Ho. tauto. }
  rewrite exponent_suffix_still by (intros Hlt; now destruct (H Hlt)).
  rewrite Nat.ltb_irrefl. reflexivity.
Qed.

(** At the end of the text nothing matches and both loops end. *)
Lemma match_at_end ch c :
  size expr <= pos c -> match_ expr ch c = (Ok false, c).
Proof.
  intros H.
  assert (Hfix : skipSpaces expr c = c).
  { apply skipSpaces_fixed. unfold on_space.
    replace (pos c <? size expr)%nat with false
      by (symmetry; now apply Nat.ltb_ge). reflexivity. }
  rewrite <- Hfix at 2. apply match_end. now rewrite Hfix.
Qed.

Lemma power_ends_at_end fuel c base c1 :
  parseFactor pow expr fuel c = (Ok base, c1) -> size expr <= pos c1 ->
  parsePower pow expr (S fuel) c = (Ok base, c1).
Proof.
  intros Hf Hend. rewrite parsePower_S.
  rewrite (bind_Ok _ _ _ _ _ Hf).
  assert (Hfix : skipSpaces expr c1 = c1).
  { apply skipSpaces_fixed. unfold on_space.
    replace (pos c1 <? size expr)%nat with false
      by (symmetry; now apply Nat.ltb_ge). reflexivity. }
  destruct (matchStr_starstar_cases expr c1) as [(_ & Hlt) | (E & _)];
    rewrite Hfix in *; [lia |].
  rewrite (bind_Ok _ _ _ _ _ E).
  rewrite (bind_Ok _ _ _ _ _ (match_at_end "^" c1 Hend)). reflexivity.
Qed.

Lemma term_loop_ends_at_end fuel val c :
  size expr <= pos c -> parseTerm_loop pow expr (S fuel) val c = (Ok val, c).
Proof.
  intros Hend. rewrite parseTerm_loop_S.
  rewrite (bind_Ok _ _ _ _ _ (match_at_end "*" c Hend)).
  rewrite (bind_Ok _ _ _ _ _ (match_at_end "/" c Hend)).
  rewrite (bind_Ok _ _ _ _ _ (match_at_end "%" c Hend)).
  assert (Hfix : skipSpaces expr c = c).
  { apply skipSpaces_fixed. unfold on_space.
    replace (pos c <? size expr)%nat with false
      by (symmetry; now apply Nat.ltb_ge). reflexivity. }
  pose proof (nextStartsFactor_eq expr c) as En. rewrite Hfix in En.
  replace (pos c <? size expr)%nat with false in En
    by (symmetry; now apply Nat.ltb_ge).
  rewrite (bind_Ok _ _ _ _ _ En). reflexivity.
Qed.

Lemma expression_loop_ends_at_end fuel val c :
  size expr <= pos c ->
  parseExpression_loop pow expr (S fuel) val c = (Ok val, c).
Proof.
  intros Hend. rewrite parseExpression_loop_S.
  rewrite (bind_Ok _ _ _ _ _ (match_at_end "+" c Hend)).
  rewrite (bind_Ok _ _ _ _ _ (match_at_end "-" c Hend)). reflexivity.
Qed.

(** A failure of [parseFactor] is that of the whole [parse]. *)
Lemma parse_fails_with_its_first_factor fuel (o : outcome float) c c' :
  parseFactor pow expr fuel c = (o, c') -> (forall v, o <> Ok v) ->
  parse pow expr (S (S (S fuel))) c = (o, c').
Proof.
  intros H Hno. unfold parse.
  rewrite parseExpression_S, parseTerm_S, parsePower_S.
  unfold bind. rewrite H.
  destruct o as [v | e | | ]; try reflexivity.
  exfalso. now apply (Hno v).
Qed.

End Ends.

Lemma substring_whole s : substring 0 (String.length s) s = s.
Proof.
  induction s as [| ch s IH]; simpl; [reflexivity |]. now rewrite IH.
Qed.

(** [parse] from offset 0 on a text whose first character can start no
    number. *)
Lemma run_with_no_factor (pow : float -> float -> float) (text : string) :
  (pos (skipSpaces text fresh) < String.length text ->
   opens_factor (at_ text (pos (skipSpaces text fresh))) = false
   /\ is_exponent_marker (at_ text (pos (skipSpaces text fresh))) = false) ->
  run pow text
  = (Throw (ExpectedNumber (pos (skipSpaces text fresh))),
     skipSpaces text fresh).
Proof.
  intros H. unfold run, budget.
  replace (4 * String.length text + 4)
    with (S (S (S (S (4 * String.length text))))) by lia.
  apply parse_fails_with_its_first_factor; [| discriminate].
  now apply parseFactor_no_factor.
Qed.

(** A text whose first character after spaces can start no number (it is
    not a sign, an opening parenthesis, a digit, a point or an exponent
    marker), or which has nothing after its spaces, fails with
    [ExpectedNumber] at that offset. *)
Theorem text_with_no_factor_fails
  (pow : float -> float -> float) (text : string) :
  let c0 := skipSpaces text fresh in
  (pos c0 < String.length text ->
   opens_factor (at_ text (pos c0)) = false
   /\ is_exponent_marker (at_ text (pos c0)) = false) ->
  run pow text = (Throw (ExpectedNumber (pos c0)), c0).
Proof.
  intros c0 H. now apply run_with_no_factor.
Qed.

(** [  *3] starts with an operator. *)
Lemma text_with_no_factor_fails_witness :
  run sample_pow "  *3"
  = (Throw (ExpectedNumber 2),
     {| pos := 2; journal := [Increment 2; Increment 1] |}).
Proof.
  apply (text_with_no_factor_fails sample_pow "  *3").
  intros _. split; reflexivity.
Defined.

(** Blank input, and in particular the empty text, fails with
    [ExpectedNumber] at the end of the text. *)
Theorem blank_input_fails
  (pow : float -> float -> float) (text : string)
  (Hblank : forall p, p < String.length text -> isspace (at_ text p) = true) :
  evaluate pow text = Throw (ExpectedNumber (String.length text)).
Proof.
  pose proof (skipSpaces_exit text fresh) as Hsp.
  pose proof (trail_inside _ _ _ (skipSpaces_trail text fresh)
                ltac:(simpl; lia)) as Hin.
  assert (Hend : pos (skipSpaces text fresh) = String.length text).
  { unfold on_space in Hsp. unfold size in *.
    destruct (pos (skipSpaces text fresh) <? String.length text)%nat eqn:Hlt.
    - apply Nat.ltb_lt in Hlt. rewrite (Hblank _ Hlt) in Hsp. discriminate.
    - apply Nat.ltb_ge in Hlt. lia. }
  unfold evaluate.
  rewrite (run_with_no_factor pow text) by (intros Hlt; lia).
  simpl. now rewrite Hend.
Qed.

(** Three spaces. *)
Lemma blank_input_fails_witness :
  evaluate sample_pow "   " = Throw (ExpectedNumber 3).
Proof.
  apply (blank_input_fails sample_pow "   ").
  intros [| [| [| p]]] Hp; try reflexivity. simpl in Hp. lia.
Defined.

(** A text that [parseNumber] consumes whole, from a first character
    that is not a space, a sign or a parenthesis, evaluates to what
    [stod] makes of the text, be it a value or an exception. *)
Theorem single_literal_is_stod
  (pow : float -> float -> float) (text : string)
  (Hnonempty : 0 < String.length text)
  (Hfirst : isspace (at_ text 0) = false
            /\ at_ text 0 <> "+"%char /\ at_ text 0 <> "-"%char
            /\ at_ text 0 <> "("%char)
  (Hwhole : pos (snd (parseNumber text fresh)) = String.length text) :
  evaluate pow text = stod text.
Proof.
  destruct Hfirst as (Hsp & Hplus & Hminus & Hparen).
  assert (Hon : on_space text fresh = false)
    by (unfold on_space; simpl; rewrite Hsp; apply andb_false_r).
  assert (Hfix : skipSpaces text fresh = fresh) by now apply skipSpaces_fixed.
  assert (Hnum : parseNumber text fresh
                 = (stod text, snd (parseNumber text fresh))).
  { revert Hwhole. unfold parseNumber. rewrite Hfix.
    destruct (mantissa_loop text (size text - pos fresh) false false fresh)
      as [[seenDigit seenDot] c1].
    destruct (pos fresh <? pos (exponent_suffix text c1))%nat eqn:Hlt.
    - rewrite andb_false_r. simpl. intros ->.
      rewrite Nat.sub_0_r, substring_whole. reflexivity.
    - apply Nat.ltb_ge in Hlt. destruct (negb seenDigit && negb false);
        simpl; intros Hw; simpl in Hlt; lia. }
  set (c1 := snd (parseNumber text fresh)) in *.
  assert (Hfactor : forall fuel,
             parseFactor pow text (S fuel) fresh = (stod text, c1)).
  { intros fuel. rewrite parseFactor_S. rewrite Hfix.
    destruct (match_cases text "+" fresh) as [(_ & _ & Hch) | (E & _)];
      rewrite Hfix in *; [contradiction |].
    rewrite (bind_Ok _ _ _ _ _ E); clear E.
    destruct (match_cases text "-" fresh) as [(_ & _ & Hch) | (E & _)];
      rewrite Hfix in *; [contradiction |].
    rewrite (bind_Ok _ _ _ _ _ E); clear E.
    destruct (match_cases text "(" fresh) as [(_ & _ & Hch) | (E & _)];
      rewrite Hfix in *; [contradiction |].
    rewrite (bind_Ok _ _ _ _ _ E); clear E.
    exact Hnum. }
  assert (Hend : size text <= pos c1) by (unfold size; lia).
  unfold evaluate, run, budget.
  replace (4 * String.length text + 4)
    with (S (S (S (S (4 * String.length text))))) by lia.
  destruct (stod text) as [v | e | | ] eqn:Es.
  - assert (Hpower : parsePower pow text (S (S (4 * String.length text))) fresh
                     = (Ok v, c1))
      by (apply power_ends_at_end; [apply Hfactor | exact Hend]).
    assert (Hterm : parseTerm pow text (S (S (S (4 * String.length text))))
                      fresh = (Ok v, c1)).
    { rewrite parseTerm_S. rewrite (bind_Ok _ _ _ _ _ Hpower).
      apply term_loop_ends_at_end. exact Hend. }
    assert (Hexpr : parseExpression pow text
                      (S (S (S (S (4 * String.length text))))) fresh
                    = (Ok v, c1)).
    { rewrite parseExpression_S. rewrite (bind_Ok _ _ _ _ _ Hterm).
      apply expression_loop_ends_at_end. exact Hend. }
    unfold parse. rewrite (bind_Ok _ _ _ _ _ Hexpr).
    assert (Hfix1 : skipSpaces text c1 = c1).
    { apply skipSpaces_fixed. unfold on_space.
      replace (pos c1 <? size text)%nat with false
        by (symmetry; now apply Nat.ltb_ge). reflexivity. }
    rewrite Hfix1. unfold size. rewrite Hwhole, Nat.eqb_refl. reflexivity.
  - rewrite (parse_fails_with_its_first_factor pow text _ (Throw e) fresh c1);
      [reflexivity | apply Hfactor | discriminate].
  - rewrite (parse_fails_with_its_first_factor pow text _ Undefined fresh c1);
      [reflexivity | apply Hfactor | discriminate].
  - rewrite (parse_fails_with_its_first_factor pow text _ OutOfFuel fresh c1);
      [reflexivity | apply Hfactor | discriminate].
Qed.

(** [1.5e3] is one literal. *)
Lemma single_literal_is_stod_witness :
  evaluate sample_pow "1.5e3" = stod "1.5e3".
Proof.
  apply (single_literal_is_stod sample_pow "1.5e3").
  - simpl. lia.
  - repeat split; discriminate.
  - reflexivity.
Defined.

(** ** Texts without an exponent operator *)

Section NoExponent.

Variables pow1 pow2 : float -> float -> float.
Variable expr : string.
Hypothesis Hno : no_exponent expr.

Local Open Scope parser_scope.

Lemma matchStr_starstar_found c c' :
  matchStr expr "**" c = (Ok true, c') ->
  at_ expr (pos (skipSpaces expr c)) = "*"%char
  /\ at_ expr (S (pos (skipSpaces expr c))) = "*"%char.
Proof.
  unfold matchStr. simpl. rewrite Nat.add_0_r, Nat.add_1_r.
  destruct (pos (skipSpaces expr c) <? size expr)%nat; simpl;
    [| discriminate].
  destruct (at_ expr (pos (skipSpaces expr c)) =? "*")%char eqn:E0;
    [| discriminate].
  destruct (S (pos (skipSpaces expr c)) <? size expr)%nat; simpl;
    [| discriminate].
  destruct (at_ expr (S (pos (skipSpaces expr c))) =? "*")%char eqn:E1;
    [| discriminate].
  intros _. apply Ascii.eqb_eq in E0, E1. auto.
Qed.

(** Without an operator to find, [parsePower] is [parseFactor] followed
    by the spaces skipped while looking for one. *)
Lemma parsePower_without_operator pow fuel c :
  parsePower pow expr (S fuel) c =
  (base <- parseFactor pow expr fuel ;;
   fun c1 => (Ok base, skipSpaces expr c1)) c.
Proof.
  rewrite parsePower_S. unfold bind, ret.
  destruct (parseFactor pow expr fuel c) as [[base | e | | ] c1];
    try reflexivity.
  destruct (matchStr_starstar_cases expr c1) as [(E & _) | (E & _)].
  - exfalso. apply matchStr_starstar_found in E. destruct E as [E0 E1].
    now apply (proj2 (Hno (pos (skipSpaces expr c1)))).
  - rewrite E. cbv beta iota.
    destruct (match_cases expr "^" (skipSpaces expr c1))
      as [(_ & _ & Hch) | (E' & _)].
    + exfalso.
      now apply (proj1 (Hno (pos (skipSpaces expr (skipSpaces expr c1))))).
    + rewrite E'. cbv beta iota. rewrite skipSpaces_idem. reflexivity.
Qed.

Lemma grammar_ignores_pow fuel :
  (forall c, parseExpression pow1 expr fuel c = parseExpression pow2 expr fuel c)
  /\ (forall val c, parseExpression_loop pow1 expr fuel val c
                    = parseExpression_loop pow2 expr fuel val c)
  /\ (forall c, parseTerm pow1 expr fuel c = parseTerm pow2 expr fuel c)
  /\ (forall val c, parseTerm_loop pow1 expr fuel val c
                    = parseTerm_loop pow2 expr fuel val c)
  /\ (forall c, parsePower pow1 expr fuel c = parsePower pow2 expr fuel c)
  /\ (forall c, parseFactor pow1 expr fuel c = parseFactor pow2 expr fuel c).
Proof.
  induction fuel as [| fuel (HE & HEL & HT & HTL & HP & HF)].
  - repeat split; reflexivity.
  - repeat split; intros.
    + rewrite !parseExpression_S. unfold bind. rewrite HT.
      destruct (parseTerm pow2 expr fuel c) as [[v | e | | ] c1];
        try reflexivity. apply HEL.
    + rewrite !parseExpression_loop_S. unfold bind, ret.
      destruct (match_ expr "+" c) as [[[|] | e | | ] c1]; try reflexivity.
      { rewrite HT. destruct (parseTerm pow2 expr fuel c1)
          as [[v | e | | ] c2]; try reflexivity. apply HEL. }
      destruct (match_ expr "-" c1) as [[[|] | e | | ] c2]; try reflexivity.
      rewrite HT. destruct (parseTerm pow2 expr fuel c2)
        as [[v | e | | ] c3]; try reflexivity. apply HEL.
    + rewrite !parseTerm_S. unfold bind. rewrite HP.
      destruct (parsePower pow2 expr fuel c) as [[v | e | | ] c1];
        try reflexivity. apply HTL.
    + rewrite !parseTerm_loop_S. unfold bind, ret, lift.
      destruct (match_ expr "*" c) as [[[|] | e | | ] c1]; try reflexivity.
      { rewrite HP. destruct (parsePower pow2 expr fuel c1)
          as [[v | e | | ] c2]; try reflexivity. apply HTL. }
      destruct (match_ expr "/" c1) as [[[|] | e | | ] c2]; try reflexivity.
      { rewrite HP. destruct (parsePower pow2 expr fuel c2)
          as [[v | e | | ] c3]; try reflexivity.
        destruct (divide val v); try reflexivity. apply HTL. }
      destruct (match_ expr "%" c2) as [[[|] | e | | ] c3]; try reflexivity.
      { rewrite HP. destruct (parsePower pow2 expr fuel c3)
          as [[v | e | | ] c4]; try reflexivity.
        destruct (modulo val v); try reflexivity. apply HTL. }
      destruct (nextStartsFactor expr c3) as [[[|] | e | | ] c4];
        try reflexivity.
      rewrite HP. destruct (parsePower pow2 expr fuel c4)
        as [[v | e | | ] c5]; try reflexivity. apply HTL.
    + rewrite !parsePower_without_operator. unfold bind. rewrite HF.
      reflexivity.
    + rewrite !parseFactor_S. unfold bind, ret.
      generalize (skipSpaces expr c) as c0. intros c0.
      destruct (match_ expr "+" c0) as [[[|] | e | | ] c1]; try reflexivity.
      { apply HF. }
      destruct (match_ expr "-" c1) as [[[|] | e | | ] c2]; try reflexivity.
      { rewrite HF. reflexivity. }
      destruct (match_ expr "(" c2) as [[[|] | e | | ] c3]; try reflexivity.
      rewrite HE. reflexivity.
Qed.

End NoExponent.

(** On a text with no ['^'] and no ["**"], [pow] is never called: the
    evaluation, outcome and cursor, is the same whatever [pow] is. *)
Theorem evaluation_without_exponent_ignores_pow
  (pow1 pow2 : float -> float -> float) (text : string)
  (Hno : no_exponent text) :
  run pow1 text = run pow2 text.
Proof.
  unfold run, parse, bind.
  rewrite (proj1 (grammar_ignores_pow pow1 pow2 text Hno (budget text))).
  reflexivity.
Qed.

(** [2*3+4] has no exponent operator. *)
Lemma evaluation_without_exponent_ignores_pow_witness :
  run sample_pow "2*3+4" = run (fun _ _ => nan) "2*3+4".
Proof.
  apply evaluation_without_exponent_ignores_pow.
  intros [| [| [| [| [| p]]]]]; split; simpl; discriminate.
Defined.

(** The [std::invalid_argument] of [stod] escapes an evaluation only
    when the text has a point or an exponent marker. *)
Theorem invalid_argument_needs_a_point_or_a_marker
  (pow : float -> float -> float) (text : string)
  (H : evaluate pow text = Throw StodInvalidArgument) :
  exists p, p < String.length text
            /\ (at_ text p = "."%char
                \/ is_exponent_marker (at_ text p) = true).
Proof.
  unfold evaluate in H.
  destruct (run_cases pow text) as [Hexp [(v & Er & Hstop & Hpos & Hrun)
                                        | (Hno & Hrun)]].
  - rewrite Hrun in H. simpl in H. destruct (negb _) in H; discriminate.
  - rewrite Hrun in H.
    destruct (parseExpression pow text (budget text) fresh) as [o c1].
    simpl in H, Hexp. subst o. exact Hexp.
Qed.

(** [.e5] has both. *)
Lemma invalid_argument_needs_a_point_or_a_marker_witness :
  exists p, p < String.length ".e5"
            /\ (at_ ".e5" p = "."%char
                \/ is_exponent_marker (at_ ".e5" p) = true).
Proof.
  exact (invalid_argument_needs_a_point_or_a_marker sample_pow ".e5" eq_refl).
Defined.

(** ** The loop of [main] *)

Section Session.

Variable pow : float -> float -> float.
Variable show : float -> string.

(** The budget of [evaluate] is enough on every text. *)
Lemma evaluate_has_fuel text : evaluate pow text <> OutOfFuel.
Proof.
  unfold evaluate.
  destruct (run_cases pow text) as [_ [(v & _ & _ & _ & Hrun) | (Hno & Hrun)]].
  - rewrite Hrun. simpl. destruct (negb _); discriminate.
  - rewrite Hrun.
    pose proof (safe_grammar pow text (budget text) (String.length text))
      as (Hsafe & _).
    apply Hsafe; [unfold budget; lia | simpl; lia | simpl; unfold size; lia].
Qed.

Lemma main_loop_stops_at_quit before line after :
  quits line = true ->
  main_loop pow show (before ++ line :: after) = main_loop pow show before.
Proof.
  intros Hq. induction before as [| l before IH]; simpl.
  - now rewrite Hq.
  - destruct (quits l); [reflexivity |]. now rewrite IH.
Qed.

End Session.

(** [main] stops reading at the first line that is [q] or [Q]: what
    follows it is never evaluated, and the output is the one of an input
    that ends there. *)
Theorem main_stops_at_the_first_quit
  (pow : float -> float -> float) (show : float -> string)
  (before after : list string) (line : string)
  (Hquit : quits line = true) :
  main pow show (before ++ line :: after) = main pow show before.
Proof.
  unfold main. now rewrite main_loop_stops_at_quit.
Qed.

(** A [Q] between two expressions. *)
Lemma main_stops_at_the_first_quit_witness :
  main sample_pow (fun _ => "") ["1+1"; "Q"; "1%0"]
  = main sample_pow (fun _ => "") ["1+1"].
Proof.
  exact (main_stops_at_the_first_quit
           sample_pow (fun _ => "") ["1+1"] ["1%0"] "Q" eq_refl).
Defined.

(** ** More fuel changes nothing *)

Section MoreFuel.

Variable pow : float -> float -> float.
Variable expr : string.

Local Open Scope parser_scope.

Lemma extends_refl {A} (m : M A) : extends m m.
Proof. intros c _; reflexivity. Qed.

Lemma extends_bind {A B} (m m' : M A) (k k' : A -> M B) :
  extends m m' -> (forall a, extends (k a) (k' a)) ->
  extends (bind m k) (bind m' k').
Proof.
  intros Hm Hk c Hc. unfold bind in *.
  destruct (m c) as [[a | e | | ] c1] eqn:E; simpl in Hc;
    try (rewrite Hm by (rewrite E; discriminate); rewrite E; reflexivity).
  - rewrite Hm by (rewrite E; discriminate). rewrite E. now apply Hk.
  - contradiction.
Qed.

Lemma extends_if {A} (b : bool) (m1 m1' m2 m2' : M A) :
  extends m1 m1' -> extends m2 m2' ->
  extends (if b then m1 else m2) (if b then m1' else m2').
Proof. destruct b; auto. Qed.

Ltac extends_steps :=
  repeat first
    [ assumption
    | apply extends_refl
    | apply extends_bind
    | apply extends_if
    | match goal with
      | |- forall _ : bool, _ => intro
      | |- forall _ : float, _ => intro
      end ].

Lemma one_more_unit fuel :
  extends (parseExpression pow expr fuel) (parseExpression pow expr (S fuel))
  /\ (forall val, extends (parseExpression_loop pow expr fuel val)
                          (parseExpression_loop pow expr (S fuel) val))
  /\ extends (parseTerm pow expr fuel) (parseTerm pow expr (S fuel))
  /\ (forall val, extends (parseTerm_loop pow expr fuel val)
                          (parseTerm_loop pow expr (S fuel) val))
  /\ extends (parsePower pow expr fuel) (parsePower pow expr (S fuel))
  /\ extends (parseFactor pow expr fuel) (parseFactor pow expr (S fuel)).
Proof.
  induction fuel as [| fuel (HE & HEL & HT & HTL & HP & HF)].
  - repeat split; intros; intros c Hc; exfalso; apply Hc; reflexivity.
  - repeat split; intros.
    + rewrite (parseExpression_S pow expr (S fuel)), parseExpression_S.
      extends_steps.
    + rewrite (parseExpression_loop_S pow expr (S fuel)),
        parseExpression_loop_S.
      extends_steps; apply HEL.
    + rewrite (parseTerm_S pow expr (S fuel)), parseTerm_S. extends_steps.
    + rewrite (parseTerm_loop_S pow expr (S fuel)), parseTerm_loop_S.
      extends_steps; apply HTL.
    + rewrite (parsePower_S pow expr (S fuel)), parsePower_S. extends_steps.
    + intros c Hc. rewrite (parseFactor_S pow expr (S fuel)).
      rewrite parseFactor_S in Hc |- *. revert Hc.
      generalize (skipSpaces expr c). intros c0 Hc. revert c0 Hc.
      change (extends
                (plus <- match_ expr "+" ;;
                 if plus then parseFactor pow expr fuel
                 else
                   minus <- match_ expr "-" ;;
                   if minus then
                     v <- parseFactor pow expr fuel ;; ret (- v)%float
                   else
                     paren <- match_ expr "(" ;;
                     if paren then
                       v <- parseExpression pow expr fuel ;;
                       close <- match_ expr ")" ;;
                       if close then ret v else throw UnmatchedParenthesis
                     else parseNumber expr)
                (plus <- match_ expr "+" ;;
                 if plus then parseFactor pow expr (S fuel)
                 else
                   minus <- match_ expr "-" ;;
                   if minus then
                     v <- parseFactor pow expr (S fuel) ;; ret (- v)%float
                   else
                     paren <- match_ expr "(" ;;
                     if paren then
                       v <- parseExpression pow expr (S fuel) ;;
                       close <- match_ expr ")" ;;
                       if close then ret v else throw UnmatchedParenthesis
                     else parseNumber expr)).
      extends_steps.
Qed.

Lemma more_fuel_parse fuel extra c :
  fst (parse pow expr fuel c) <> OutOfFuel ->
  parse pow expr (fuel + extra) c = parse pow expr fuel c.
Proof.
  induction extra as [| extra IH]; intros H.
  - now rewrite Nat.add_0_r.
  - rewrite Nat.add_succ_r. rewrite <- (IH H).
    assert (Hx : extends (parse pow expr (fuel + extra))
                         (parse pow expr (S (fuel + extra)))).
    { unfold parse. apply extends_bind; [apply one_more_unit |].
      intros; apply extends_refl. }
    apply Hx. rewrite (IH H). exact H.
Qed.

End MoreFuel.

(** ** Reading two texts side by side *)

(** A space and a [')'] are none of the characters a number, a sign,
    a product or a parenthesised expression starts with. *)
Lemma stop_is_no_token ch :
  isspace ch = true \/ ch = ")"%char ->
  isdigit ch = false /\ is_exponent_marker ch = false
  /\ ch <> "."%char /\ ch <> "+"%char /\ ch <> "-"%char
  /\ ch <> "*"%char /\ ch <> "("%char.
Proof.
  intros [H | ->]; [| repeat split; discriminate].
  revert H. destruct ch as [[] [] [] [] [] [] [] []]; try discriminate;
    intros _; repeat split; discriminate.
Qed.

Section Simulation.

Variable pow : float -> float -> float.
Variables s s' : string.
Variable link : nat -> nat -> Prop.
Variable closing : nat -> Prop.

Hypothesis link_inside :
  forall p p', link p p' -> p < size s ->
               p' < size s' /\ at_ s' p' = at_ s p /\ link (S p) (S p').

Hypothesis link_end :
  forall p p', link p p' -> size s <= p -> p' < size s' ->
               (isspace (at_ s' p') = true /\ link p (S p')) \/ closing p'.

Hypothesis closing_char : forall p', closing p' -> at_ s' p' = ")"%char.

Local Open Scope parser_scope.

Local Abbreviation linked := (linked link).
Local Abbreviation synced := (synced s s' link closing).
Local Abbreviation same_outcome := (same_outcome s s' link closing).
Local Abbreviation related := (related s s' link closing).
Local Abbreviation simulates := (simulates s s' link closing).
Local Abbreviation simulates_at := (simulates_at s s' link closing).

(** Past the end of [s], the text [s'] holds no character a number, a
    sign, a product or a parenthesised expression starts with. *)
Lemma beyond_end p p' :
  link p p' -> size s <= p -> p' < size s' ->
  isdigit (at_ s' p') = false /\ is_exponent_marker (at_ s' p') = false
  /\ at_ s' p' <> "."%char /\ at_ s' p' <> "+"%char
  /\ at_ s' p' <> "-"%char /\ at_ s' p' <> "*"%char
  /\ at_ s' p' <> "("%char.
Proof.
  intros Hl Hge Hlt. apply stop_is_no_token.
  destruct (link_end _ _ Hl Hge Hlt) as [[H _] | H];
    [now left | right; now apply closing_char].
Qed.
Local Abbreviation in_step := (in_step s s').

Lemma skipSpaces_loop_at_end expr n c :
  size expr <= pos c -> skipSpaces_loop expr n c = c.
Proof.
  intros H. destruct n as [| n]; simpl; [reflexivity |].
  replace (pos c <? size expr)%nat with false
    by (symmetry; now apply Nat.ltb_ge). reflexivity.
Qed.

Lemma skipSpaces_loop_sim n' n c c' :
  size s - pos c <= n -> size s' - pos c' <= n' -> linked c c' ->
  synced (skipSpaces_loop s n c) (skipSpaces_loop s' n' c').
Proof.
  revert n c c'. induction n' as [| n' IH]; intros n c c' Hn Hn' Hl.
  - simpl. destruct (Nat.lt_ge_cases (pos c) (size s)) as [Hlt | Hge].
    + destruct (link_inside _ _ Hl Hlt) as (H & _). lia.
    + rewrite skipSpaces_loop_at_end by exact Hge.
      split; [exact Hl | intros _; left; lia].
  - destruct (Nat.lt_ge_cases (pos c) (size s)) as [Hlt | Hge].
    + destruct (link_inside _ _ Hl Hlt) as (Hlt' & Hch & Hnext).
      destruct n as [| n]; [lia |]. simpl.
      replace (pos c <? size s)%nat with true
        by (symmetry; now apply Nat.ltb_lt).
      replace (pos c' <? size s')%nat with true
        by (symmetry; now apply Nat.ltb_lt).
      rewrite Hch. simpl.
      destruct (isspace (at_ s (pos c))).
      * apply IH; simpl; [lia | lia | exact Hnext].
      * split; [exact Hl | intros ?; exfalso; lia].
    + rewrite skipSpaces_loop_at_end by exact Hge. simpl.
      destruct (pos c' <? size s')%nat eqn:Hlt'; simpl.
      * apply Nat.ltb_lt in Hlt'.
        destruct (link_end _ _ Hl Hge Hlt') as [(Hsp & Hnext) | Hcl].
        -- rewrite Hsp.
           rewrite <- (skipSpaces_loop_at_end s n c Hge).
           apply IH; simpl; [lia | lia | exact Hnext].
        -- rewrite (closing_char _ Hcl).
           change (isspace ")") with false. cbv iota.
           split; [exact Hl | intros _; now right].
      * apply Nat.ltb_ge in Hlt'. split; [exact Hl | intros _; left; lia].
Qed.

Lemma skipSpaces_sim c c' :
  linked c c' -> synced (skipSpaces s c) (skipSpaces s' c').
Proof. intros H. apply skipSpaces_loop_sim; [lia | lia | exact H]. Qed.

(** What being in step gives at the current character. *)
Lemma synced_cases c c' :
  synced c c' ->
  (pos c < size s /\ pos c' < size s'
   /\ at_ s' (pos c') = at_ s (pos c) /\ link (S (pos c)) (S (pos c')))
  \/ (size s <= pos c
      /\ forall ch, ch <> ")"%char ->
                    (pos c' <? size s')%nat && (at_ s' (pos c') =? ch)%char
                    = false).
Proof.
  intros [Hl He].
  destruct (Nat.lt_ge_cases (pos c) (size s)) as [Hlt | Hge].
  - left. destruct (link_inside _ _ Hl Hlt) as (H1 & H2 & H3). auto.
  - right. split; [exact Hge |]. intros ch Hch.
    destruct (He Hge) as [Hge' | Hcl].
    + replace (pos c' <? size s')%nat with false
        by (symmetry; now apply Nat.ltb_ge). reflexivity.
    + rewrite (closing_char _ Hcl).
      replace (")" =? ch)%char with false
        by (symmetry; apply Ascii.eqb_neq; congruence).
      apply andb_false_r.
Qed.

Lemma match_sim ch :
  ch <> ")"%char -> simulates (match_ s ch) (match_ s' ch).
Proof.
  intros Hne c c' Hl. unfold match_.
  pose proof (skipSpaces_sim c c' Hl) as Hs.
  destruct (synced_cases _ _ Hs) as [(Hlt & Hlt' & Hch & Hnext) | (Hge & Hge')].
  - replace (pos (skipSpaces s c) <? size s)%nat with true
      by (symmetry; now apply Nat.ltb_lt).
    replace (pos (skipSpaces s' c') <? size s')%nat with true
      by (symmetry; now apply Nat.ltb_lt).
    rewrite Hch. simpl.
    destruct (at_ s (pos (skipSpaces s c)) =? ch)%char; simpl.
    + split; [left; reflexivity | intros _ _; exact Hnext].
    + split; [left; reflexivity | intros _ _; exact (proj1 Hs)].
  - replace (pos (skipSpaces s c) <? size s)%nat with false
      by (symmetry; now apply Nat.ltb_ge).
    rewrite (Hge' ch Hne).
    simpl. split; [left; reflexivity | intros _ _; exact (proj1 Hs)].
Qed.

(** The closing parenthesis of [parseFactor]: where [s] ends and [s']
    has a [')'], the first fails and the second goes on. *)
Lemma match_close_sim (v : float) :
  simulates
    (close <- match_ s ")" ;;
     if close then ret v else throw UnmatchedParenthesis)
    (close <- match_ s' ")" ;;
     if close then ret v else throw UnmatchedParenthesis).
Proof.
  intros c c' Hl. unfold bind, match_.
  pose proof (skipSpaces_sim c c' Hl) as Hs.
  destruct (Nat.lt_ge_cases (pos (skipSpaces s c)) (size s)) as [Hlt | Hge].
  - destruct (link_inside _ _ (proj1 Hs) Hlt) as (Hlt' & Hch & Hnext).
    replace (pos (skipSpaces s c) <? size s)%nat with true
      by (symmetry; now apply Nat.ltb_lt).
    replace (pos (skipSpaces s' c') <? size s')%nat with true
      by (symmetry; now apply Nat.ltb_lt).
    rewrite Hch. simpl.
    destruct (at_ s (pos (skipSpaces s c)) =? ")")%char; simpl.
    + split; [left; reflexivity | intros _ _; exact Hnext].
    + split; [left; exact I | intros; discriminate].
  - replace (pos (skipSpaces s c) <? size s)%nat with false
      by (symmetry; now apply Nat.ltb_ge).
    cbn [andb fst snd throw].
    split; [| intros; discriminate].
    destruct (proj2 Hs Hge) as [Hge' | Hcl].
    + replace (pos (skipSpaces s' c') <? size s')%nat with false
        by (symmetry; now apply Nat.ltb_ge).
      left. exact I.
    + right. split; [now exists (pos (skipSpaces s' c')) |].
      intros a; discriminate.
Qed.

Lemma bind_sim_at {A B} (m m' : M A) (k k' : A -> M B) c c' :
  simulates_at m m' c c' -> (forall a, simulates (k a) (k' a)) ->
  simulates_at (bind m k) (bind m' k') c c'.
Proof.
  intros [Hr Hc] Hk. hnf. unfold bind.
  destruct (m c) as [[a | e | | ] c1]; simpl in Hr, Hc.
  - destruct Hr as [Hr | [_ Hno]]; [| exfalso; now apply (Hno a)].
    destruct (m' c') as [[a' | e' | | ] c1']; simpl in Hr; try contradiction.
    subst a'. apply Hk. now apply (Hc a).
  - split; [| intros; discriminate].
    destruct Hr as [Hr | [Ht _]];
      [left | right; split; [exact Ht | intros b; discriminate]].
    destruct (m' c') as [[a' | e' | | ] c1']; simpl in Hr; try contradiction.
    exact Hr.
  - split; [| intros; discriminate].
    destruct Hr as [Hr | [Ht _]];
      [left | right; split; [exact Ht | intros b; discriminate]].
    destruct (m' c') as [[a' | e' | | ] c1']; simpl in Hr; try contradiction.
    exact I.
  - split; [| intros; discriminate].
    destruct Hr as [Hr | [Ht _]];
      [left | right; split; [exact Ht | intros b; discriminate]].
    destruct (m' c') as [[a' | e' | | ] c1']; simpl in Hr; try contradiction.
    exact I.
Qed.

Lemma bind_sim {A B} (m m' : M A) (k k' : A -> M B) :
  simulates m m' -> (forall a, simulates (k a) (k' a)) ->
  simulates (bind m k) (bind m' k').
Proof.
  intros Hm Hk c c' Hl. apply bind_sim_at; [exact (Hm c c' Hl) | exact Hk].
Qed.

Lemma ret_sim {A} (a : A) : simulates (ret a) (ret a).
Proof. intros c c' Hl. split; [left; reflexivity | intros _ _; exact Hl]. Qed.

Lemma nextStartsFactor_sim :
  simulates (nextStartsFactor s) (nextStartsFactor s').
Proof.
  intros c c' Hl. rewrite !nextStartsFactor_eq. cbn [fst snd].
  pose proof (skipSpaces_sim c c' Hl) as Hs.
  split; [left | intros _ _; exact (proj1 Hs)].
  destruct (Nat.lt_ge_cases (pos (skipSpaces s c)) (size s)) as [Hlt | Hge].
  - destruct (link_inside _ _ (proj1 Hs) Hlt) as (Hlt' & Hch & _).
    replace (pos (skipSpaces s c) <? size s)%nat with true
      by (symmetry; now apply Nat.ltb_lt).
    replace (pos (skipSpaces s' c') <? size s')%nat with true
      by (symmetry; now apply Nat.ltb_lt).
    cbv zeta. now rewrite Hch.
  - replace (pos (skipSpaces s c) <? size s)%nat with false
      by (symmetry; now apply Nat.ltb_ge).
    destruct (pos (skipSpaces s' c') <? size s')%nat eqn:Hlt';
      [| reflexivity].
    apply Nat.ltb_lt in Hlt'.
    destruct (beyond_end _ _ (proj1 Hs) Hge Hlt')
      as (Hd & _ & Hdot & _ & _ & _ & Hparen).
    cbv zeta. apply Ascii.eqb_neq in Hdot, Hparen.
    now rewrite Hd, Hdot, Hparen.
Qed.

Lemma throw_sim {A} e :
  related_exception s s' link closing e e ->
  simulates (@throw A e) (@throw A e).
Proof. intros He c c' Hl. split; [left; exact He | intros; discriminate]. Qed.

Lemma lift_sim {A} (o : outcome A) :
  same_outcome o o -> simulates (lift o) (lift o).
Proof. intros Ho c c' Hl. split; [left; exact Ho | intros _ _; exact Hl]. Qed.

Lemma matchStr_starstar_sim : simulates (matchStr s "**") (matchStr s' "**").
Proof.
  intros c c' Hl.
  pose proof (skipSpaces_sim c c' Hl) as Hs.
  destruct (matchStr_starstar_cases s c) as [(E & Hlt) | (E & Hno)];
    destruct (matchStr_starstar_cases s' c') as [(E' & Hlt') | (E' & Hno')].
  - rewrite E, E'. simpl. split; [left; reflexivity | intros _ _].
    destruct Hs as [Hs _].
    destruct (link_inside _ _ Hs ltac:(lia)) as (_ & _ & H1).
    destruct (link_inside _ _ H1 Hlt) as (_ & _ & H2).
    hnf; simpl.
    now replace (pos (skipSpaces s c) + 2) with (S (S (pos (skipSpaces s c))))
      by lia;
    replace (pos (skipSpaces s' c') + 2) with (S (S (pos (skipSpaces s' c'))))
      by lia.
  - exfalso. apply matchStr_starstar_found in E. destruct E as [E0 E1].
    destruct Hs as [Hs _].
    destruct (link_inside _ _ Hs ltac:(lia)) as (_ & Hch0 & H1).
    destruct (link_inside _ _ H1 Hlt) as (Hlt1 & Hch1 & _).
    apply Hno'. repeat split; [exact Hlt1 | congruence | congruence].
  - exfalso. apply matchStr_starstar_found in E'. destruct E' as [E0 E1].
    destruct (Nat.lt_ge_cases (pos (skipSpaces s c)) (size s)) as [Hlt | Hge].
    + destruct (link_inside _ _ (proj1 Hs) Hlt) as (_ & Hch & H1).
      destruct (Nat.lt_ge_cases (S (pos (skipSpaces s c))) (size s))
        as [Hlt1 | Hge1].
      * destruct (link_inside _ _ H1 Hlt1) as (_ & Hch1 & _).
        apply Hno. repeat split; [exact Hlt1 | congruence | congruence].
      * destruct (beyond_end _ _ H1 Hge1 Hlt')
          as (_ & _ & _ & _ & _ & Hstar & _).
        contradiction.
    + destruct (beyond_end _ _ (proj1 Hs) Hge ltac:(lia))
        as (_ & _ & _ & _ & _ & Hstar & _).
      contradiction.
  - rewrite E, E'. simpl.
    split; [left; reflexivity | intros _ _; exact (proj1 Hs)].
Qed.

(** *** Numbers *)

Lemma in_step_refl c c' : in_step c c' c c'.
Proof. exists 0. repeat split; try lia. Qed.

Lemma in_step_trans c c' c1 c1' c2 c2' :
  in_step c c' c1 c1' -> in_step c1 c1' c2 c2' -> in_step c c' c2 c2'.
Proof.
  intros (d & H1 & H1' & Hd) (e & H2 & H2' & He).
  exists (d + e). split; [lia |]. split; [lia |].
  intros i Hi. destruct (Nat.lt_ge_cases i d) as [Hlt | Hge].
  - now apply Hd.
  - specialize (He (i - d) ltac:(lia)).
    now replace (pos c1 + (i - d)) with (pos c + i) in He by lia;
    replace (pos c1' + (i - d)) with (pos c' + i) in He by lia.
Qed.

Lemma in_step_increment c c' :
  linked c c' -> pos c < size s -> in_step c c' (increment c) (increment c').
Proof.
  intros Hl Hlt. destruct (link_inside _ _ Hl Hlt) as (Hlt' & Hch & _).
  exists 1. simpl. split; [lia |]. split; [lia |].
  intros i Hi. replace i with 0 by lia. now rewrite !Nat.add_0_r.
Qed.

Lemma mantissa_loop_stops_at_end expr n sd sdot c :
  size expr <= pos c -> mantissa_loop expr n sd sdot c = (sd, sdot, c).
Proof.
  intros H. destruct n as [| n]; simpl; [reflexivity |].
  replace (pos c <? size expr)%nat with false
    by (symmetry; now apply Nat.ltb_ge). reflexivity.
Qed.

Lemma mantissa_loop_stops expr n sd sdot c :
  isdigit (at_ expr (pos c)) = false -> at_ expr (pos c) <> "."%char ->
  mantissa_loop expr n sd sdot c = (sd, sdot, c).
Proof.
  intros Hd Hdot.
  destruct n as [| n]; simpl; [reflexivity |].
  rewrite Hd. apply Ascii.eqb_neq in Hdot. rewrite Hdot. simpl.
  now destruct (pos c <? size expr)%nat.
Qed.

Lemma mantissa_loop_sim n n' sd sdot c c' :
  size s - pos c <= n -> size s' - pos c' <= n' -> linked c c' ->
  fst (mantissa_loop s n sd sdot c) = fst (mantissa_loop s' n' sd sdot c')
  /\ linked (snd (mantissa_loop s n sd sdot c))
            (snd (mantissa_loop s' n' sd sdot c'))
  /\ in_step c c' (snd (mantissa_loop s n sd sdot c))
             (snd (mantissa_loop s' n' sd sdot c')).
Proof.
  revert n' sd sdot c c'.
  induction n as [| n IH]; intros n' sd sdot c c' Hn Hn' Hl.
  - assert (Hge : size s <= pos c) by lia.
    rewrite (mantissa_loop_stops_at_end s 0 sd sdot c Hge).
    destruct (Nat.lt_ge_cases (pos c') (size s')) as [Hlt' | Hge'].
    + destruct (beyond_end _ _ Hl Hge Hlt') as (Hd & _ & Hdot & _).
      rewrite (mantissa_loop_stops s' n' sd sdot c' Hd Hdot). simpl.
      auto using in_step_refl.
    + rewrite (mantissa_loop_stops_at_end s' n' sd sdot c' Hge'). simpl.
      auto using in_step_refl.
  - destruct (Nat.lt_ge_cases (pos c) (size s)) as [Hlt | Hge].
    + destruct (link_inside _ _ Hl Hlt) as (Hlt' & Hch & Hnext).
      destruct n' as [| n']; [lia |]. simpl.
      replace (pos c <? size s)%nat with true
        by (symmetry; now apply Nat.ltb_lt).
      replace (pos c' <? size s')%nat with true
        by (symmetry; now apply Nat.ltb_lt).
      rewrite Hch.
      assert (Hrec : forall a b,
                 fst (mantissa_loop s n a b (increment c))
                 = fst (mantissa_loop s' n' a b (increment c'))
                 /\ linked (snd (mantissa_loop s n a b (increment c)))
                           (snd (mantissa_loop s' n' a b (increment c')))
                 /\ in_step c c' (snd (mantissa_loop s n a b (increment c)))
                            (snd (mantissa_loop s' n' a b (increment c')))).
      { intros a b.
        destruct (IH n' a b (increment c) (increment c')) as (H1 & H2 & H3);
          simpl; [lia | lia | exact Hnext |].
        repeat split; [exact H1 | exact H2 |].
        eapply in_step_trans; [| exact H3].
        now apply in_step_increment. }
      destruct (isdigit (at_ s (pos c))); [apply Hrec |].
      destruct ((at_ s (pos c) =? ".")%char && negb sdot); [apply Hrec |].
      simpl. auto using in_step_refl.
    + rewrite (mantissa_loop_stops_at_end s (S n) sd sdot c Hge).
      destruct (Nat.lt_ge_cases (pos c') (size s')) as [Hlt' | Hge'].
      * destruct (beyond_end _ _ Hl Hge Hlt') as (Hd & _ & Hdot & _).
        rewrite (mantissa_loop_stops s' n' sd sdot c' Hd Hdot). simpl.
        auto using in_step_refl.
      * rewrite (mantissa_loop_stops_at_end s' n' sd sdot c' Hge'). simpl.
        auto using in_step_refl.
Qed.

Lemma exponent_loop_stops expr n ed c :
  size expr <= pos c \/ isdigit (at_ expr (pos c)) = false ->
  exponent_loop expr n ed c = (ed, c).
Proof.
  intros H. destruct n as [| n]; simpl; [reflexivity |].
  destruct H as [H | H].
  - replace (pos c <? size expr)%nat with false
      by (symmetry; now apply Nat.ltb_ge). reflexivity.
  - now rewrite H, andb_false_r.
Qed.

Lemma exponent_loop_sim n n' ed c c' :
  size s - pos c <= n -> size s' - pos c' <= n' -> linked c c' ->
  fst (exponent_loop s n ed c) = fst (exponent_loop s' n' ed c')
  /\ linked (snd (exponent_loop s n ed c)) (snd (exponent_loop s' n' ed c'))
  /\ in_step c c' (snd (exponent_loop s n ed c))
             (snd (exponent_loop s' n' ed c')).
Proof.
  revert n' ed c c'.
  induction n as [| n IH]; intros n' ed c c' Hn Hn' Hl.
  - assert (Hge : size s <= pos c) by lia.
    rewrite (exponent_loop_stops s 0 ed c (or_introl Hge)).
    rewrite (exponent_loop_stops s' n' ed c'); simpl;
      [auto using in_step_refl |].
    destruct (Nat.lt_ge_cases (pos c') (size s')) as [Hlt' | Hge'];
      [right; exact (proj1 (beyond_end _ _ Hl Hge Hlt')) | now left].
  - destruct (Nat.lt_ge_cases (pos c) (size s)) as [Hlt | Hge].
    + destruct (link_inside _ _ Hl Hlt) as (Hlt' & Hch & Hnext).
      destruct n' as [| n']; [lia |]. simpl.
      replace (pos c <? size s)%nat with true
        by (symmetry; now apply Nat.ltb_lt).
      replace (pos c' <? size s')%nat with true
        by (symmetry; now apply Nat.ltb_lt).
      rewrite Hch. simpl.
      destruct (isdigit (at_ s (pos c))); [| simpl; auto using in_step_refl].
      destruct (IH n' true (increment c) (increment c')) as (H1 & H2 & H3);
        simpl; [lia | lia | exact Hnext |].
      repeat split; [exact H1 | exact H2 |].
      eapply in_step_trans; [| exact H3].
      now apply in_step_increment.
    + rewrite (exponent_loop_stops s (S n) ed c (or_introl Hge)).
      rewrite (exponent_loop_stops s' n' ed c'); simpl;
        [auto using in_step_refl |].
      destruct (Nat.lt_ge_cases (pos c') (size s')) as [Hlt' | Hge'];
        [right; exact (proj1 (beyond_end _ _ Hl Hge Hlt')) | now left].
Qed.

(** The optional sign of an exponent. *)
Lemma exponent_sign_sim c c' :
  linked c c' ->
  let c1 := if (pos c <? size s)%nat
               && ((at_ s (pos c) =? "+")%char || (at_ s (pos c) =? "-")%char)
            then increment c else c in
  let c1' := if (pos c' <? size s')%nat
                && ((at_ s' (pos c') =? "+")%char
                    || (at_ s' (pos c') =? "-")%char)
             then increment c' else c' in
  linked c1 c1' /\ in_step c c' c1 c1'.
Proof.
  intros Hl.
  destruct (Nat.lt_ge_cases (pos c) (size s)) as [Hlt | Hge].
  - destruct (link_inside _ _ Hl Hlt) as (Hlt' & Hch & Hnext).
    replace (pos c <? size s)%nat with true
      by (symmetry; now apply Nat.ltb_lt).
    replace (pos c' <? size s')%nat with true
      by (symmetry; now apply Nat.ltb_lt).
    rewrite Hch. simpl.
    destruct ((at_ s (pos c) =? "+")%char || (at_ s (pos c) =? "-")%char).
    + split; [exact Hnext | now apply in_step_increment].
    + split; [exact Hl | apply in_step_refl].
  - replace (pos c <? size s)%nat with false
      by (symmetry; now apply Nat.ltb_ge).
    assert (E : (pos c' <? size s')%nat
                && ((at_ s' (pos c') =? "+")%char
                    || (at_ s' (pos c') =? "-")%char) = false).
    { destruct (pos c' <? size s')%nat eqn:Hlt'; [| reflexivity].
      apply Nat.ltb_lt in Hlt'.
      destruct (beyond_end _ _ Hl Hge Hlt') as (_ & _ & _ & Hp & Hm & _).
      apply Ascii.eqb_neq in Hp, Hm. now rewrite Hp, Hm. }
    rewrite E. simpl. split; [exact Hl | apply in_step_refl].
Qed.

Lemma exponent_suffix_sim c c' :
  linked c c' ->
  linked (exponent_suffix s c) (exponent_suffix s' c')
  /\ in_step c c' (exponent_suffix s c) (exponent_suffix s' c').
Proof.
  intros Hl. unfold exponent_suffix.
  destruct (Nat.lt_ge_cases (pos c) (size s)) as [Hlt | Hge].
  - destruct (link_inside _ _ Hl Hlt) as (Hlt' & Hch & Hnext).
    replace (pos c <? size s)%nat with true
      by (symmetry; now apply Nat.ltb_lt).
    replace (pos c' <? size s')%nat with true
      by (symmetry; now apply Nat.ltb_lt).
    rewrite Hch. rewrite !andb_true_l.
    destruct ((at_ s (pos c) =? "e")%char || (at_ s (pos c) =? "E")%char);
      [| split; [exact Hl | apply in_step_refl]].
    cbv zeta.
    destruct (exponent_sign_sim (increment c) (increment c') Hnext)
      as [Hl1 Hs1].
    set (c1 := if (pos (increment c) <? size s)%nat && _
               then increment (increment c) else increment c) in *.
    set (c1' := if (pos (increment c') <? size s')%nat && _
                then increment (increment c') else increment c') in *.
    destruct (exponent_loop_sim (size s - pos c1) (size s' - pos c1') false
                c1 c1' (Nat.le_refl _) (Nat.le_refl _) Hl1)
      as (Hf & Hl2 & Hs2).
    destruct (exponent_loop s (size s - pos c1) false c1) as [ed c2].
    destruct (exponent_loop s' (size s' - pos c1') false c1') as [ed' c2'].
    simpl in Hf, Hl2, Hs2. subst ed'.
    destruct ed; simpl.
    + split; [exact Hl2 |].
      eapply in_step_trans; [now apply in_step_increment |].
      eapply in_step_trans; eassumption.
    + split; [exact Hl |].
      exists 0. simpl. repeat split; lia.
  - replace (pos c <? size s)%nat with false
      by (symmetry; now apply Nat.ltb_ge).
    assert (E : (pos c' <? size s')%nat
                && ((at_ s' (pos c') =? "e")%char
                    || (at_ s' (pos c') =? "E")%char) = false).
    { destruct (pos c' <? size s')%nat eqn:Hlt'; [| reflexivity].
      apply Nat.ltb_lt in Hlt'.
      exact (proj1 (proj2 (beyond_end _ _ Hl Hge Hlt'))). }
    rewrite E. simpl. split; [exact Hl | apply in_step_refl].
Qed.

Lemma substring_nothing start str : substring start 0 str = EmptyString.
Proof.
  revert start. induction str as [| ch str IH]; intros [| start]; simpl;
    try reflexivity. apply IH.
Qed.

Lemma substring_in_step d start start' :
  (forall i, i < d ->
             start + i < size s /\ start' + i < size s'
             /\ at_ s' (start' + i) = at_ s (start + i)) ->
  substring start d s = substring start' d s'.
Proof.
  revert start start'. induction d as [| d IH]; intros start start' H.
  - now rewrite !substring_nothing.
  - destruct (H 0 ltac:(lia)) as (H0 & H0' & Hch).
    rewrite !Nat.add_0_r in *.
    rewrite (substring_head s start d H0), (substring_head s' start' d H0').
    unfold at_ in Hch. rewrite Hch. f_equal.
    apply IH. intros i Hi. specialize (H (S i) ltac:(lia)).
    now replace (S start + i) with (start + S i) by lia;
    replace (S start' + i) with (start' + S i) by lia.
Qed.

Lemma stod_related str : same_outcome (stod str) (stod str).
Proof.
  destruct (stod str) as [v | e | |] eqn:E; simpl; trivial.
  destruct (stod_throws _ _ E); subst e; exact I.
Qed.

Lemma parseNumber_sim : simulates (parseNumber s) (parseNumber s').
Proof.
  intros c c' Hl. unfold parseNumber.
  pose proof (skipSpaces_sim c c' Hl) as Hs.
  set (c0 := skipSpaces s c) in *. set (c0' := skipSpaces s' c') in *.
  destruct (mantissa_loop_sim (size s - pos c0) (size s' - pos c0')
              false false c0 c0' (Nat.le_refl _) (Nat.le_refl _) (proj1 Hs))
    as (Hf & Hl1 & Hs1).
  destruct (mantissa_loop s (size s - pos c0) false false c0)
    as [[sd sdot] c1].
  destruct (mantissa_loop s' (size s' - pos c0') false false c0')
    as [[sd' sdot'] c1'].
  simpl in Hf, Hl1, Hs1. injection Hf as <- <-.
  destruct (exponent_suffix_sim c1 c1' Hl1) as [Hl2 Hs2].
  pose proof (in_step_trans _ _ _ _ _ _ Hs1 Hs2) as (d & Hd & Hd' & Hch).
  set (c2 := exponent_suffix s c1) in *.
  set (c2' := exponent_suffix s' c1') in *.
  rewrite Hd, Hd'.
  replace (pos c0 + d - pos c0) with d by lia.
  replace (pos c0' + d - pos c0') with d by lia.
  replace (pos c0' <? pos c0' + d)%nat with (pos c0 <? pos c0 + d)%nat
    by (destruct d; [rewrite !Nat.add_0_r, !Nat.ltb_irrefl; reflexivity |];
        transitivity true;
        [apply Nat.ltb_lt; lia | symmetry; apply Nat.ltb_lt; lia]).
  destruct (negb sd && negb (pos c0 <? pos c0 + d)%nat) eqn:G; simpl.
  - split; [| intros; discriminate].
    apply andb_prop in G. destruct G as [_ G].
    apply negb_true_iff, Nat.ltb_ge in G.
    replace d with 0 by lia. rewrite !Nat.add_0_r. left. exact Hs.
  - rewrite (substring_in_step d (pos c0) (pos c0') Hch).
    split; [left; apply stod_related | intros _ _; exact Hl2].
Qed.

(** *** The grammar *)

Lemma divide_related val d : same_outcome (divide val d) (divide val d).
Proof. unfold divide. now destruct (d =? 0)%float. Qed.

Lemma modulo_related val rhs :
  same_outcome (modulo val rhs) (modulo val rhs).
Proof.
  unfold modulo.
  destruct (to_long_long val); [| exact I].
  destruct (to_long_long rhs) as [b |]; [| exact I].
  destruct (b =? 0)%Z; [exact I |].
  now destruct (_ && _).
Qed.

Lemma skip_then_sim {A} (m m' : M A) :
  simulates m m' ->
  simulates (fun c => m (skipSpaces s c)) (fun c => m' (skipSpaces s' c)).
Proof.
  intros H c c' Hl. apply H. exact (proj1 (skipSpaces_sim c c' Hl)).
Qed.

Lemma out_of_fuel_sim {A} : simulates (@out_of_fuel A) (@out_of_fuel A).
Proof. intros c c' _. split; [left; exact I | intros; discriminate]. Qed.

Lemma if_sim {A} (b : bool) (m1 m2 m1' m2' : M A) :
  simulates m1 m1' -> simulates m2 m2' ->
  simulates (if b then m1 else m2) (if b then m1' else m2').
Proof. destruct b; auto. Qed.

Ltac sim_steps :=
  repeat first
    [ assumption
    | apply match_close_sim
    | apply match_sim; discriminate
    | apply matchStr_starstar_sim
    | apply nextStartsFactor_sim
    | apply parseNumber_sim
    | apply ret_sim
    | apply lift_sim; first [apply divide_related | apply modulo_related]
    | apply throw_sim; exact I
    | apply if_sim
    | apply bind_sim
    | match goal with
      | |- forall _ : bool, _ => intro
      | |- forall _ : float, _ => intro
      end ].

Lemma grammar_sim fuel :
  simulates (parseExpression pow s fuel) (parseExpression pow s' fuel)
  /\ (forall val, simulates (parseExpression_loop pow s fuel val)
                            (parseExpression_loop pow s' fuel val))
  /\ simulates (parseTerm pow s fuel) (parseTerm pow s' fuel)
  /\ (forall val, simulates (parseTerm_loop pow s fuel val)
                            (parseTerm_loop pow s' fuel val))
  /\ simulates (parsePower pow s fuel) (parsePower pow s' fuel)
  /\ simulates (parseFactor pow s fuel) (parseFactor pow s' fuel).
Proof.
  induction fuel as [| fuel (HE & HEL & HT & HTL & HP & HF)].
  - refine (conj _ (conj (fun val => _)
             (conj _ (conj (fun val => _) (conj _ _)))));
      apply out_of_fuel_sim.
  - refine (conj _ (conj (fun val => _)
             (conj _ (conj (fun val => _) (conj _ _))))).
    + rewrite !parseExpression_S. sim_steps.
    + rewrite !parseExpression_loop_S. sim_steps; apply HEL.
    + rewrite !parseTerm_S. sim_steps.
    + rewrite !parseTerm_loop_S. sim_steps; apply HTL.
    + rewrite !parsePower_S. sim_steps.
    + intros c c' Hl. rewrite !parseFactor_S.
      pose proof (proj1 (skipSpaces_sim c c' Hl)) as Hs.
      revert Hs. generalize (skipSpaces s c) (skipSpaces s' c').
      change (simulates
                (plus <- match_ s "+" ;;
                 if plus then parseFactor pow s fuel
                 else
                   minus <- match_ s "-" ;;
                   if minus then
                     v <- parseFactor pow s fuel ;;
                     ret (- v)%float
                   else
                     paren <- match_ s "(" ;;
                     if paren then
                       v <- parseExpression pow s fuel ;;
                       close <- match_ s ")" ;;
                       if close then ret v else throw UnmatchedParenthesis
                     else parseNumber s)
                (plus <- match_ s' "+" ;;
                 if plus then parseFactor pow s' fuel
                 else
                   minus <- match_ s' "-" ;;
                   if minus then
                     v <- parseFactor pow s' fuel ;;
                     ret (- v)%float
                   else
                     paren <- match_ s' "(" ;;
                     if paren then
                       v <- parseExpression pow s' fuel ;;
                       close <- match_ s' ")" ;;
                       if close then ret v else throw UnmatchedParenthesis
                     else parseNumber s')).
      sim_steps.
Qed.

(** The end of [parse], after [parseExpression] has done the same from
    two places inside the texts, when [s'] has no [')'] that [s]
    lacks. *)
Lemma parse_end_sim fuel fuel' c c' :
  (forall p', ~ closing p') ->
  simulates_at (parseExpression pow s fuel) (parseExpression pow s' fuel')
    c c' ->
  pos c <= size s -> pos c' <= size s' ->
  same_outcome (fst (parse pow s fuel c)) (fst (parse pow s' fuel' c')).
Proof.
  intros Hstrict [Hr Hc] Hin Hin'. unfold parse, bind.
  destruct Hr as [Hr | [[p' Hp'] _]]; [| exfalso; exact (Hstrict p' Hp')].
  pose proof (orderly_grammar pow s fuel) as (HO & _).
  pose proof (orderly_grammar pow s' fuel') as (HO' & _).
  specialize (HO c Hin). specialize (HO' c' Hin').
  destruct (parseExpression pow s fuel c) as [[v | e | |] c1];
    destruct (parseExpression pow s' fuel' c') as [[v' | e' | |] c1'];
    simpl in Hr; try contradiction; try exact Hr.
  subst v'. specialize (Hc v eq_refl). simpl in Hc, HO, HO'.
  pose proof (skipSpaces_sim c1 c1' Hc) as Hs.
  pose proof (trail_inside s c _
                (trail_trans s _ _ _ HO (skipSpaces_trail s c1)) Hin) as Hin2.
  pose proof (trail_inside s' c' _
                (trail_trans s' _ _ _ HO' (skipSpaces_trail s' c1')) Hin')
    as Hin2'.
  destruct (Nat.lt_ge_cases (pos (skipSpaces s c1)) (size s)) as [Hlt | Hge].
  - destruct (link_inside _ _ (proj1 Hs) Hlt) as (Hlt' & _).
    replace (pos (skipSpaces s c1) =? size s)%nat with false
      by (symmetry; apply Nat.eqb_neq; lia).
    replace (pos (skipSpaces s' c1') =? size s')%nat with false
      by (symmetry; apply Nat.eqb_neq; lia).
    simpl. split; [exact (proj1 Hs) | exact Hlt].
  - destruct (proj2 Hs Hge) as [Hge' | Hcl];
      [| exfalso; exact (Hstrict _ Hcl)].
    replace (pos (skipSpaces s c1) =? size s)%nat with true
      by (symmetry; apply Nat.eqb_eq; lia).
    replace (pos (skipSpaces s' c1') =? size s')%nat with true
      by (symmetry; apply Nat.eqb_eq; lia).
    reflexivity.
Qed.

(** [parse] on the two texts, started from linked offsets inside them. *)
Lemma parse_sim fuel c c' :
  (forall p', ~ closing p') ->
  linked c c' -> pos c <= size s -> pos c' <= size s' ->
  same_outcome (fst (parse pow s fuel c)) (fst (parse pow s' fuel c')).
Proof.
  intros Hstrict Hl. apply parse_end_sim; [exact Hstrict |].
  destruct (grammar_sim fuel) as (HE & _). exact (HE c c' Hl).
Qed.

(** [parse] on the two texts, when the first factor does the same in
    both. *)
Lemma parse_sim_from_factor fuel c c' :
  (forall p', ~ closing p') ->
  simulates_at (parseFactor pow s (S fuel)) (parseFactor pow s' (S fuel))
    c c' ->
  pos c <= size s -> pos c' <= size s' ->
  same_outcome (fst (parse pow s (S (S (S (S fuel)))) c))
               (fst (parse pow s' (S (S (S (S fuel)))) c')).
Proof.
  intros Hstrict Hf. apply parse_end_sim; [exact Hstrict |].
  rewrite !parseExpression_S, !parseTerm_S, !parsePower_S.
  destruct (grammar_sim (S fuel)) as (_ & _ & _ & _ & HP & _).
  destruct (grammar_sim (S (S fuel))) as (_ & _ & _ & HTL & _).
  destruct (grammar_sim (S (S (S fuel)))) as (_ & HEL & _).
  apply bind_sim_at; [| exact HEL].
  apply bind_sim_at; [| exact HTL].
  apply bind_sim_at; [exact Hf |].
  sim_steps.
Qed.

End Simulation.

(** ** White space around an expression *)

Lemma size_append a b : size (a ++ b) = size a + size b.
Proof. unfold size. induction a as [| ch a IH]; simpl; congruence. Qed.

Lemma at_append_left a b i : i < size a -> at_ (a ++ b) i = at_ a i.
Proof.
  intros H. unfold at_. now rewrite <- (append_correct1 a b i H).
Qed.

Lemma at_append_right a b i : at_ (a ++ b) (size a + i) = at_ b i.
Proof.
  unfold at_, size. rewrite Nat.add_comm.
  now rewrite <- (append_correct2 a b i).
Qed.

Lemma no_closing_char expr p' : no_closing p' -> at_ expr p' = ")"%char.
Proof. intros []. Qed.

Lemma no_closing_none p' : ~ no_closing p'.
Proof. intros []. Qed.

Section Whitespace.

Variable pow : float -> float -> float.

Local Open Scope parser_scope.

(** [parse] begins by skipping white space, so it does the same from
    the cursor and from the first character after it that is not a
    space. *)
Lemma parse_skips_first expr fuel c :
  fst (parse pow expr fuel c) = fst (parse pow expr fuel (skipSpaces expr c)).
Proof.
  destruct fuel as [| [| [| [| fuel]]]]; try reflexivity.
  unfold parse.
  rewrite parseExpression_S, parseTerm_S, parsePower_S.
  unfold bind. rewrite !parseFactor_S, skipSpaces_idem. reflexivity.
Qed.

Lemma skipSpaces_step expr c :
  on_space expr c = true -> skipSpaces expr c = skipSpaces expr (increment c).
Proof.
  unfold skipSpaces, on_space. intros H.
  assert (Hlt : pos c < size expr)
    by (apply andb_prop in H; now apply Nat.ltb_lt).
  simpl pos.
  replace (size expr - pos c) with (S (size expr - S (pos c))) by lia.
  simpl. now rewrite H.
Qed.

Variables sp text : string.
Hypothesis Hblank :
  forall p, p < String.length sp -> isspace (at_ sp p) = true.

(** *** Before the expression *)

Lemma skipSpaces_through_prefix j :
  j <= size sp ->
  skipSpaces (sp ++ text) fresh
  = skipSpaces (sp ++ text) (Nat.iter j increment fresh)
  /\ pos (Nat.iter j increment fresh) = j.
Proof.
  induction j as [| j IH]; intros Hj; [split; reflexivity |].
  destruct (IH ltac:(lia)) as [E Hp]. split; [| simpl; now rewrite Hp].
  rewrite E. simpl. apply skipSpaces_step.
  unfold on_space. rewrite Hp, size_append.
  replace (j <? size sp + size text)%nat with true
    by (symmetry; apply Nat.ltb_lt; lia).
  rewrite at_append_left by lia. apply Hblank. unfold size in Hj. lia.
Qed.

Lemma leading_inside p p' :
  leading_link sp p p' -> p < size text ->
  p' < size (sp ++ text) /\ at_ (sp ++ text) p' = at_ text p
  /\ leading_link sp (S p) (S p').
Proof.
  unfold leading_link. intros -> Hlt. rewrite size_append, at_append_right.
  repeat split; lia.
Qed.

Lemma leading_end p p' :
  leading_link sp p p' -> size text <= p -> p' < size (sp ++ text) ->
  (isspace (at_ (sp ++ text) p') = true /\ leading_link sp p (S p'))
  \/ no_closing p'.
Proof. unfold leading_link. intros -> Hge. rewrite size_append. lia. Qed.

Lemma shift_related (o o' : outcome float) :
  same_outcome text (sp ++ text) (leading_link sp) no_closing o o' ->
  o' = shift_outcome (String.length sp) o.
Proof.
  fold (size sp).
  destruct o as [v | e | |], o' as [v' | e' | |]; simpl;
    try contradiction; try reflexivity.
  - now intros ->.
  - destruct e, e'; simpl; try contradiction; try reflexivity.
    + now intros [-> _].
    + now intros [-> _].
Qed.

(** *** After the expression *)

Lemma trailing_inside p p' :
  trailing_link text sp p p' -> p < size text ->
  p' < size (text ++ sp) /\ at_ (text ++ sp) p' = at_ text p
  /\ trailing_link text sp (S p) (S p').
Proof.
  intros [[-> _] | [-> _]] Hlt; [| lia].
  rewrite size_append, at_append_left by exact Hlt.
  repeat split; [lia |]. left. lia.
Qed.

Lemma trailing_end p p' :
  trailing_link text sp p p' -> size text <= p -> p' < size (text ++ sp) ->
  (isspace (at_ (text ++ sp) p') = true /\ trailing_link text sp p (S p'))
  \/ no_closing p'.
Proof.
  rewrite size_append. intros Hl Hge Hlt'.
  assert (Hp : p = size text /\ size text <= p')
    by (destruct Hl as [[-> ?] | [-> ?]]; lia).
  destruct Hp as [-> Hp'].
  left. split; [| right; lia].
  replace p' with (size text + (p' - size text)) by lia.
  rewrite at_append_right. apply Hblank. unfold size in *. lia.
Qed.

Lemma extend_related (o o' : outcome float) :
  same_outcome text (text ++ sp) (trailing_link text sp) no_closing o o' ->
  o' = extend_outcome (String.length text) (String.length sp) o.
Proof.
  fold (size sp) (size text).
  destruct o as [v | e | |], o' as [v' | e' | |]; simpl;
    try contradiction; try reflexivity.
  - now intros ->.
  - destruct e as [p | | | | p | |], e' as [p' | | | | p' | |]; simpl;
      try contradiction; try reflexivity.
    + intros [[[-> _] | [-> _]] Hlt]; [reflexivity | lia].
    + rewrite size_append. intros [Hl Hend].
      destruct (Nat.eqb_spec p (size text)) as [-> | Hne].
      * destruct (Hend (Nat.le_refl _)) as [Hend' | []].
        destruct Hl as [[-> _] | [_ ?]]; do 2 f_equal; lia.
      * destruct Hl as [[-> _] | [-> _]]; [reflexivity | contradiction].
Qed.

End Whitespace.

(** ** A sign before an expression *)

(** A unary plus is the identity: the text [+text] evaluates to what
    [text] evaluates to, with the offset of a [TrailingInput] or an
    [ExpectedNumber] moved by the one character of the sign. *)
Theorem unary_plus_is_the_identity
  (pow : float -> float -> float) (text : string) :
  evaluate pow ("+" ++ text) = shift_outcome 1 (evaluate pow text).
Proof.
  apply (shift_related "+" text).
  unfold evaluate, run.
  replace (budget ("+" ++ text)) with (S (S (S (S (budget text)))))
    by (unfold budget; simpl String.length; lia).
  rewrite <- (more_fuel_parse pow text (budget text) 4 fresh)
    by apply evaluate_has_fuel.
  replace (budget text + 4) with (S (S (S (S (budget text))))) by lia.
  apply (parse_sim_from_factor pow text ("+" ++ text) (leading_link "+")
           no_closing (leading_inside "+" text) (leading_end "+" text)
           (no_closing_char _));
    [exact no_closing_none | | simpl; lia | simpl; lia].
  assert (Hfix : skipSpaces ("+" ++ text) fresh = fresh)
    by (apply skipSpaces_fixed; reflexivity).
  pose proof (match_hit ("+" ++ text) "+" fresh) as Hm.
  rewrite Hfix in Hm.
  specialize (Hm ltac:(simpl; unfold size; simpl; lia) eq_refl).
  assert (Hfuel : fst (parseFactor pow text (budget text) fresh) <> OutOfFuel).
  { pose proof (safe_grammar pow text (budget text) (String.length text))
      as (_ & _ & _ & _ & _ & Hsafe).
    apply Hsafe; [unfold budget; lia | simpl; lia | simpl; unfold size; lia]. }
  destruct (one_more_unit pow text (budget text)) as (_ & _ & _ & _ & _ & Hx).
  unfold simulates_at.
  rewrite (Hx fresh Hfuel).
  rewrite (parseFactor_S pow ("+" ++ text)), Hfix, (bind_Ok _ _ _ _ _ Hm).
  cbv beta iota.
  destruct (grammar_sim pow text ("+" ++ text) (leading_link "+")
              no_closing (leading_inside "+" text) (leading_end "+" text)
              (no_closing_char _) (budget text))
    as (_ & _ & _ & _ & _ & HF).
  apply HF. reflexivity.
Qed.

(** White space before an expression changes nothing but the offsets
    of the failures that report one: the text [sp ++ text],
    where [sp] holds only white space, evaluates to what [text]
    evaluates to, with the offset of a [TrailingInput] or an
    [ExpectedNumber] moved by the length of [sp]. *)
Theorem leading_whitespace_shifts_offsets
  (pow : float -> float -> float) (sp text : string)
  (Hblank : forall p, p < String.length sp -> isspace (at_ sp p) = true) :
  evaluate pow (sp ++ text)
  = shift_outcome (String.length sp) (evaluate pow text).
Proof.
  apply (shift_related sp text).
  unfold evaluate, run.
  replace (budget (sp ++ text)) with (budget text + 4 * size sp)
    by (unfold budget; fold (size (sp ++ text)); rewrite size_append;
        unfold size; lia).
  rewrite <- (more_fuel_parse pow text (budget text) (4 * size sp) fresh)
    by apply (evaluate_has_fuel pow text).
  rewrite (parse_skips_first pow text), (parse_skips_first pow (sp ++ text)).
  destruct (skipSpaces_through_prefix sp text Hblank (size sp)
              (Nat.le_refl _)) as [E Hp].
  apply (parse_sim pow text (sp ++ text) (leading_link sp) no_closing
           (leading_inside sp text) (leading_end sp text)
           (no_closing_char _)).
  - exact no_closing_none.
  - rewrite E.
    apply (skipSpaces_sim text (sp ++ text) (leading_link sp) no_closing
             (leading_inside sp text) (leading_end sp text)
             (no_closing_char _)).
    unfold linked, leading_link. rewrite Hp. simpl. lia.
  - apply (trail_inside _ _ _ (skipSpaces_trail text fresh)). simpl. lia.
  - apply (trail_inside _ _ _ (skipSpaces_trail (sp ++ text) fresh)).
    simpl. lia.
Qed.

(** Two spaces before [2 x], which fails at its third character. *)
Lemma leading_whitespace_shifts_offsets_witness :
  evaluate sample_pow ("  " ++ "2 x")
  = shift_outcome 2 (evaluate sample_pow "2 x").
Proof.
  apply (leading_whitespace_shifts_offsets sample_pow "  " "2 x").
  intros [| [| p]] Hp; try reflexivity. simpl in Hp. lia.
Defined.

(** White space after an expression changes nothing but the end of
    the text: the text [text ++ sp], where [sp] holds only white
    space, evaluates to what [text] evaluates to, except that an
    [ExpectedNumber] at the end of [text] is reported at the end of
    [text ++ sp]. *)
Theorem trailing_whitespace_moves_the_end
  (pow : float -> float -> float) (sp text : string)
  (Hblank : forall p, p < String.length sp -> isspace (at_ sp p) = true) :
  evaluate pow (text ++ sp)
  = extend_outcome (String.length text) (String.length sp)
      (evaluate pow text).
Proof.
  apply (extend_related sp text).
  unfold evaluate, run.
  replace (budget (text ++ sp)) with (budget text + 4 * size sp)
    by (unfold budget; fold (size (text ++ sp)); rewrite size_append;
        unfold size; lia).
  rewrite <- (more_fuel_parse pow text (budget text) (4 * size sp) fresh)
    by apply (evaluate_has_fuel pow text).
  apply (parse_sim pow text (text ++ sp) (trailing_link text sp) no_closing
           (trailing_inside sp text) (trailing_end sp text Hblank)
           (no_closing_char _)).
  - exact no_closing_none.
  - left. simpl. lia.
  - simpl. lia.
  - simpl. lia.
Qed.

(** A space and a tab after [1+], which lacks an operand at its end. *)
Lemma trailing_whitespace_moves_the_end_witness :
  evaluate sample_pow ("1+" ++ String " " (String "009" EmptyString))
  = extend_outcome 2 2 (evaluate sample_pow "1+").
Proof.
  apply (trailing_whitespace_moves_the_end sample_pow
           (String " " (String "009" EmptyString)) "1+").
  intros [| [| p]] Hp; try reflexivity. simpl in Hp. lia.
Defined.

(** ** Parentheses around an expression *)

Lemma more_fuel_expression pow expr fuel extra c :
  fst (parseExpression pow expr fuel c) <> OutOfFuel ->
  parseExpression pow expr (fuel + extra) c = parseExpression pow expr fuel c.
Proof.
  induction extra as [| extra IH]; intros H.
  - now rewrite Nat.add_0_r.
  - rewrite Nat.add_succ_r. rewrite <- (IH H).
    destruct (one_more_unit pow expr (fuel + extra)) as (HE & _).
    apply HE. now rewrite (IH H).
Qed.

Section Parenthesised.

Variable text : string.

Lemma paren_inside p p' :
  leading_link "(" p p' -> p < size text ->
  p' < size ("(" ++ text ++ ")")
  /\ at_ ("(" ++ text ++ ")") p' = at_ text p
  /\ leading_link "(" (S p) (S p').
Proof.
  unfold leading_link. intros -> Hlt.
  rewrite at_append_right, !size_append, at_append_left by exact Hlt.
  change (size "(") with 1. change (size ")") with 1.
  repeat split; lia.
Qed.

Lemma paren_end p p' :
  leading_link "(" p p' -> size text <= p ->
  p' < size ("(" ++ text ++ ")") ->
  (isspace (at_ ("(" ++ text ++ ")") p') = true
   /\ leading_link "(" p (S p'))
  \/ S (size text) = p'.
Proof.
  unfold leading_link. intros -> Hge. rewrite !size_append.
  change (size "(") with 1. change (size ")") with 1.
  intros Hlt. right. lia.
Qed.

Lemma paren_char p' :
  S (size text) = p' -> at_ ("(" ++ text ++ ")") p' = ")"%char.
Proof.
  intros <-.
  pose proof (at_append_right "(" (text ++ ")") (size text)) as H.
  change (size "(" + size text) with (S (size text)) in H. rewrite H.
  pose proof (at_append_right text ")" 0) as H0.
  rewrite Nat.add_0_r in H0. rewrite H0. reflexivity.
Qed.

End Parenthesised.

(** Parentheses around a whole expression keep its value: when [text]
    evaluates to a value, [(text)] evaluates to the same value. *)
Theorem parentheses_keep_the_value
  (pow : float -> float -> float) (text : string) (v : float)
  (Hvalue : evaluate pow text = Ok v) :
  evaluate pow ("(" ++ text ++ ")") = Ok v.
Proof.
  set (s' := ("(" ++ text ++ ")")%string).
  assert (Hsize : size s' = S (S (size text))).
  { unfold s'. rewrite !size_append.
    change (size "(") with 1. change (size ")") with 1. lia. }
  assert (Hexp : exists c1,
             parseExpression pow text (budget text) fresh = (Ok v, c1)
             /\ pos (skipSpaces text c1) = size text).
  { unfold evaluate, run, parse, bind in Hvalue.
    destruct (parseExpression pow text (budget text) fresh)
      as [[v0 | e | |] c1]; simpl in Hvalue; try discriminate.
    destruct (pos (skipSpaces text c1) =? size text)%nat eqn:G;
      simpl in Hvalue; [| discriminate].
    injection Hvalue as ->. exists c1.
    split; [reflexivity | now apply Nat.eqb_eq]. }
  destruct Hexp as (c1 & Hexp & Hend).
  assert (Hexp4 : parseExpression pow text (budget text + 4) fresh
                  = (Ok v, c1)).
  { rewrite more_fuel_expression; [exact Hexp | rewrite Hexp; discriminate]. }
  (* the expression inside the parentheses *)
  destruct (grammar_sim pow text s' (leading_link "(") (eq (S (size text)))
              (paren_inside text) (paren_end text) (paren_char text)
              (budget text + 4)) as (HE & _).
  destruct (HE fresh (increment fresh) eq_refl) as [Hr Hl].
  rewrite Hexp4 in Hr, Hl. cbn [fst snd] in Hr, Hl.
  specialize (Hl v eq_refl).
  destruct Hr as [Hr | [_ Hno]]; [| exfalso; now apply (Hno v)].
  destruct (parseExpression pow s' (budget text + 4) (increment fresh))
    as [[v' | e' | |] c1'] eqn:Hexp'; simpl in Hr; try contradiction.
  subst v'. cbn [fst snd] in Hl.
  (* the closing parenthesis *)
  pose proof (skipSpaces_sim text s' (leading_link "(") (eq (S (size text)))
                (paren_inside text) (paren_end text) (paren_char text)
                c1 c1' Hl) as [Hs _].
  unfold leading_link in Hs. rewrite Hend in Hs.
  change (size "(" + size text) with (S (size text)) in Hs.
  assert (Hclose : match_ s' ")" c1'
                   = (Ok true, increment (skipSpaces s' c1'))).
  { apply match_hit; [rewrite Hs, Hsize; lia |].
    rewrite Hs. now apply paren_char. }
  (* the factor, and what follows it *)
  assert (Hfix : skipSpaces s' fresh = fresh)
    by (apply skipSpaces_fixed; reflexivity).
  assert (Hfactor : parseFactor pow s' (S (budget text + 4)) fresh
                    = (Ok v, increment (skipSpaces s' c1'))).
  { rewrite parseFactor_paren; rewrite ?Hfix;
      [| rewrite Hsize; simpl; lia | reflexivity].
    rewrite (bind_Ok _ _ _ _ _ Hexp'), (bind_Ok _ _ _ _ _ Hclose).
    reflexivity. }
  set (c2 := increment (skipSpaces s' c1')) in *.
  assert (Hc2 : pos c2 = size s')
    by (unfold c2; rewrite Hsize; cbn [pos increment]; now rewrite Hs).
  assert (Hpower : parsePower pow s' (S (S (budget text + 4))) fresh
                   = (Ok v, c2))
    by (apply power_ends_at_end; [exact Hfactor | lia]).
  assert (Hterm : parseTerm pow s' (S (S (S (budget text + 4)))) fresh
                  = (Ok v, c2)).
  { rewrite parseTerm_S, (bind_Ok _ _ _ _ _ Hpower).
    apply term_loop_ends_at_end. lia. }
  assert (Hexpr : parseExpression pow s' (S (S (S (S (budget text + 4)))))
                    fresh = (Ok v, c2)).
  { rewrite parseExpression_S, (bind_Ok _ _ _ _ _ Hterm).
    apply expression_loop_ends_at_end. lia. }
  assert (Hfix2 : skipSpaces s' c2 = c2).
  { apply skipSpaces_fixed. unfold on_space.
    replace (pos c2 <? size s')%nat with false
      by (symmetry; apply Nat.ltb_ge; lia). reflexivity. }
  unfold evaluate, run.
  replace (budget s') with (S (S (S (S (budget text + 4)))))
    by (unfold budget; fold (size s') (size text); rewrite Hsize; lia).
  unfold parse. rewrite (bind_Ok _ _ _ _ _ Hexpr). cbv beta zeta.
  rewrite Hfix2, Hc2, Nat.eqb_refl. reflexivity.
Qed.

(** A sum in parentheses. *)
Lemma parentheses_keep_the_value_witness :
  evaluate sample_pow ("(" ++ "1+2" ++ ")") = Ok 3%float.
Proof.
  apply (parentheses_keep_the_value sample_pow "1+2" 3%float).
  vm_compute. reflexivity.
Defined.
